(** * TMarSel: the marker-selection core of [TMarSel.py]

    A shallow embedding of the selection pipeline of [TMarSel.py]
    ([filter_copies], [build_copy_number_matrix], [get_genomes_to_keep],
    [greedy_power_mean_sample_final]) and the properties its specification
    states about it.

    Conventions.
    - A Python exception is a value of [exn]; a function that can raise
      returns a [result].
    - A 2-D numpy array is a [matrix]: its rows together with its number of
      columns (the shape of an array with zero rows still has a column count).
    - The element type of the float arrays of the greedy selector is left
      abstract ([Numeric]): the development only uses the operations the
      source uses on them ([+], [== 0], [<]).  [scipy.stats.pmean], which is
      not part of this repository, is a parameter of the selector: a function
      from an exponent and a row to a score.
    - A Python float is given by the rational it denotes.  The product of
      two floats is their exact product rounded as binary64 rounds it
      ([float_mul]); the comparisons of floats are exact. *)

From Stdlib Require Import ZArith QArith Qpower Lia Lqa List Ascii String Bool OrdersEx Sorted.
From stdpp Require Import base list strings gmap sorting.

Close Scope Q_scope.
Open Scope nat_scope.

(* ===================================================================== *)
(** * Part I: the program *)
(* ===================================================================== *)

(** ** Exceptions and results *)

Inductive exn : Type :=
| EmptyMatrix                (* ValueError('Matrix is empty!') *)
| OnlyZeros                  (* ValueError("Matrix only contains 0's") *)
| KTooLarge (n : nat)        (* ValueError(f'k should be smaller than {n}') *)
| InvalidP                   (* ValueError(f'Invalid p: {p}.') *)
| InvalidThreshold           (* ValueError('Threshold should be a value between 0 and 1.') *)
| EmptyArgmax                (* numpy: attempt to get argmax of an empty sequence *)
| IndexError                 (* numpy: index out of bounds / mask of the wrong length *)
| BroadcastError             (* numpy: operands could not be broadcast together *)
| ReshapeError.              (* numpy: cannot reshape array *)

Inductive result (A : Type) : Type :=
| Ok (a : A)
| Raise (e : exn).
Arguments Ok {A} a.
Arguments Raise {A} e.

Definition bind {A B : Type} (r : result A) (k : A -> result B) : result B :=
  match r with
  | Ok a => k a
  | Raise e => Raise e
  end.

Notation "'let*' x ':=' e 'in' k" := (bind e (fun x => k))
  (at level 10, x name, e at level 100, k at level 200, only parsing).

Definition is_degenerate_error (e : exn) : bool :=
  match e with
  | EmptyMatrix | OnlyZeros | KTooLarge _ => true
  | _ => false
  end.

(** ** Array elements *)

(** The operations [greedy_power_mean_sample_final] applies to the entries
    of its arrays. *)
Class Numeric (num : Type) : Type := {
  num_zero : num;                   (* the entries of np.zeros(m) *)
  num_add : num -> num -> num;      (* elementwise + *)
  num_eq0 : num -> bool;            (* x == 0 *)
  num_ltb : num -> num -> bool;     (* x < y, as used by min, max and argmax *)
}.

Definition num_lt {num : Type} `{Numeric num} (x y : num) : Prop :=
  num_ltb x y = true.
Definition num_le {num : Type} `{Numeric num} (x y : num) : Prop :=
  num_ltb y x = false.

(** [<] orders the entries as it orders numbers (no NaN among them). *)
Class NumericOrder (num : Type) `{Numeric num} : Prop := {
  num_lt_irrefl : forall x : num, ~ num_lt x x;
  num_lt_trans : forall x y z : num, num_lt x y -> num_lt y z -> num_lt x z;
  num_lt_cotrans : forall x y z : num, num_lt x z -> num_lt x y \/ num_lt y z;
}.

(** Adding a non-negative entry does not decrease a total, and a
    non-negative entry plus a positive pseudocount stays non-negative. *)
Class NumericMonotone (num : Type) `{Numeric num} : Prop := {
  num_add_nonneg_le : forall x y : num, num_le num_zero y -> num_le x (num_add x y);
  num_add_pos_nonneg : forall x c : num,
    num_le num_zero x -> num_lt num_zero c -> num_le num_zero (num_add x c);
}.

(** The exponent argument [p], as the source inspects it: a Python [int]
    (or [np.int64]), a string, or a value of any other type. *)
Inductive exponent : Type :=
| ExpInt (p : Z)
| ExpStr (s : string)
| ExpOther.

Definition valid_exponent (p : exponent) : bool :=
  match p with
  | ExpInt _ => true
  | ExpStr s => String.eqb s "min" || String.eqb s "max"
  | ExpOther => false
  end.

(** ** GreedySelector: [greedy_power_mean_sample_final] *)

Section Greedy.
Context {num : Type} `{Numeric num}.

(** [scipy.stats.pmean(row, p)] on one row. *)
Variable pmean : Z -> list num -> num.

Record matrix : Type := Matrix {
  ncols : nat;
  mrows : list (list num);
}.

Definition nrows (d : matrix) : nat := length (mrows d).

Definition matrix_wf (d : matrix) : Prop :=
  Forall (fun r => length r = ncols d) (mrows d).

(** [(data == 0).all()] *)
Definition all_zero (d : matrix) : bool :=
  forallb (forallb num_eq0) (mrows d).

(** [data + pseudocount] *)
Definition add_pseudocount (c : num) (rows : list (list num)) : list (list num) :=
  (fun row : list num => (fun x => num_add x c) <$> row) <$> rows.

(** [counts + data]: the vector [counts] is broadcast over the rows. *)
Definition add_row (counts row : list num) : list num :=
  zip_with num_add counts row.

Definition sums_of (counts : list num) (data : list (list num)) : list (list num) :=
  add_row counts <$> data.

(** [row.min()] and [row.max()]; the rows have [m > 0] entries. *)
Definition num_min (a x : num) : num := if num_ltb x a then x else a.
Definition num_max (a x : num) : num := if num_ltb a x then x else a.

Definition row_min (row : list num) : num :=
  match row with
  | [] => num_zero
  | x :: xs => fold_left num_min xs x
  end.

Definition row_max (row : list num) : num :=
  match row with
  | [] => num_zero
  | x :: xs => fold_left num_max xs x
  end.

(** [a.argmax()]: the position of the first occurrence of the maximum. *)
Fixpoint argmax_from (best : num) (besti i : nat) (xs : list num) : nat :=
  match xs with
  | [] => besti
  | x :: xs' =>
      if num_ltb best x then argmax_from x i (S i) xs'
      else argmax_from best besti (S i) xs'
  end.

Definition argmax (xs : list num) : result nat :=
  match xs with
  | [] => Raise EmptyArgmax
  | x :: xs' => Ok (argmax_from x 0 1 xs')
  end.

(** The objective applied to every row ([axis = 1]), chosen by the type and
    value of [p]. *)
Definition objective (p : exponent) : result (list num -> num) :=
  match p with
  | ExpInt z => Ok (pmean z)
  | ExpStr s =>
      if String.eqb s "min" then Ok row_min
      else if String.eqb s "max" then Ok row_max
      else Raise InvalidP
  | ExpOther => Raise InvalidP
  end.

Definition row_scores (p : exponent) (sums_ : list (list num)) : result (list num) :=
  let* f := objective p in
  Ok (f <$> sums_).

(** The variables the loop updates. *)
Record loop_state : Type := LoopState {
  counts : list num;
  data : list (list num);
  indices : list nat;
  selected : list nat;
}.

Definition index {A : Type} (l : list A) (i : nat) : result A :=
  match l !! i with
  | Some x => Ok x
  | None => Raise IndexError
  end.

(** One iteration of the [for i in range(k)] loop. *)
Definition select_step (p : exponent) (st : loop_state) : result loop_state :=
  let sums_ := sums_of (counts st) (data st) in
  let* scores := row_scores p sums_ in
  let* choice := argmax scores in
  let* g := index (indices st) choice in
  let* counts' := index sums_ choice in
  Ok {| counts := counts';
        data := delete choice (data st);
        indices := delete choice (indices st);
        selected := selected st ++ [g] |}.

Fixpoint select_loop (p : exponent) (iters : nat) (st : loop_state) : result loop_state :=
  match iters with
  | O => Ok st
  | S iters' => let* st' := select_step p st in select_loop p iters' st'
  end.

(** The checks at the entry of the function, in the order of the source. *)
Definition entry_checks (d : matrix) (k : Z) : result unit :=
  if (nrows d =? 0) || (ncols d =? 0) then Raise EmptyMatrix
  else if all_zero d then Raise OnlyZeros
  else if (Z.of_nat (nrows d) <=? k)%Z then Raise (KTooLarge (nrows d))
  else Ok tt.

Definition initial_state (d : matrix) (pseudocount : num) : loop_state :=
  {| counts := replicate (ncols d) num_zero;
     data := add_pseudocount pseudocount (mrows d);
     indices := seq 0 (nrows d);
     selected := [] |}.

(** The input is degenerate: one of the entry checks fires. *)
Definition degenerate (d : matrix) (k : Z) : bool :=
  (nrows d =? 0) || (ncols d =? 0) || all_zero d || (Z.of_nat (nrows d) <=? k)%Z.

(** [trial(g) = counts + M[g]] for the row [g] of the input matrix, [M]
    being the matrix with the pseudocount added. *)
Definition trial (d : matrix) (pseudocount : num) (counts : list num) (g : nat)
  : list num :=
  match add_pseudocount pseudocount (mrows d) !! g with
  | Some row => add_row counts row
  | None => []
  end.

(** The state after the loop; [range(k)] is empty for [k <= 0]. *)
Definition greedy_run (d : matrix) (k : Z) (p : exponent) (pseudocount : num)
  : result loop_state :=
  let* _ := entry_checks d k in
  select_loop p (Z.to_nat k) (initial_state d pseudocount).

(** *** Invariants of the loop *)

(** The selected and the remaining indices partition the row indices of
    the input. *)
Definition loop_inv (n : nat) (st : loop_state) : Prop :=
  length (data st) = length (indices st) /\
  selected st ++ indices st ≡ₚ seq 0 n.

(** The positions of [l] hold increasing values. *)
Definition increasing (l : list nat) : Prop :=
  forall i j x y, i < j -> l !! i = Some x -> l !! j = Some y -> x < y.

(** The working array holds the rows of the pseudocount-augmented input
    named by [indices], in increasing order of their original index. *)
Definition rows_inv (d : matrix) (c : num) (st : loop_state) : Prop :=
  Forall2 (fun g row => add_pseudocount c (mrows d) !! g = Some row)
          (indices st) (data st) /\
  increasing (indices st).

(** [counts] has one entry per column, as every row of the working array,
    whose entries are non-negative. *)
Definition counts_inv (d : matrix) (st : loop_state) : Prop :=
  length (counts st) = ncols d /\
  Forall (fun row => length row = ncols d /\ Forall (num_le num_zero) row) (data st).

Definition greedy_power_mean_sample_final
    (d : matrix) (k : Z) (p : exponent) (pseudocount : num) : result (list nat) :=
  let* st := greedy_run d k p pseudocount in
  Ok (selected st).

End Greedy.

Arguments matrix num : clear implicits.
Arguments loop_state num : clear implicits.

(** Exact rational arithmetic as array element type: the instance at which
    the selector is run on concrete matrices. *)
Definition Qltb (x y : Q) : bool :=
  match Qcompare x y with
  | Lt => true
  | _ => false
  end.

#[export] Instance Q_numeric : Numeric Q := {|
  num_zero := 0%Q;
  num_add := fun x y => Qred (x + y);
  num_eq0 := fun x => Qeq_bool x 0;
  num_ltb := Qltb;
|}.

(** The arithmetic mean of the [p]-th powers of a row: the power mean
    without its outer root, which has no rational value in general (for
    [p = 1] it is [pmean(row, 1)] itself).  It is the argument given for
    [pmean] where the selector is run on an example; the examples use
    [p = 'min'], which does not call it. *)
Definition Qmean_of_powers (p : Z) (row : list Q) : Q :=
  Qred (foldr Qplus 0%Q ((fun x => Qpower x p) <$> row)
        / inject_Z (Z.of_nat (length row))).

(** ** Python floats

    A [float] is a binary64 number, given here by its value: a rational
    [m * 2 ^ e] with [|m| < 2 ^ 53] and [e >= -1074].  The result of an
    arithmetic operation on floats is its exact result rounded to the
    nearest float, a tie going to the float whose significand is even
    ([float_round]); comparisons of floats are exact.  The largest float is
    not modelled: the products taken below have a factor in [0, 1], and an
    integer converted to a float is a number of markers. *)

(** [2 ^ l <= a / b] *)
Definition pow2_leb (l : Z) (a b : positive) : bool :=
  if (0 <=? l)%Z then (2 ^ l * Zpos b <=? Zpos a)%Z
  else (Zpos b <=? Zpos a * 2 ^ (- l))%Z.

(** The exponent of the leading bit of [a / b]: [floor (log2 (a / b))]. *)
Definition log2_floor (a b : positive) : Z :=
  let l0 := (Z.log2 (Zpos a) - Z.log2 (Zpos b))%Z in
  if pow2_leb l0 a b then l0 else (l0 - 1)%Z.

(** [n / d] rounded to the nearest integer, ties to even ([d > 0]). *)
Definition round_half_even (n d : Z) : Z :=
  let q := (n / d)%Z in
  match (2 * (n mod d) ?= d)%Z with
  | Lt => q
  | Gt => (q + 1)%Z
  | Eq => if Z.even q then q else (q + 1)%Z
  end.

(** [n * 2 ^ e] *)
Definition scale2 (n e : Z) : Q :=
  if (0 <=? e)%Z then inject_Z (n * 2 ^ e) else Qred (Qmake n (Z.to_pos (2 ^ (- e)))).

(** The exponent of the last bit of the significand of the floats next to
    [a / b]: 53 bits from the leading one, and never below the exponent of
    the subnormal floats. *)
Definition float_quantum (a b : positive) : Z := Z.max (log2_floor a b - 52) (-1074).

Definition float_round_pos (a b : positive) : Q :=
  let e := float_quantum a b in
  let n := if (0 <=? e)%Z then round_half_even (Zpos a) (Zpos b * 2 ^ e)
           else round_half_even (Zpos a * 2 ^ (- e)) (Zpos b) in
  scale2 n e.

(** The float nearest to [x]. *)
Definition float_round (x : Q) : Q :=
  match Qnum (Qred x) with
  | Z0 => 0%Q
  | Zpos a => float_round_pos a (Qden (Qred x))
  | Zneg a => Qopp (float_round_pos a (Qden (Qred x)))
  end.

(** [x] is the value of a float. *)
Definition is_float (x : Q) : Prop := (float_round x == x)%Q.

(** [x * y] on floats. *)
Definition float_mul (x y : Q) : Q := float_round (x * y).

(** [float(z)], the conversion applied to an [int] operand of a float
    operation. *)
Definition float_of_int (z : Z) : Q := float_round (inject_Z z).

(** For the properties of the rounding: [2 ^ e], the integer nearest to a
    rational, and the rounding to a multiple of [2 ^ e]. *)
Definition pow2 (e : Z) : Q := Qpower 2 e.

Definition rne (x : Q) : Z := round_half_even (Qnum x) (Zpos (Qden x)).

Definition round_at (e : Z) (x : Q) : Q := (inject_Z (rne (x * pow2 (- e))) * pow2 e)%Q.

(** ** Python numbers *)

(** A value that is a Python [int] or a Python [float], the float given by
    its value. *)
Inductive pynumber : Type :=
| PyInt (z : Z)
| PyFloat (q : Q).

Definition pynumber_value (x : pynumber) : Q :=
  match x with
  | PyInt z => inject_Z z
  | PyFloat q => q
  end.

(** The entry of a matrix at row [i], column [j]. *)
Definition entry {A : Type} (rows : list (list A)) (i j : nat) : option A :=
  match rows !! i with
  | Some r => r !! j
  | None => None
  end.

(** ** CoverageFilter: [get_genomes_to_keep] *)

(** [min_markers * k if isinstance(min_markers, float) and
     0 <= min_markers <= 1 else min_markers] *)
Definition coverage_threshold (min_markers : pynumber) (k : Z) : pynumber :=
  match min_markers with
  | PyFloat q =>
      if Qle_bool 0 q && Qle_bool q 1 then PyFloat (float_mul q (float_of_int k))
      else min_markers
  | PyInt _ => min_markers
  end.

(** [adj[markers_index]]: one row per index, in the order of the indices. *)
Fixpoint take_rows (rows : list (list Z)) (markers_index : list nat)
  : result (list (list Z)) :=
  match markers_index with
  | [] => Ok []
  | i :: rest =>
      let* r := index rows i in
      let* rs := take_rows rows rest in
      Ok (r :: rs)
  end.

(** [a.sum(axis = 0)] for an array with [m] columns. *)
Definition sum_axis0 (m : nat) (rows : list (list Z)) : list Z :=
  foldr (zip_with Z.add) (replicate m 0%Z) rows.

(** [total >= threshold], the comparison of an integer with a Python number
    (a total, a number of annotation records, is an integer that a float
    holds exactly). *)
Definition ge_threshold (total : Z) (threshold : pynumber) : bool :=
  match threshold with
  | PyInt z => (z <=? total)%Z
  | PyFloat q => Qle_bool q (inject_Z total)
  end.

(** [genomes[mask]]: the entries of [genomes] where the mask holds; the mask
    must be as long as the array. *)
Fixpoint select_mask {A : Type} (xs : list A) (mask : list bool) : list A :=
  match xs, mask with
  | x :: xs', b :: mask' => if b then x :: select_mask xs' mask' else select_mask xs' mask'
  | _, _ => []
  end.

Definition mask_index {A : Type} (xs : list A) (mask : list bool) : result (list A) :=
  if length xs =? length mask then Ok (select_mask xs mask) else Raise IndexError.

Definition marker_totals (adj : matrix Z) (markers_index : list nat) : result (list Z) :=
  let* rows := take_rows (mrows adj) markers_index in
  Ok (sum_axis0 (ncols adj) rows).

Definition get_genomes_to_keep (adj : matrix Z) (k : Z) (markers_index : list nat)
    (min_markers : pynumber) (genomes : list string) : result (list string) :=
  let threshold := coverage_threshold min_markers k in
  let* totals := marker_totals adj markers_index in
  mask_index genomes ((fun total => ge_threshold total threshold) <$> totals).

(** The statement of the specification for the coverage filter: the total
    of genome column [j] over the selected rows, and the threshold [tau],
    whose product [min_markers * k] is the product of the float
    [min_markers] and the integer [k]. *)
Definition column_total (adj : matrix Z) (markers_index : list nat) (j : nat) : Z :=
  foldr Z.add 0%Z ((fun i => default 0%Z (entry (mrows adj) i j)) <$> markers_index).

Definition spec_tau (min_markers : pynumber) (k : Z) : Q :=
  match min_markers with
  | PyFloat q => float_mul q (float_of_int k)
  | PyInt z => inject_Z z
  end.

(** [min_markers] is a fraction in [0, 1] or an integer count. *)
Definition fraction_or_count (min_markers : pynumber) : bool :=
  match min_markers with
  | PyFloat q => Qle_bool 0 q && Qle_bool q 1
  | PyInt _ => true
  end.

(** [min_markers] is a fraction in [0, 1] or a non-negative integer count. *)
Definition min_markers_in_domain (min_markers : pynumber) : bool :=
  match min_markers with
  | PyFloat q => Qle_bool 0 q && Qle_bool q 1
  | PyInt z => (0 <=? z)%Z
  end.

(** The genomes of the positions whose total reaches [tau]. *)
Definition genomes_reaching (adj : matrix Z) (markers_index : list nat)
    (tau : Q) (genomes : list string) : list string :=
  select_mask genomes
    ((fun j => Qle_bool tau (inject_Z (column_total adj markers_index j)))
       <$> seq 0 (length genomes)).

(** ** CopyFilter: [filter_copies] *)

(** A row of the annotation data frame (its index [orf] and its columns). *)
Record annotation : Type := Annotation {
  orf : string;
  bit_score : Q;
  gene_family : string;
  genome : string;
  file_name : string;
}.

Definition group_key (r : annotation) : string * string :=
  (genome r, gene_family r).

Definition Qmax_b (a b : Q) : Q := if Qle_bool a b then b else a.

(** [df.groupby(['genome', 'gene_family'])['bit_score']] reduced with [max]:
    one maximum per group key. *)
Definition group_max_step (acc : gmap (string * string) Q) (r : annotation)
  : gmap (string * string) Q :=
  <[group_key r :=
      match acc !! group_key r with
      | Some s => Qmax_b s (bit_score r)
      | None => bit_score r
      end]> acc.

Definition group_max (df : list annotation) : gmap (string * string) Q :=
  foldl group_max_step ∅ df.

(** The maximum of the group of the row [r] of [df]. *)
Definition row_max_score (df : list annotation) (r : annotation) : Q :=
  default (bit_score r) (group_max df !! group_key r).

(** [.transform('max')]: the group maximum, aligned with the rows. *)
Definition transform_max (df : list annotation) : list Q :=
  row_max_score df <$> df.

(** [df[df['bit_score'] >= max_scores * threshold]] *)
Definition filter_copies (df : list annotation) (threshold : Q) : result (list annotation) :=
  if negb (Qle_bool 0 threshold && Qle_bool threshold 1) then Raise InvalidThreshold
  else
    let max_scores := transform_max df in
    let mask :=
      zip_with (fun r mx => Qle_bool (float_mul mx threshold) (bit_score r)) df max_scores in
    mask_index df mask.

(** The statement of the specification for one record: [m] is the maximum
    score of the group of [r]. *)
Definition is_group_max (df : list annotation) (r : annotation) (m : Q) : Prop :=
  (exists r', r' ∈ df /\ group_key r' = group_key r /\ bit_score r' = m) /\
  (forall r', r' ∈ df -> group_key r' = group_key r -> (bit_score r' <= m)%Q).

(** ** MatrixBuilder: [build_copy_number_matrix] *)

(** Labels are compared as Python compares [str]: lexicographically. *)
Abbreviation label_lt := String_as_OT.lt.

(** [np.unique]: the sorted distinct labels. *)
Fixpoint insert_label (x : string) (l : list string) : list string :=
  match l with
  | [] => [x]
  | y :: l' =>
      match String_as_OT.compare x y with
      | Lt => x :: l
      | Eq => l
      | Gt => y :: insert_label x l'
      end
  end.

Definition np_unique (xs : list string) : list string :=
  foldr insert_label [] xs.

(** [return_inverse = True]: for every input label its index in the array
    of distinct labels. *)
Fixpoint label_index (x : string) (labels : list string) : nat :=
  match labels with
  | [] => 0
  | y :: labels' => if String.eqb x y then 0 else S (label_index x labels')
  end.

Definition unique_inverse (xs : list string) : list nat :=
  (fun x => label_index x (np_unique xs)) <$> xs.

(** [a * c + b] on index arrays, with numpy's broadcasting of a length-one
    operand. *)
Definition flat_indices (a : list nat) (c : nat) (b : list nat) : result (list nat) :=
  if length a =? length b then Ok (zip_with (fun x y => x * c + y) a b)
  else if length a =? 1 then Ok ((fun y => hd 0 a * c + y) <$> b)
  else if length b =? 1 then Ok ((fun x => x * c + hd 0 b) <$> a)
  else Raise BroadcastError.

(** The number of positions of [xs] holding [v]. *)
Definition occurrences (v : nat) (xs : list nat) : nat :=
  length (filter (fun x => x = v) xs).

(** [np.bincount(x, minlength)] *)
Definition bincount (x : list nat) (minlength : nat) : list Z :=
  let size := Nat.max minlength (match x with [] => 0 | _ => S (max_list x) end) in
  foldl (fun out v => alter Z.succ v out) (replicate size 0%Z) x.

(** [counts.reshape(n, m)] *)
Fixpoint chunks (n m : nat) (flat : list Z) : list (list Z) :=
  match n with
  | O => []
  | S n' => take m flat :: chunks n' m (drop m flat)
  end.

Definition reshape (flat : list Z) (n m : nat) : result (matrix Z) :=
  if length flat =? n * m then Ok (Matrix m (chunks n m flat))
  else Raise ReshapeError.

Definition build_copy_number_matrix (edges_genes edges_genomes : list string)
  : result (matrix Z * list string * list string) :=
  let genes := np_unique edges_genes in
  let genes_indices := unique_inverse edges_genes in
  let genomes := np_unique edges_genomes in
  let genomes_indices := unique_inverse edges_genomes in
  let* flat := flat_indices genes_indices (length genomes) genomes_indices in
  let counts := bincount flat (length genes * length genomes) in
  let* adj := reshape counts (length genes) (length genomes) in
  Ok (adj, genomes, genes).

(** The number of positions of the edge list holding the pair [(g, s)]. *)
Definition edge_count (g s : string) (edges : list (string * string)) : nat :=
  length (filter (fun e => e = (g, s)) edges).

(** ** The examples of the specification *)

(** The matrix of the example scenario of the greedy selector. *)
Definition example_matrix : matrix Q :=
  {| ncols := 3;
     mrows := [[4; 0; 0]; [0; 4; 0]; [0; 0; 4]; [1; 1; 1]]%Q |}.

(** The loop variables on the example matrix with [p = 'min'] and
    pseudocount 0.1: after one iteration, after two, and at the end of the
    run with [k = 3]. *)
Definition example_state_1 : loop_state Q :=
  {| counts := [11 # 10; 11 # 10; 11 # 10]%Q;
     data := [[41 # 10; 1 # 10; 1 # 10]; [1 # 10; 41 # 10; 1 # 10];
              [1 # 10; 1 # 10; 41 # 10]]%Q;
     indices := [0; 1; 2];
     selected := [3] |}.

Definition example_state_2 : loop_state Q :=
  {| counts := [26 # 5; 6 # 5; 6 # 5]%Q;   (* 5.2, 1.2, 1.2 *)
     data := [[1 # 10; 41 # 10; 1 # 10]; [1 # 10; 1 # 10; 41 # 10]]%Q;
     indices := [1; 2];
     selected := [3; 0] |}.

Definition example_final_state : loop_state Q :=
  {| counts := [53 # 10; 53 # 10; 13 # 10]%Q;
     data := [[1 # 10; 1 # 10; 41 # 10]]%Q;
     indices := [2];
     selected := [3; 0; 1] |}.

(** A matrix whose rows 0, 1, 2 sum to the per-genome totals 5, 3, 1 of the
    coverage-filter example. *)
Definition example_adj : matrix Z :=
  {| ncols := 3; mrows := [[2; 1; 0]; [2; 1; 1]; [1; 1; 0]]%Z |}.

Definition example_genomes : list string := ["G1"; "G2"; "G3"].

(** The group of the boundary example of the copy filter: three records of
    one genome and one gene family, scoring 10, 10 and 7. *)
Definition example_group : list annotation :=
  [ Annotation "G1_1" 10 "K00001" "G1" "G1.tsv";
    Annotation "G1_2" 10 "K00001" "G1" "G1.tsv";
    Annotation "G1_3" 7 "K00001" "G1" "G1.tsv" ].

(** An edge list with repeated pairs. *)
Definition example_edges_genes : list string := ["K2"; "K1"; "K2"; "K3"; "K2"].
Definition example_edges_genomes : list string := ["G1"; "G2"; "G1"; "G1"; "G3"].


(** ** SparsityFilter: [remove_genes] and the row deletion of its caller *)

(** [np.count_nonzero(row)] *)
Definition count_nonzero (row : list Z) : nat :=
  length (filter (fun x => x <> 0%Z) row).

(** A row is dense when it has at least four non-zero entries. *)
Definition dense (row : list Z) : bool := 4 <=? count_nonzero row.

(** [np.where(mask)[0]]: the positions where the mask holds, ascending. *)
Fixpoint np_where_from (i : nat) (mask : list bool) : list nat :=
  match mask with
  | [] => []
  | b :: mask' =>
      if b then i :: np_where_from (S i) mask' else np_where_from (S i) mask'
  end.

Definition np_where (mask : list bool) : list nat := np_where_from 0 mask.

(** [np.where(np.count_nonzero(adj, axis = 1) < 4)[0]] *)
Definition remove_genes (adj : matrix Z) : list nat :=
  np_where ((fun row => count_nonzero row <? 4) <$> mrows adj).

(** [np.delete(arr, obj, axis = 0)] for an array of indices [obj]: the
    entries at the positions in [obj] are dropped; an index out of bounds
    raises. *)
Fixpoint delete_from {A : Type} (i : nat) (obj : list nat) (l : list A) : list A :=
  match l with
  | [] => []
  | x :: l' =>
      if bool_decide (i ∈ obj) then delete_from (S i) obj l'
      else x :: delete_from (S i) obj l'
  end.

Definition np_delete {A : Type} (l : list A) (obj : list nat) : result (list A) :=
  if forallb (fun i => i <? length l) obj then Ok (delete_from 0 obj l)
  else Raise IndexError.

(** ** [get_edges] *)

Definition get_edges (filtered_df : list annotation) : list string * list string :=
  (gene_family <$> filtered_df, genome <$> filtered_df).

(** ** The matrix the selector receives ([run_TMarSel], from the filtering
    of the copies to the removal of the sparse gene families) *)

Definition prepare_matrix (df : list annotation) (threshold : Q)
  : result (matrix Z * list string * list string) :=
  let* filtered_df := filter_copies df threshold in
  let edges := get_edges filtered_df in
  let* built := build_copy_number_matrix edges.1 edges.2 in
  let adj := built.1.1 in
  let genomes := built.1.2 in
  let genes := built.2 in
  let remove := remove_genes adj in
  let* genes_mod := np_delete genes remove in
  let* rows_mod := np_delete (mrows adj) remove in
  Ok ({| ncols := ncols adj; mrows := rows_mod |}, genomes, genes_mod).

(** The integer matrix as the selector's working array: [data + pseudocount]
    converts the integer entries to the element type of the pseudocount. *)
Definition as_array {num : Type} (of_int : Z -> num) (adj : matrix Z) : matrix num :=
  {| ncols := ncols adj;
     mrows := (fun row : list Z => of_int <$> row) <$> mrows adj |}.

(** The sum of the entries of an integer array, and of all the entries of
    an integer matrix. *)
Definition list_sum (l : list Z) : Z := foldr Z.add 0%Z l.

Definition matrix_sum (rows : list (list Z)) : Z :=
  list_sum (list_sum <$> rows).

(** The rows named by a selection, added up in selection order from zero:
    [counts = np.zeros(m)] followed by [counts = counts + data[g]] for every
    selected [g]. *)
Definition counts_of_selection {num : Type} `{Numeric num}
    (d : matrix num) (c : num) (sel : list nat) : list num :=
  foldl (trial d c) (replicate (ncols d) num_zero) sel.

(** The flat index [genes_indices * len(genomes) + genomes_indices] of an
    edge. *)
Definition edge_code (genes genomes : list string) (e : string * string) : nat :=
  label_index e.1 genes * length genomes + label_index e.2 genomes.

(** ** The annotation loaders: one line of an annotation file

    [load_genome_annotations_single_file] turns every line that is not a
    comment into a record ([annotation_of_row], from the stripped line on).
    [load_genome_annotations_multiple_files] has the same loop body, which
    it runs, for each file, after its check of the database
    ([annotation_of_row_multiple]).  [float] is a parameter: it gives the
    score a string denotes, or nothing where Python's [float] raises. *)

Inductive load_error : Type :=
| FieldIndexError            (* IndexError: list index out of range *)
| InvalidDatabase            (* ValueError("Invalid database type. ...") *)
| InvalidScore.              (* ValueError: could not convert string to float *)

Inductive loaded (A : Type) : Type :=
| Loaded (a : A)
| LoadError (e : load_error).
Arguments Loaded {A} a.
Arguments LoadError {A} e.

(** [s.split(sep)] for a separator of one character. *)
Fixpoint str_split (sep : ascii) (s : string) : list string :=
  match s with
  | EmptyString => [EmptyString]
  | String c s' =>
      if Ascii.eqb c sep then EmptyString :: str_split sep s'
      else match str_split sep s' with
           | h :: rest => String c h :: rest
           | [] => [String c EmptyString]
           end
  end.

(** [s.split(sep)[0]] *)
Definition split_head (sep : ascii) (s : string) : string :=
  hd EmptyString (str_split sep s).

(** [row[i]] *)
Definition field (row : list string) (i : nat) : loaded string :=
  match row !! i with
  | Some x => Loaded x
  | None => LoadError FieldIndexError
  end.

Definition load_bind {A B : Type} (r : loaded A) (k : A -> loaded B) : loaded B :=
  match r with
  | Loaded a => k a
  | LoadError e => LoadError e
  end.

(** The body of the loop over the lines of
    [load_genome_annotations_single_file], for the row of a line. *)
Definition annotation_of_row (float : string -> option Q)
    (database : option string) (raw_annotations : bool) (file_name : string)
    (row : list string) : loaded annotation :=
  load_bind
    (if raw_annotations then
       load_bind (field row 0) (fun orf =>
       load_bind (field row 3) (fun score =>
       let genome := split_head "_"%char orf in
       load_bind
         (match database with
          | Some db =>
              if String.eqb db "eggnog" then
                load_bind (field row 4) (fun og =>
                Loaded (split_head "@"%char (split_head "|"%char og)))
              else if String.eqb db "kegg" then field row 1
              else LoadError InvalidDatabase
          | None => LoadError InvalidDatabase
          end) (fun gene =>
       Loaded (orf, score, gene, genome))))
     else
       load_bind (field row 0) (fun orf =>
       load_bind (field row 1) (fun score =>
       load_bind (field row 2) (fun gene =>
       let genome := split_head "_"%char orf in
       Loaded (orf, score, gene, genome)))))
    (fun fields =>
       match fields with
       | (orf, score, gene, genome) =>
           match float score with
           | Some x => Loaded (Annotation orf x gene genome file_name)
           | None => LoadError InvalidScore
           end
       end).

(** The record of a stripped line: [row = line.strip().split('\t')]. *)
Definition annotation_of_line (float : string -> option Q)
    (database : option string) (raw_annotations : bool) (file_name : string)
    (stripped : string) : loaded annotation :=
  annotation_of_row float database raw_annotations file_name
    (str_split "009"%char stripped).

(** [load_genome_annotations_multiple_files] names the file of an input
    [fIn] after the database, and rejects any other database, before it
    opens the file. *)
Definition annotation_path (database : option string) (fIn : string) : loaded string :=
  match database with
  | Some db =>
      if String.eqb db "eggnog" then Loaded (fIn ++ ".emapper.annotations")%string
      else if String.eqb db "kegg" then Loaded (fIn ++ ".tsv")%string
      else LoadError InvalidDatabase
  | None => LoadError InvalidDatabase
  end.

(** A row of the file of [fIn] in [load_genome_annotations_multiple_files]:
    the check of the database, then the loop body of the other loader under
    the name of the file; [basename] stands for [os.path.basename]. *)
Definition annotation_of_row_multiple (float : string -> option Q)
    (basename : string -> string) (database : option string) (raw_annotations : bool)
    (fIn : string) (row : list string) : loaded annotation :=
  load_bind (annotation_path database fIn) (fun path =>
  annotation_of_row float database raw_annotations (basename path) row).

(** The character [c] occurs in [s]. *)
Fixpoint occurs (c : ascii) (s : string) : Prop :=
  match s with
  | EmptyString => False
  | String c' s' => c' = c \/ occurs c s'
  end.

(** The number of occurrences of the character [c] in [s]. *)
Fixpoint count_char (c : ascii) (s : string) : nat :=
  match s with
  | EmptyString => 0
  | String c' s' => (if Ascii.eqb c' c then 1 else 0) + count_char c s'
  end.

(** ** Examples for the pipeline *)

(** An annotation table: K1 and K2 in four genomes (K2 twice in G1), K3 in
    two genomes. *)
Definition example_table : list annotation :=
  [ Annotation "G1_1" 50 "K1" "G1" "G1.tsv";
    Annotation "G1_2" 60 "K2" "G1" "G1.tsv";
    Annotation "G1_3" 30 "K2" "G1" "G1.tsv";
    Annotation "G1_4" 10 "K3" "G1" "G1.tsv";
    Annotation "G2_1" 40 "K1" "G2" "G2.tsv";
    Annotation "G2_2" 55 "K2" "G2" "G2.tsv";
    Annotation "G2_3" 12 "K3" "G2" "G2.tsv";
    Annotation "G3_1" 30 "K1" "G3" "G3.tsv";
    Annotation "G3_2" 45 "K2" "G3" "G3.tsv";
    Annotation "G4_1" 20 "K1" "G4" "G4.tsv";
    Annotation "G4_2" 35 "K2" "G4" "G4.tsv" ].

(** The table without the second copy of K2 in G1. *)
Definition example_table_filtered : list annotation :=
  take 2 example_table ++ drop 3 example_table.

(** The matrix of the filtered table, and what the sparsity filter leaves. *)
Definition example_counts : matrix Z :=
  {| ncols := 4; mrows := [[1; 1; 1; 1]; [1; 1; 1; 1]; [1; 1; 0; 0]]%Z |}.

Definition example_counts_mod : matrix Z :=
  {| ncols := 4; mrows := [[1; 1; 1; 1]; [1; 1; 1; 1]]%Z |}.

(** [float] on strings of decimal digits. *)
Fixpoint digits_value (acc : Z) (s : string) : option Z :=
  match s with
  | EmptyString => Some acc
  | String c s' =>
      let n := nat_of_ascii c in
      if (48 <=? n) && (n <=? 57)
      then digits_value (10 * acc + Z.of_nat (n - 48)) s'
      else None
  end.

Definition example_float (s : string) : option Q :=
  match s with
  | EmptyString => None
  | _ => inject_Z <$> digits_value 0 s
  end.

(* ===================================================================== *)
(** * Part II: properties *)
(* ===================================================================== *)

(** ** The result monad *)

Lemma bind_Ok_inv {A B : Type} (r : result A) (k : A -> result B) (b : B) :
  bind r k = Ok b -> exists a, r = Ok a /\ k a = Ok b.
Proof. destruct r as [a|e]; simpl; [eauto | discriminate]. Qed.

Lemma index_Ok {A : Type} (l : list A) (i : nat) (x : A) :
  index l i = Ok x <-> l !! i = Some x.
Proof.
  unfold index. destruct (l !! i); split; intros E; inversion E; reflexivity.
Qed.

Lemma bind_Raise_inv {A B : Type} (r : result A) (k : A -> result B) (e : exn) :
  bind r k = Raise e -> r = Raise e \/ exists a, r = Ok a /\ k a = Raise e.
Proof. destruct r as [a|e']; simpl; [eauto | intros [= ->]; now left]. Qed.

Lemma index_Raise {A : Type} (l : list A) (i : nat) (e : exn) :
  index l i = Raise e -> e = IndexError.
Proof. unfold index. destruct (l !! i); [discriminate | now intros [= <-]]. Qed.

Lemma index_lt {A : Type} (l : list A) (i : nat) :
  i < length l -> exists x, index l i = Ok x.
Proof.
  intros Hi. destruct (lookup_lt_is_Some_2 l i Hi) as [x Hx].
  exists x. now apply index_Ok.
Qed.

(** ** Python floats *)

Lemma pow2_pos e : (0 < pow2 e)%Q.
Proof. apply Qpower_0_lt. reflexivity. Qed.

Lemma pow2_add e f : (pow2 (e + f) == pow2 e * pow2 f)%Q.
Proof. apply Qpower_plus. discriminate. Qed.

Lemma pow2_inject e : (0 <= e)%Z -> (pow2 e == inject_Z (2 ^ e))%Q.
Proof. intros He. unfold pow2. rewrite Zpower_Qpower by exact He. reflexivity. Qed.

Lemma pow2_le_mono e f : (e <= f)%Z -> (pow2 e <= pow2 f)%Q.
Proof. intros H. apply Qpower_le_compat_l; [exact H | discriminate]. Qed.

Lemma pow2_lt_inv e f : (pow2 e < pow2 f)%Q -> (e < f)%Z.
Proof. intros H. apply (Qpower_lt_compat_l_inv 2); [exact H | reflexivity]. Qed.

Lemma pow2_opp e : (pow2 (- e) == / pow2 e)%Q.
Proof. apply Qpower_opp. Qed.

Lemma inject_Z_pos_neq0 z : (0 < z)%Z -> ~ (inject_Z z == 0)%Q.
Proof.
  intros Hz E. apply (Qlt_irrefl 0). rewrite <- E at 2.
  change 0%Q with (inject_Z 0). rewrite <- Zlt_Qlt. exact Hz.
Qed.

Lemma scale2_spec n e : (scale2 n e == inject_Z n * pow2 e)%Q.
Proof.
  unfold scale2. destruct (Z.leb_spec 0 e) as [He|He].
  - rewrite inject_Z_mult, pow2_inject by exact He. reflexivity.
  - rewrite Qred_correct.
    assert (Hp : (0 < 2 ^ (- e))%Z) by (apply Z.pow_pos_nonneg; lia).
    rewrite Qmake_Qdiv. rewrite Z2Pos.id by exact Hp.
    replace e with (- - e)%Z at 2 by lia. rewrite pow2_opp, pow2_inject by lia.
    reflexivity.
Qed.

Lemma round_half_even_scale c n d :
  (0 < c)%Z -> (0 < d)%Z -> round_half_even (c * n) (c * d) = round_half_even n d.
Proof.
  intros Hc Hd. unfold round_half_even.
  rewrite Z.div_mul_cancel_l by lia. rewrite Z.mul_mod_distr_l by lia.
  replace (2 * (c * (n mod d)))%Z with (c * (2 * (n mod d)))%Z by lia.
  assert (Ec : (c * (2 * (n mod d)) ?= c * d)%Z = (2 * (n mod d) ?= d)%Z).
  { destruct (Z.compare_spec (2 * (n mod d)) d);
      [apply Z.compare_eq_iff | apply Z.compare_lt_iff | apply Z.compare_gt_iff]; nia. }
  rewrite Ec. reflexivity.
Qed.

Lemma round_half_even_exact k d : (0 < d)%Z -> round_half_even (k * d) d = k.
Proof.
  intros Hd. unfold round_half_even.
  rewrite Z.div_mul, Z.mod_mul by lia.
  destruct (Z.compare_spec (2 * 0) d); [lia | reflexivity | lia].
Qed.

Lemma round_half_even_mono n n' d :
  (0 < d)%Z -> (n <= n')%Z -> (round_half_even n d <= round_half_even n' d)%Z.
Proof.
  intros Hd Hn. unfold round_half_even.
  pose proof (Z.div_mod n d ltac:(lia)) as E.
  pose proof (Z.div_mod n' d ltac:(lia)) as E'.
  pose proof (Z.mod_pos_bound n d Hd) as B.
  pose proof (Z.mod_pos_bound n' d Hd) as B'.
  pose proof (Z.div_le_mono n n' d Hd Hn) as Hq.
  set (q := (n / d)%Z) in *. set (q' := (n' / d)%Z) in *.
  set (r := (n mod d)%Z) in *. set (r' := (n' mod d)%Z) in *.
  assert (Hc : q = q' \/ (q + 1 <= q')%Z) by lia.
  destruct Hc as [Hc|Hc].
  - rewrite <- Hc in *. assert (Hr : (r <= r')%Z) by lia.
    destruct (Z.compare_spec (2 * r) d), (Z.compare_spec (2 * r') d);
      destruct (Z.even q); lia.
  - destruct (Z.compare_spec (2 * r) d), (Z.compare_spec (2 * r') d);
      destruct (Z.even q), (Z.even q'); lia.
Qed.

Lemma round_half_even_ratio_mono n d n' d' :
  (0 < d)%Z -> (0 < d')%Z -> (n * d' <= n' * d)%Z ->
  (round_half_even n d <= round_half_even n' d')%Z.
Proof.
  intros Hd Hd' H.
  rewrite <- (round_half_even_scale d' n d) by lia.
  rewrite <- (round_half_even_scale d n' d') by lia.
  replace (d * d')%Z with (d' * d)%Z by lia.
  apply round_half_even_mono; lia.
Qed.

Lemma rne_le x y : (x <= y)%Q -> (rne x <= rne y)%Z.
Proof.
  intros H. unfold rne. apply round_half_even_ratio_mono; [lia | lia | exact H].
Qed.

Lemma rne_inject k : rne (inject_Z k) = k.
Proof.
  unfold rne. simpl. rewrite <- (round_half_even_exact k 1) at 2 by lia.
  f_equal. lia.
Qed.

Lemma round_half_even_rne n d x :
  (0 < d)%Z -> (inject_Z n / inject_Z d == x)%Q -> round_half_even n d = rne x.
Proof.
  intros Hd H. destruct d as [|d|d]; try lia.
  rewrite <- Qmake_Qdiv in H.
  apply Z.le_antisymm.
  - apply (rne_le (n # d) x). rewrite H. apply Qle_refl.
  - apply (rne_le x (n # d)). rewrite H. apply Qle_refl.
Qed.

Lemma float_round_pos_round_at a b :
  (float_round_pos a b == round_at (float_quantum a b) (Zpos a # b))%Q.
Proof.
  unfold float_round_pos, round_at. set (e := float_quantum a b).
  rewrite scale2_spec. apply Qmult_comp; [|reflexivity].
  assert (Hb : ~ (inject_Z (Zpos b) == 0)%Q) by discriminate.
  destruct (Z.leb_spec 0 e) as [He|He].
  - assert (Hp : (0 < 2 ^ e)%Z) by (apply Z.pow_pos_nonneg; lia).
    rewrite (round_half_even_rne _ _ ((Zpos a # b) * pow2 (- e))%Q); [reflexivity | lia |].
    rewrite pow2_opp, pow2_inject by exact He.
    rewrite inject_Z_mult, (Qmake_Qdiv (Zpos a) b).
    pose proof (inject_Z_pos_neq0 _ Hp) as Hp'.
    field. split; assumption.
  - rewrite (round_half_even_rne _ _ ((Zpos a # b) * pow2 (- e))%Q); [reflexivity | lia |].
    rewrite pow2_inject by lia.
    rewrite inject_Z_mult, (Qmake_Qdiv (Zpos a) b). field. exact Hb.
Qed.

Lemma round_at_mono e x y : (x <= y)%Q -> (round_at e x <= round_at e y)%Q.
Proof.
  intros H. unfold round_at. apply Qmult_le_compat_r; [|apply Qlt_le_weak, pow2_pos].
  rewrite <- Zle_Qle. apply rne_le.
  apply Qmult_le_compat_r; [exact H | apply Qlt_le_weak, pow2_pos].
Qed.

Lemma round_at_pow2 e k : (e <= k)%Z -> (round_at e (pow2 k) == pow2 k)%Q.
Proof.
  intros H. unfold round_at.
  assert (E : (pow2 k * pow2 (- e) == inject_Z (2 ^ (k - e)))%Q).
  { rewrite <- pow2_add, <- pow2_inject by lia.
    replace (k + - e)%Z with (k - e)%Z by lia. reflexivity. }
  assert (E' : rne (pow2 k * pow2 (- e)) = (2 ^ (k - e))%Z).
  { rewrite <- (rne_inject (2 ^ (k - e))).
    apply Z.le_antisymm; apply rne_le; rewrite E; apply Qle_refl. }
  rewrite E', <- pow2_inject, <- pow2_add by lia.
  replace (k - e + e)%Z with k by lia. reflexivity.
Qed.

Lemma round_at_upper e k x : (e <= k)%Z -> (x <= pow2 k)%Q -> (round_at e x <= pow2 k)%Q.
Proof.
  intros He H. rewrite <- (round_at_pow2 e k He). apply round_at_mono, H.
Qed.

Lemma round_at_lower e k x : (e <= k)%Z -> (pow2 k <= x)%Q -> (pow2 k <= round_at e x)%Q.
Proof.
  intros He H. rewrite <- (round_at_pow2 e k He) at 1. apply round_at_mono, H.
Qed.

Lemma round_at_nonneg e x : (0 <= x)%Q -> (0 <= round_at e x)%Q.
Proof.
  intros H. unfold round_at. apply Qmult_le_0_compat; [|apply Qlt_le_weak, pow2_pos].
  change 0%Q with (inject_Z 0). rewrite <- Zle_Qle.
  rewrite <- (rne_inject 0). apply rne_le.
  apply Qmult_le_0_compat; [exact H | apply Qlt_le_weak, pow2_pos].
Qed.

Lemma pow2_leb_spec l a b : pow2_leb l a b = true <-> (pow2 l <= Zpos a # b)%Q.
Proof.
  unfold pow2_leb. destruct (Z.leb_spec 0 l) as [Hl|Hl].
  - rewrite pow2_inject by exact Hl. rewrite Z.leb_le.
    unfold Qle. simpl. lia.
  - assert (Hp : (0 < 2 ^ (- l))%Z) by (apply Z.pow_pos_nonneg; lia).
    assert (E : (pow2 l == 1 # Z.to_pos (2 ^ (- l)))%Q).
    { replace l with (- - l)%Z at 1 by lia. rewrite pow2_opp, pow2_inject by lia.
      rewrite Qmake_Qdiv, Z2Pos.id by exact Hp. field.
      apply inject_Z_pos_neq0, Hp. }
    rewrite E, Z.leb_le. unfold Qle. cbn [Qnum Qden].
    rewrite Z2Pos.id by exact Hp. lia.
Qed.

Lemma log2_floor_spec a b :
  (pow2 (log2_floor a b) <= Zpos a # b)%Q /\ (Zpos a # b < pow2 (log2_floor a b + 1))%Q.
Proof.
  unfold log2_floor.
  set (la := Z.log2 (Zpos a)). set (lb := Z.log2 (Zpos b)).
  destruct (Z.log2_spec (Zpos a) ltac:(lia)) as [A1 A2].
  destruct (Z.log2_spec (Zpos b) ltac:(lia)) as [B1 B2].
  fold la in A1, A2. fold lb in B1, B2.
  assert (Hla : (0 <= la)%Z) by apply Z.log2_nonneg.
  assert (Hlb : (0 <= lb)%Z) by apply Z.log2_nonneg.
  assert (Hb : (0 < inject_Z (Zpos b))%Q) by reflexivity.
  assert (QA1 : (pow2 la <= inject_Z (Zpos a))%Q).
  { rewrite pow2_inject by lia. rewrite <- Zle_Qle. exact A1. }
  assert (QA2 : (inject_Z (Zpos a) < pow2 (la + 1))%Q).
  { rewrite pow2_inject by lia. rewrite <- Zlt_Qlt.
    replace (la + 1)%Z with (Z.succ la) by lia. exact A2. }
  assert (QB1 : (pow2 lb <= inject_Z (Zpos b))%Q).
  { rewrite pow2_inject by lia. rewrite <- Zle_Qle. exact B1. }
  assert (QB2 : (inject_Z (Zpos b) < pow2 (lb + 1))%Q).
  { rewrite pow2_inject by lia. rewrite <- Zlt_Qlt.
    replace (lb + 1)%Z with (Z.succ lb) by lia. exact B2. }
  assert (U : (Zpos a # b < pow2 (la - lb + 1))%Q).
  { rewrite Qmake_Qdiv. apply Qlt_shift_div_r; [exact Hb|].
    apply Qlt_le_trans with (1 := QA2).
    replace (la + 1)%Z with ((la - lb + 1) + lb)%Z by lia. rewrite pow2_add.
    apply Qmult_le_l; [apply pow2_pos | exact QB1]. }
  assert (L : (pow2 (la - lb - 1) < Zpos a # b)%Q).
  { rewrite Qmake_Qdiv. apply Qlt_shift_div_l; [exact Hb|].
    apply Qlt_le_trans with (2 := QA1).
    replace la with ((la - lb - 1) + (lb + 1))%Z at 2 by lia. rewrite pow2_add.
    apply Qmult_lt_l; [apply pow2_pos | exact QB2]. }
  destruct (pow2_leb (la - lb) a b) eqn:T.
  - apply pow2_leb_spec in T. split; assumption.
  - split; [apply Qlt_le_weak, L|].
    replace (la - lb - 1 + 1)%Z with (la - lb)%Z by lia.
    apply Qnot_le_lt. intros C. apply pow2_leb_spec in C. congruence.
Qed.

Lemma float_round_pos_mono a b a' b' :
  (Zpos a # b <= Zpos a' # b')%Q -> (float_round_pos a b <= float_round_pos a' b')%Q.
Proof.
  intros H. rewrite !float_round_pos_round_at.
  destruct (log2_floor_spec a b) as [L1 U1].
  destruct (log2_floor_spec a' b') as [L2 U2].
  assert (Hl : (log2_floor a b <= log2_floor a' b')%Z).
  { enough (log2_floor a b < log2_floor a' b' + 1)%Z by lia.
    apply pow2_lt_inv. eapply Qle_lt_trans; [exact L1|].
    eapply Qle_lt_trans; [exact H | exact U2]. }
  unfold float_quantum.
  destruct (Z.eq_dec (Z.max (log2_floor a b - 52) (-1074))
                     (Z.max (log2_floor a' b' - 52) (-1074))) as [E|E].
  - rewrite E. apply round_at_mono, H.
  - apply Qle_trans with (pow2 (log2_floor a' b')).
    + apply round_at_upper; [lia|].
      apply Qle_trans with (pow2 (log2_floor a b + 1)); [apply Qlt_le_weak, U1|].
      apply pow2_le_mono. lia.
    + apply round_at_lower; [lia | exact L2].
Qed.

Lemma float_round_pos_nonneg a b : (0 <= float_round_pos a b)%Q.
Proof. rewrite float_round_pos_round_at. apply round_at_nonneg. discriminate. Qed.

Lemma float_round_proper x y : (x == y)%Q -> float_round x = float_round y.
Proof. intros H. unfold float_round. rewrite (Qred_complete x y H). reflexivity. Qed.

Lemma float_round_nonneg x : (0 <= x)%Q -> (0 <= float_round x)%Q.
Proof.
  intros H. unfold float_round. apply Qred_le in H.
  destruct (Qred x) as [n d]. destruct n as [|a|a]; simpl.
  - apply Qle_refl.
  - apply float_round_pos_nonneg.
  - exfalso. revert H. unfold Qle. simpl. lia.
Qed.

Lemma float_round_mono x y : (0 <= x)%Q -> (x <= y)%Q -> (float_round x <= float_round y)%Q.
Proof.
  intros H0 H.
  assert (Hy : (0 <= float_round y)%Q) by (apply float_round_nonneg; eapply Qle_trans; eassumption).
  revert Hy. unfold float_round. apply Qred_le in H0. apply Qred_le in H.
  destruct (Qred x) as [n d], (Qred y) as [n' d'].
  destruct n as [|a|a]; simpl; intros Hy.
  - exact Hy.
  - destruct n' as [|a'|a']; simpl.
    + exfalso. revert H. unfold Qle. simpl. lia.
    + apply float_round_pos_mono, H.
    + exfalso. revert H. unfold Qle. simpl. lia.
  - exfalso. revert H0. unfold Qle. simpl. lia.
Qed.

Lemma float_mul_proper (x x' y y' : Q) :
  (x == x')%Q -> (y == y')%Q -> float_mul x y = float_mul x' y'.
Proof. intros Hx Hy. apply float_round_proper. now rewrite Hx, Hy. Qed.

Lemma float_mul_0_r (m t : Q) : (t == 0)%Q -> float_mul m t = 0%Q.
Proof.
  intros Ht. unfold float_mul. rewrite (float_round_proper (m * t) 0); [reflexivity|].
  rewrite Ht. ring.
Qed.

Lemma float_mul_1_r (m t : Q) : (t == 1)%Q -> is_float m -> (float_mul m t == m)%Q.
Proof.
  intros Ht Hm. unfold float_mul. rewrite (float_round_proper (m * t) m); [exact Hm|].
  rewrite Ht. ring.
Qed.

(** Rounding keeps the order: the product of a non-negative float with a
    larger factor is not smaller. *)
Lemma float_mul_mono_r (m t t' : Q) :
  (0 <= m)%Q -> (0 <= t)%Q -> (t <= t')%Q -> (float_mul m t <= float_mul m t')%Q.
Proof.
  intros Hm Ht Hle. unfold float_mul. apply float_round_mono.
  - now apply Qmult_le_0_compat.
  - rewrite !(Qmult_comm m). now apply Qmult_le_compat_r.
Qed.

(** The product of a non-negative float with a factor of at most 1 is not
    above that float. *)
Lemma float_mul_le (m t : Q) :
  is_float m -> (0 <= m)%Q -> (0 <= t <= 1)%Q -> (float_mul m t <= m)%Q.
Proof.
  intros Hf Hm [Ht0 Ht1].
  rewrite <- (float_mul_1_r m 1 (Qeq_refl 1) Hf) at 2.
  now apply float_mul_mono_r.
Qed.

(** ** GreedySelector *)

Section GreedyProofs.
Context {num : Type} `{Numeric num}.
Variable pmean : Z -> list num -> num.

(** *** argmax returns a position of its argument *)

Lemma argmax_from_range (xs : list num) (best : num) (besti i : nat) :
  argmax_from best besti i xs = besti \/
  i <= argmax_from best besti i xs < i + length xs.
Proof.
  revert best besti i.
  induction xs as [|x xs IH]; intros best besti i; simpl; [now left|].
  destruct (num_ltb best x).
  - right. destruct (IH x i (S i)) as [-> | Hr]; lia.
  - destruct (IH best besti (S i)) as [-> | Hr]; [now left | right; lia].
Qed.

Lemma argmax_lt (xs : list num) (c : nat) :
  argmax xs = Ok c -> c < length xs.
Proof.
  destruct xs as [|x xs]; simpl; [discriminate|].
  intros [= <-]. destruct (argmax_from_range xs x 0 1) as [-> | Hr]; lia.
Qed.

Lemma argmax_total (xs : list num) :
  0 < length xs -> exists c, argmax xs = Ok c.
Proof. destruct xs; simpl; [lia | eauto]. Qed.

(** *** The dispatch on [p] *)

Lemma objective_valid (p : exponent) :
  valid_exponent p = true <-> exists f, objective pmean p = Ok f.
Proof.
  destruct p as [z|s|]; simpl.
  - split; eauto.
  - destruct (String.eqb s "min"); simpl; [split; eauto|].
    destruct (String.eqb s "max"); simpl; [split; eauto|].
    split; [discriminate | intros [f Hf]; discriminate].
  - split; [discriminate | intros [f Hf]; discriminate].
Qed.

Lemma objective_invalid (p : exponent) :
  valid_exponent p = false -> objective pmean p = Raise InvalidP.
Proof.
  destruct p as [z|s|]; simpl; [discriminate | | reflexivity].
  destruct (String.eqb s "min"); simpl; [discriminate|].
  destruct (String.eqb s "max"); simpl; [discriminate | reflexivity].
Qed.

(** *** One iteration *)

(** What a successful iteration did. *)
Lemma select_step_inv (p : exponent) (st st' : loop_state num) :
  select_step pmean p st = Ok st' ->
  exists f choice g row,
    objective pmean p = Ok f /\
    argmax (f <$> sums_of (counts st) (data st)) = Ok choice /\
    indices st !! choice = Some g /\
    data st !! choice = Some row /\
    st' = {| counts := add_row (counts st) row;
             data := delete choice (data st);
             indices := delete choice (indices st);
             selected := selected st ++ [g] |}.
Proof.
  unfold select_step, row_scores. intros E.
  apply bind_Ok_inv in E as (scores & E1 & E).
  apply bind_Ok_inv in E1 as (f & Hf & E1). injection E1 as <-.
  apply bind_Ok_inv in E as (choice & Hc & E).
  apply bind_Ok_inv in E as (g & Hg & E).
  apply bind_Ok_inv in E as (cs & Hcs & E).
  injection E as <-.
  apply index_Ok in Hg. apply index_Ok in Hcs.
  unfold sums_of in Hcs. rewrite list_lookup_fmap in Hcs.
  destruct (data st !! choice) as [row|] eqn:Hrow; simpl in Hcs; [|discriminate].
  injection Hcs as <-.
  exists f, choice, g, row. repeat split; try assumption.
Qed.

(** An iteration succeeds as long as a candidate is left. *)
Lemma select_step_total (p : exponent) (st : loop_state num) :
  valid_exponent p = true ->
  length (data st) = length (indices st) ->
  0 < length (indices st) ->
  exists st', select_step pmean p st = Ok st'.
Proof.
  intros Hp Hlen Hpos.
  apply objective_valid in Hp as [f Hf].
  unfold select_step, row_scores. rewrite Hf. simpl.
  set (scores := f <$> sums_of (counts st) (data st)).
  assert (Hsl : length scores = length (indices st)).
  { unfold scores, sums_of. now rewrite !length_fmap. }
  destruct (argmax_total scores) as [choice Hc]; [lia|].
  rewrite Hc. simpl. apply argmax_lt in Hc.
  destruct (index_lt (indices st) choice) as [g ->]; [lia|]. simpl.
  destruct (index_lt (sums_of (counts st) (data st)) choice) as [cs ->].
  { unfold sums_of. rewrite length_fmap. lia. }
  simpl. eauto.
Qed.

(** *** The loop invariant: selected and remaining indices partition the
    row indices of the input. *)

Lemma initial_state_inv (d : matrix num) (c : num) :
  loop_inv (nrows d) (initial_state d c).
Proof.
  unfold loop_inv, initial_state, add_pseudocount, nrows. simpl. split.
  - now rewrite length_fmap, length_seq.
  - reflexivity.
Qed.

Lemma select_step_preserves (p : exponent) (n : nat) (st st' : loop_state num) :
  loop_inv n st ->
  select_step pmean p st = Ok st' ->
  loop_inv n st' /\
  length (selected st') = S (length (selected st)) /\
  S (length (indices st')) = length (indices st).
Proof.
  intros [Hlen Hperm] E.
  apply select_step_inv in E as (f & choice & g & row & _ & _ & Hg & Hrow & ->).
  unfold loop_inv. simpl. pose proof (lookup_lt_Some _ _ _ Hg) as Hlt.
  assert (Hd : length (delete choice (indices st)) = length (indices st) - 1).
  { apply length_delete. eauto. }
  assert (Hd' : length (delete choice (data st)) = length (data st) - 1).
  { apply length_delete. eauto. }
  repeat split.
  - lia.
  - rewrite <- Hperm, <- app_assoc. simpl.
    apply Permutation_app_head. symmetry. now apply delete_Permutation.
  - rewrite length_app. simpl. lia.
  - lia.
Qed.

Lemma select_loop_total (p : exponent) (n iters : nat) (st : loop_state num) :
  valid_exponent p = true ->
  loop_inv n st ->
  iters <= length (indices st) ->
  exists st', select_loop pmean p iters st = Ok st' /\
              loop_inv n st' /\
              length (selected st') = length (selected st) + iters.
Proof.
  intros Hp. revert st.
  induction iters as [|iters IH]; intros st Hinv Hle; simpl.
  - exists st. repeat split; [apply Hinv.. | lia].
  - destruct (select_step_total p st Hp) as [st1 Hst1]; [apply Hinv | lia |].
    rewrite Hst1. simpl.
    destruct (select_step_preserves p n st st1 Hinv Hst1) as (Hinv1 & Hs & Hi).
    destruct (IH st1 Hinv1) as (st' & Hrun & Hinv' & Hlen'); [lia|].
    exists st'. repeat split; [assumption | apply Hinv'.. | lia].
Qed.

Lemma loop_inv_selected (n : nat) (st : loop_state num) :
  loop_inv n st ->
  NoDup (selected st) /\ Forall (fun g => g < n) (selected st).
Proof.
  intros [_ Hperm]. split.
  - assert (Hnd : NoDup (selected st ++ indices st)).
    { rewrite Hperm. apply NoDup_seq. }
    now apply NoDup_app in Hnd as (Hnd & _ & _).
  - apply Forall_forall. intros g Hg.
    assert (Hin : g ∈ seq 0 n).
    { rewrite <- Hperm. apply elem_of_app. left. assumption. }
    apply elem_of_seq in Hin. lia.
Qed.

Lemma entry_checks_Ok (d : matrix num) (k : Z) :
  entry_checks d k = Ok tt <->
  0 < nrows d /\ 0 < ncols d /\ all_zero d = false /\ (k < Z.of_nat (nrows d))%Z.
Proof.
  unfold entry_checks.
  destruct (Nat.eqb_spec (nrows d) 0) as [Hn|Hn]; simpl.
  { split; [discriminate | lia]. }
  destruct (Nat.eqb_spec (ncols d) 0) as [Hm|Hm]; simpl.
  { split; [discriminate | lia]. }
  destruct (all_zero d); simpl.
  { split; [discriminate | intros (_ & _ & ? & _); discriminate]. }
  destruct (Z.leb_spec (Z.of_nat (nrows d)) k); simpl.
  { split; [discriminate | lia]. }
  split; [intros _; repeat split; lia | reflexivity].
Qed.

(** C1.  For every matrix with [n > 0] rows and [m > 0] columns that is not
    all zero, every [k] with [1 <= k < n] and every exponent the source
    accepts, [greedy_power_mean_sample_final] returns a sequence of exactly
    [k] row indices, pairwise distinct, each a row index of the input
    matrix. *)
Theorem greedy_returns_k_distinct_rows
    (d : matrix num) (k : Z) (p : exponent) (pseudocount : num) :
  0 < nrows d -> 0 < ncols d -> all_zero d = false ->
  (1 <= k < Z.of_nat (nrows d))%Z ->
  valid_exponent p = true ->
  exists sel,
    greedy_power_mean_sample_final pmean d k p pseudocount = Ok sel /\
    Z.of_nat (length sel) = k /\
    NoDup sel /\
    Forall (fun g => g < nrows d) sel.
Proof.
  intros Hn Hm Hz Hk Hp.
  assert (Hchk : entry_checks d k = Ok tt).
  { apply entry_checks_Ok. repeat split; [assumption.. | lia]. }
  destruct (select_loop_total p (nrows d) (Z.to_nat k) (initial_state d pseudocount) Hp
              (initial_state_inv d pseudocount)) as (st & Hrun & Hinv & Hlen).
  { simpl. rewrite length_seq. lia. }
  exists (selected st). unfold greedy_power_mean_sample_final, greedy_run.
  rewrite Hchk. simpl. rewrite Hrun. simpl.
  destruct (loop_inv_selected _ _ Hinv) as [Hnd Hall].
  repeat split; [| assumption..].
  rewrite Hlen. simpl. lia.
Qed.

(** *** The entry checks *)

Lemma entry_checks_degenerate (d : matrix num) (k : Z) :
  degenerate d k = true <->
  exists e, is_degenerate_error e = true /\ entry_checks d k = Raise e.
Proof.
  unfold degenerate, entry_checks.
  destruct (nrows d =? 0); simpl.
  { split; [intros _; exists EmptyMatrix; now split | reflexivity]. }
  destruct (ncols d =? 0); simpl.
  { split; [intros _; exists EmptyMatrix; now split | reflexivity]. }
  destruct (all_zero d); simpl.
  { split; [intros _; exists OnlyZeros; now split | reflexivity]. }
  destruct (Z.of_nat (nrows d) <=? k)%Z; simpl.
  { split; [intros _; exists (KTooLarge (nrows d)); now split | reflexivity]. }
  split; [discriminate | intros (e & _ & E); discriminate].
Qed.

Lemma entry_checks_cases (d : matrix num) (k : Z) :
  degenerate d k = false <-> entry_checks d k = Ok tt.
Proof.
  unfold degenerate, entry_checks.
  destruct (nrows d =? 0); simpl; [split; discriminate|].
  destruct (ncols d =? 0); simpl; [split; discriminate|].
  destruct (all_zero d); simpl; [split; discriminate|].
  destruct (Z.of_nat (nrows d) <=? k)%Z; simpl; split; (discriminate || reflexivity).
Qed.

(** The loop raises none of the errors of the entry checks. *)
Lemma select_step_error (p : exponent) (st : loop_state num) (e : exn) :
  select_step pmean p st = Raise e -> is_degenerate_error e = false.
Proof.
  unfold select_step, row_scores. intros E.
  apply bind_Raise_inv in E as [E | (scores & _ & E)].
  { apply bind_Raise_inv in E as [E | (f & _ & E)]; [|discriminate].
    destruct p as [z|s|]; simpl in E; [discriminate | | now injection E as <-].
    destruct (String.eqb s "min"); [discriminate|].
    destruct (String.eqb s "max"); [discriminate|]. now injection E as <-. }
  apply bind_Raise_inv in E as [E | (choice & _ & E)].
  { destruct scores; simpl in E; [now injection E as <- | discriminate]. }
  apply bind_Raise_inv in E as [E | (g & _ & E)].
  { now apply index_Raise in E as ->. }
  apply bind_Raise_inv in E as [E | (cs & _ & E)]; [|discriminate].
  now apply index_Raise in E as ->.
Qed.

Lemma select_loop_error (p : exponent) (iters : nat) (st : loop_state num) (e : exn) :
  select_loop pmean p iters st = Raise e -> is_degenerate_error e = false.
Proof.
  revert st. induction iters as [|iters IH]; intros st; simpl; [discriminate|].
  destruct (select_step pmean p st) as [st1|e1] eqn:E1; simpl.
  - apply IH.
  - intros [= <-]. now apply select_step_error in E1.
Qed.
(** C3.  [greedy_power_mean_sample_final] raises one of the errors of its
    entry checks exactly when the input is degenerate: 'Matrix is empty!'
    for zero rows or zero columns, "Matrix only contains 0's" for an
    all-zero matrix, 'k should be smaller than n' for [k >= n]; with an
    exponent the source accepts it raises no other error, so it raises
    exactly when the input is degenerate.  The error is decided by the entry
    checks alone, whatever the exponent and the pseudocount, and no loop
    state (no partial selection) exists when it is raised. *)
Theorem greedy_raises_iff_degenerate
    (d : matrix num) (k : Z) (p : exponent) (pseudocount : num) :
  (nrows d = 0 \/ ncols d = 0 ->
     greedy_power_mean_sample_final pmean d k p pseudocount = Raise EmptyMatrix) /\
  (0 < nrows d -> 0 < ncols d -> all_zero d = true ->
     greedy_power_mean_sample_final pmean d k p pseudocount = Raise OnlyZeros) /\
  (0 < nrows d -> 0 < ncols d -> all_zero d = false -> (Z.of_nat (nrows d) <= k)%Z ->
     greedy_power_mean_sample_final pmean d k p pseudocount
     = Raise (KTooLarge (nrows d))) /\
  (degenerate d k = true <->
     exists e, is_degenerate_error e = true /\
               greedy_power_mean_sample_final pmean d k p pseudocount = Raise e) /\
  (valid_exponent p = true ->
     (degenerate d k = true <->
      exists e, greedy_power_mean_sample_final pmean d k p pseudocount = Raise e)) /\
  (degenerate d k = true ->
     exists e, entry_checks d k = Raise e /\
       forall (p' : exponent) (c' : num),
         greedy_run pmean d k p' c' = Raise e /\
         greedy_power_mean_sample_final pmean d k p' c' = Raise e).
Proof.
  assert (Hdeg : degenerate d k = true ->
            exists e, is_degenerate_error e = true /\ entry_checks d k = Raise e /\
              forall p' c', greedy_run pmean d k p' c' = Raise e /\
                greedy_power_mean_sample_final pmean d k p' c' = Raise e).
  { intros Hd. apply entry_checks_degenerate in Hd as (e & He & Hchk).
    exists e. split; [assumption|]. split; [assumption|]. intros p' c'.
    unfold greedy_power_mean_sample_final, greedy_run. rewrite Hchk. now split. }
  assert (Hnondeg : degenerate d k = false ->
            forall e, greedy_power_mean_sample_final pmean d k p pseudocount = Raise e ->
                      is_degenerate_error e = false).
  { intros Hd e. apply entry_checks_cases in Hd.
    unfold greedy_power_mean_sample_final, greedy_run. rewrite Hd. simpl.
    destruct (select_loop _ _ _ _) as [st|e'] eqn:E; simpl; [discriminate|].
    intros [= <-]. now apply select_loop_error in E. }
  unfold greedy_power_mean_sample_final, greedy_run, entry_checks.
  split; [|split; [|split; [|split; [|split]]]].
  - intros [-> | ->]; simpl; [reflexivity|].
    now rewrite orb_true_r.
  - intros Hn Hm ->.
    destruct (Nat.eqb_spec (nrows d) 0); [lia|].
    destruct (Nat.eqb_spec (ncols d) 0); [lia|]. reflexivity.
  - intros Hn Hm -> Hk.
    destruct (Nat.eqb_spec (nrows d) 0); [lia|].
    destruct (Nat.eqb_spec (ncols d) 0); [lia|]. simpl.
    destruct (Z.leb_spec (Z.of_nat (nrows d)) k); [reflexivity | lia].
  - fold (entry_checks d k). fold (greedy_run pmean d k p pseudocount).
    fold (greedy_power_mean_sample_final pmean d k p pseudocount). split.
    + intros Hd. destruct (Hdeg Hd) as (e & He & _ & Hall).
      exists e. split; [assumption | apply Hall].
    + intros (e & He & E). destruct (degenerate d k) eqn:Hd; [reflexivity|].
      rewrite (Hnondeg eq_refl e E) in He. discriminate.
  - fold (entry_checks d k). fold (greedy_run pmean d k p pseudocount).
    fold (greedy_power_mean_sample_final pmean d k p pseudocount).
    intros Hp. split.
    + intros Hd. destruct (Hdeg Hd) as (e & _ & _ & Hall). exists e. apply Hall.
    + intros (e & E). destruct (degenerate d k) eqn:Hd; [reflexivity|]. exfalso.
      apply entry_checks_cases in Hd. pose proof Hd as Hd'.
      apply entry_checks_Ok in Hd' as (Hn & Hm & Hz & Hk).
      destruct (select_loop_total p (nrows d) (Z.to_nat k) (initial_state d pseudocount) Hp
                  (initial_state_inv d pseudocount)) as (st & Hrun & _).
      { simpl. rewrite length_seq. lia. }
      unfold greedy_power_mean_sample_final, greedy_run in E.
      rewrite Hd in E. simpl in E. rewrite Hrun in E. discriminate.
  - fold (entry_checks d k). intros Hd.
    destruct (Hdeg Hd) as (e & _ & Hchk & Hall). exists e. split; [assumption|].
    intros p' c'. apply Hall.
Qed.

(** C10.  For every matrix that passes the degeneracy checks ([n > 0],
    [m > 0], not all zero) and every [k <= 0], whatever the exponent,
    [greedy_power_mean_sample_final] raises no error and returns the empty
    selection: the [k >= n] check does not fire and the loop body runs zero
    times. *)
Theorem greedy_nonpositive_k_returns_empty
    (d : matrix num) (k : Z) (p : exponent) (pseudocount : num) :
  0 < nrows d -> 0 < ncols d -> all_zero d = false -> (k <= 0)%Z ->
  entry_checks d k = Ok tt /\
  greedy_run pmean d k p pseudocount = Ok (initial_state d pseudocount) /\
  greedy_power_mean_sample_final pmean d k p pseudocount = Ok [].
Proof.
  intros Hn Hm Hz Hk.
  assert (Hchk : entry_checks d k = Ok tt).
  { apply entry_checks_Ok. repeat split; [assumption.. | lia]. }
  unfold greedy_power_mean_sample_final, greedy_run. rewrite Hchk. simpl.
  replace (Z.to_nat k) with 0 by lia. simpl. repeat split.
Qed.
End GreedyProofs.

(** *** The states of the loop *)

Section GreedyIterations.
Context {num : Type} `{Numeric num}.
Variable pmean : Z -> list num -> num.

Lemma increasing_seq (n : nat) : increasing (seq 0 n).
Proof.
  intros i j x y Hij Hx Hy.
  apply lookup_seq in Hx as [-> _]. apply lookup_seq in Hy as [-> _]. lia.
Qed.

Lemma increasing_delete (l : list nat) (c : nat) :
  increasing l -> increasing (delete c l).
Proof.
  intros Hl i j x y Hij Hx Hy. rewrite list_lookup_delete in Hx, Hy.
  apply (Hl _ _ x y) with (2 := Hx) (3 := Hy).
  repeat case_decide; lia.
Qed.

Lemma increasing_lookup_lt (l : list nat) (i j x y : nat) :
  increasing l -> l !! i = Some x -> l !! j = Some y -> x < y -> i < j.
Proof.
  intros Hl Hx Hy Hxy.
  destruct (Nat.lt_trichotomy i j) as [Hlt | [-> | Hgt]]; [assumption | |].
  - rewrite Hx in Hy. injection Hy as ->. lia.
  - specialize (Hl j i y x Hgt Hy Hx). lia.
Qed.

Lemma initial_state_rows_inv (d : matrix num) (c : num) :
  rows_inv d c (initial_state d c).
Proof.
  split; simpl; [|apply increasing_seq].
  apply Forall2_same_length_lookup_2.
  - unfold add_pseudocount, nrows. now rewrite length_seq, length_fmap.
  - intros i g row Hg Hrow. apply lookup_seq in Hg as [-> _]. assumption.
Qed.

Lemma select_step_rows_inv (d : matrix num) (c : num) (p : exponent)
    (st st' : loop_state num) :
  rows_inv d c st -> select_step pmean p st = Ok st' -> rows_inv d c st'.
Proof.
  intros [Hrows Hinc] E.
  apply select_step_inv in E as (f & choice & g & row & _ & _ & _ & _ & ->).
  split; simpl; [now apply Forall2_delete | now apply increasing_delete].
Qed.

(** The loop, unrolled at its last iteration. *)
Lemma select_loop_S (p : exponent) (i : nat) (st0 st' : loop_state num) :
  select_loop pmean p (S i) st0 = Ok st' <->
  exists st, select_loop pmean p i st0 = Ok st /\ select_step pmean p st = Ok st'.
Proof.
  revert st0. induction i as [|i IH]; intros st0.
  - simpl. split.
    + intros E. apply bind_Ok_inv in E as (st1 & E1 & [= ->]). eauto.
    + intros (st & [= <-] & E). now rewrite E.
  - change (select_loop pmean p (S (S i)) st0)
      with (bind (select_step pmean p st0) (select_loop pmean p (S i))).
    split.
    + intros E. apply bind_Ok_inv in E as (st1 & E1 & E).
      apply IH in E as (st & Hst & Hstep). exists st. split; [|assumption].
      simpl. rewrite E1. assumption.
    + intros (st & Hst & Hstep). simpl in Hst.
      apply bind_Ok_inv in Hst as (st1 & E1 & Hst). rewrite E1. simpl.
      apply IH. eauto.
Qed.

Lemma select_loop_invariant (P : loop_state num -> Prop) (p : exponent)
    (i : nat) (st0 st : loop_state num) :
  P st0 ->
  (forall s s', P s -> select_step pmean p s = Ok s' -> P s') ->
  select_loop pmean p i st0 = Ok st -> P st.
Proof.
  intros H0 Hstep. revert st.
  induction i as [|i IH]; intros st E.
  - injection E as <-. assumption.
  - apply select_loop_S in E as (s & Hs & Hss).
    apply (Hstep s st); [now apply IH | assumption].
Qed.

(** *** argmax picks the first position holding the maximum *)

Context `{!NumericOrder num}.

Lemma num_lt_asym (x y : num) : num_lt x y -> ~ num_lt y x.
Proof. intros Hxy Hyx. exact (num_lt_irrefl x (num_lt_trans x y x Hxy Hyx)). Qed.

Lemma argmax_from_spec (xs pre : list num) (best : num) (besti : nat) :
  pre !! besti = Some best ->
  (forall j y, pre !! j = Some y -> ~ num_lt best y) ->
  (forall j y, j < besti -> pre !! j = Some y -> num_lt y best) ->
  exists v,
    (pre ++ xs) !! argmax_from best besti (length pre) xs = Some v /\
    (forall j y, (pre ++ xs) !! j = Some y -> ~ num_lt v y) /\
    (forall j y, j < argmax_from best besti (length pre) xs ->
                 (pre ++ xs) !! j = Some y -> num_lt y v).
Proof.
  revert pre best besti.
  induction xs as [|x xs IH]; intros pre best besti Hbest Hmax Hfirst; simpl.
  - rewrite app_nil_r. eauto.
  - replace (pre ++ x :: xs) with ((pre ++ [x]) ++ xs) by now rewrite <- app_assoc.
    replace (S (length pre)) with (length (pre ++ [x]))
      by (rewrite length_app; simpl; lia).
    destruct (num_ltb best x) eqn:Hlt.
    + apply IH.
      * rewrite lookup_app_r by lia. now rewrite Nat.sub_diag.
      * intros j y Hj. apply lookup_app_Some in Hj as [Hj | [Hge Hj]].
        -- apply num_lt_asym.
           destruct (num_lt_cotrans best y x Hlt) as [Hby | Hyx]; [|assumption].
           exfalso. exact (Hmax j y Hj Hby).
        -- destruct (j - length pre) as [|j'] eqn:Ej; simpl in Hj; [|discriminate].
           injection Hj as <-. apply num_lt_irrefl.
      * intros j y Hj Hy. rewrite lookup_app_l in Hy by assumption.
        destruct (num_lt_cotrans best y x Hlt) as [Hby | Hyx]; [|assumption].
        exfalso. exact (Hmax j y Hy Hby).
    + apply IH.
      * rewrite lookup_app_l; [assumption|]. eapply lookup_lt_Some; eassumption.
      * intros j y Hj. apply lookup_app_Some in Hj as [Hj | [Hge Hj]].
        -- eauto.
        -- destruct (j - length pre) as [|j'] eqn:Ej; simpl in Hj; [|discriminate].
           injection Hj as <-. unfold num_lt. now rewrite Hlt.
      * intros j y Hj Hy. pose proof (lookup_lt_Some _ _ _ Hbest) as Hb.
        rewrite lookup_app_l in Hy by lia. eauto.
Qed.

Lemma argmax_spec (xs : list num) (c : nat) :
  argmax xs = Ok c ->
  exists v, xs !! c = Some v /\
    (forall j y, xs !! j = Some y -> ~ num_lt v y) /\
    (forall j y, j < c -> xs !! j = Some y -> num_lt y v).
Proof.
  destruct xs as [|x xs]; simpl; [discriminate|]. intros [= <-].
  apply (argmax_from_spec xs [x] x 0).
  - reflexivity.
  - intros [|j] y Hj; simpl in Hj; [|discriminate].
    injection Hj as <-. apply num_lt_irrefl.
  - intros j y Hj. lia.
Qed.

(** C2.  In every iteration of the loop of
    [greedy_power_mean_sample_final], the row appended to the selection is a
    remaining candidate whose score is maximal among the remaining
    candidates, and every remaining candidate with a smaller original row
    index has a strictly smaller score: among the candidates that attain
    the maximum, the one with the smallest original row index is selected.
    The remaining candidates are the rows of the input not selected so
    far; the working array keeps them in their original relative order. *)
Theorem greedy_tie_break_smallest_index
    (d : matrix num) (p : exponent) (pseudocount : num) (i : nat)
    (st st' : loop_state num) :
  select_loop pmean p i (initial_state d pseudocount) = Ok st ->
  select_step pmean p st = Ok st' ->
  exists f g,
    objective pmean p = Ok f /\
    selected st' = selected st ++ [g] /\
    g ∈ indices st /\
    increasing (indices st) /\
    (forall g', g' ∈ indices st <-> g' < nrows d /\ g' ∉ selected st) /\
    (forall g', g' ∈ indices st ->
       let score := fun r => f (trial d pseudocount (counts st) r) in
       ~ num_lt (score g) (score g') /\
       (g' < g -> num_lt (score g') (score g)) /\
       (~ num_lt (score g') (score g) -> g <= g')).
Proof.
  intros Hreach Hstep.
  assert (Hinv : loop_inv (nrows d) st /\ rows_inv d pseudocount st).
  { apply (select_loop_invariant
             (fun s => loop_inv (nrows d) s /\ rows_inv d pseudocount s)
             p i (initial_state d pseudocount) st); [| |assumption].
    - split; [apply initial_state_inv | apply initial_state_rows_inv].
    - intros s s' [H1 H2] E. split.
      + now apply (select_step_preserves pmean p (nrows d) s s' H1).
      + now apply (select_step_rows_inv d pseudocount p s s'). }
  destruct Hinv as [[Hlen Hperm] [Hrows Hinc]].
  apply select_step_inv in Hstep as (f & choice & g & row & Hf & Hc & Hg & Hrow & ->).
  exists f, g. simpl.
  assert (Hscore : forall j g' , indices st !! j = Some g' ->
            (f <$> sums_of (counts st) (data st)) !! j
            = Some (f (trial d pseudocount (counts st) g'))).
  { intros j g' Hj.
    destruct (Forall2_lookup_l _ _ _ _ _ Hrows Hj) as (r & Hr & Haug).
    unfold sums_of, trial. rewrite !list_lookup_fmap, Hr, Haug. reflexivity. }
  apply argmax_spec in Hc as (v & Hv & Hmax & Hfirst).
  rewrite (Hscore choice g Hg) in Hv. injection Hv as <-.
  assert (Hmem : forall g', g' ∈ indices st <-> g' < nrows d /\ g' ∉ selected st).
  { intros g'.
    assert (Hnd : NoDup (selected st ++ indices st)) by (rewrite Hperm; apply NoDup_seq).
    apply NoDup_app in Hnd as (_ & Hdisj & _). split.
    - intros Hin. split.
      + assert (Hs : g' ∈ seq 0 (nrows d)).
        { rewrite <- Hperm. apply elem_of_app. now right. }
        apply elem_of_seq in Hs. lia.
      + intros Hsel. exact (Hdisj g' Hsel Hin).
    - intros [Hlt Hnot].
      assert (Hs : g' ∈ selected st ++ indices st).
      { rewrite Hperm. apply elem_of_seq. lia. }
      apply elem_of_app in Hs as [Hs | Hs]; [contradiction | assumption]. }
  split; [assumption|]. split; [reflexivity|].
  split; [eapply list_elem_of_lookup_2; eassumption|].
  split; [assumption|]. split; [exact Hmem|].
  intros g' Hin. cbv zeta.
  set (score := fun r => f (trial d pseudocount (counts st) r)).
  apply list_elem_of_lookup_1 in Hin as [j Hj].
  pose proof (Hscore j g' Hj) as Hjs.
  assert (Hsmaller : g' < g -> num_lt (score g') (score g)).
  { intros Hlt. apply (Hfirst j); [|exact Hjs].
    eapply increasing_lookup_lt; eassumption. }
  split; [exact (Hmax j _ Hjs)|]. split; [exact Hsmaller|].
  intros Hnlt. destruct (Nat.le_gt_cases g g') as [Hle | Hgt]; [assumption|].
  exfalso. apply Hnlt. apply Hsmaller. lia.
Qed.

End GreedyIterations.

(** *** The cumulative counts *)

Section GreedyCounts.
Context {num : Type} `{Numeric num} `{!NumericMonotone num}.
Variable pmean : Z -> list num -> num.

Lemma initial_state_counts_inv (d : matrix num) (c : num) :
  matrix_wf d ->
  Forall (Forall (num_le num_zero)) (mrows d) ->
  num_lt num_zero c ->
  counts_inv d (initial_state d c).
Proof.
  intros Hwf Hnn Hc. split; simpl; [apply length_replicate|].
  unfold add_pseudocount. apply Forall_fmap, Forall_lookup.
  intros i row Hrow. simpl. split.
  - rewrite length_fmap. exact (Forall_lookup_1 _ _ _ _ Hwf Hrow).
  - apply Forall_fmap, Forall_lookup. intros j x Hx. simpl.
    apply num_add_pos_nonneg; [|assumption].
    exact (Forall_lookup_1 _ _ _ _ (Forall_lookup_1 _ _ _ _ Hnn Hrow) Hx).
Qed.

Lemma add_row_nondecreasing (cs row : list num) :
  length cs = length row ->
  Forall (num_le num_zero) row ->
  Forall2 num_le cs (add_row cs row).
Proof.
  intros Hlen Hrow. unfold add_row. apply Forall2_same_length_lookup_2.
  - rewrite length_zip_with. lia.
  - intros j x y Hx Hy. apply lookup_zip_with_Some in Hy as (x' & r & -> & Hx' & Hr).
    rewrite Hx in Hx'. injection Hx' as <-.
    apply num_add_nonneg_le. exact (Forall_lookup_1 _ _ _ _ Hrow Hr).
Qed.

Lemma select_step_counts (d : matrix num) (p : exponent) (st st' : loop_state num) :
  counts_inv d st ->
  select_step pmean p st = Ok st' ->
  counts_inv d st' /\ Forall2 num_le (counts st) (counts st').
Proof.
  intros [Hlen Hdata] E.
  apply select_step_inv in E as (f & choice & g & row & _ & _ & _ & Hrow & ->).
  destruct (Forall_lookup_1 _ _ _ _ Hdata Hrow) as [Hrl Hrn].
  unfold counts_inv. simpl. repeat split.
  - unfold add_row. rewrite length_zip_with. lia.
  - now apply Forall_delete.
  - apply add_row_nondecreasing; [lia | assumption].
Qed.

(** C9.  With a positive pseudocount and non-negative matrix entries, the
    cumulative counts vector is component-wise non-decreasing from one
    iteration of the loop of [greedy_power_mean_sample_final] to the next:
    it has one entry per genome column throughout, and for every column the
    value after selecting a row is at least the value before. *)
Theorem counts_nondecreasing
    (d : matrix num) (p : exponent) (pseudocount : num) (i : nat)
    (st st' : loop_state num) :
  matrix_wf d ->
  Forall (Forall (num_le num_zero)) (mrows d) ->
  num_lt num_zero pseudocount ->
  select_loop pmean p i (initial_state d pseudocount) = Ok st ->
  select_step pmean p st = Ok st' ->
  length (counts st) = ncols d /\
  length (counts st') = ncols d /\
  Forall2 num_le (counts st) (counts st').
Proof.
  intros Hwf Hnn Hc Hreach Hstep.
  assert (Hinv : counts_inv d st).
  { apply (select_loop_invariant pmean (counts_inv d) p i
             (initial_state d pseudocount) st); [| |assumption].
    - now apply initial_state_counts_inv.
    - intros s s' Hs E. now apply (select_step_counts d p s s'). }
  destruct (select_step_counts d p st st' Hinv Hstep) as [[Hlen' _] Hle].
  split; [apply Hinv|]. split; assumption.
Qed.

End GreedyCounts.

(** *** Exact rational entries *)

Lemma Qltb_lt (x y : Q) : Qltb x y = true <-> (x < y)%Q.
Proof.
  unfold Qltb. rewrite Qlt_alt.
  destruct (x ?= y)%Q; split; intros E; (reflexivity || discriminate).
Qed.

Lemma Qltb_ge (x y : Q) : Qltb x y = false <-> (y <= x)%Q.
Proof.
  rewrite <- not_true_iff_false, Qltb_lt. split.
  - apply Qnot_lt_le.
  - apply Qle_not_lt.
Qed.

#[export] Instance Q_numeric_order : NumericOrder Q.
Proof.
  split; unfold num_lt; simpl.
  - intros x Hx. apply Qltb_lt in Hx. exact (Qlt_irrefl x Hx).
  - intros x y z Hxy Hyz. apply Qltb_lt in Hxy, Hyz. apply Qltb_lt.
    exact (Qlt_trans x y z Hxy Hyz).
  - intros x y z Hxz. apply Qltb_lt in Hxz.
    destruct (Qlt_le_dec x y) as [Hxy | Hyx].
    + left. now apply Qltb_lt.
    + right. apply Qltb_lt. exact (Qle_lt_trans y x z Hyx Hxz).
Qed.

#[export] Instance Q_numeric_monotone : NumericMonotone Q.
Proof.
  split; unfold num_le, num_lt; simpl.
  - intros x y Hy. apply Qltb_ge in Hy. apply Qltb_ge.
    rewrite Qred_correct. lra.
  - intros x c Hx Hc. apply Qltb_ge in Hx. apply Qltb_lt in Hc. apply Qltb_ge.
    rewrite Qred_correct. lra.
Qed.

Lemma example_scenario_run (pm : Z -> list Q -> Q) :
  greedy_run pm example_matrix 3 (ExpStr "min") (1 # 10)%Q = Ok example_final_state.
Proof. vm_compute. reflexivity. Qed.

(** C4, as the code behaves.  On the example matrix with [k = 3], [p = 'min']
    and pseudocount 0.1, the all-ones row (index 3) is selected first and
    brings every total to 1.1; rows 0 and 1 follow (the smallest index among
    the tied candidates each time); the final totals are 5.3, 5.3 and 1.3:
    two are at least 4.1, the third is not. *)
Theorem example_scenario_selection (pm : Z -> list Q -> Q) :
  select_loop pm (ExpStr "min") 1 (initial_state example_matrix (1 # 10)%Q)
  = Ok {| counts := [11 # 10; 11 # 10; 11 # 10]%Q;
          data := [[41 # 10; 1 # 10; 1 # 10]; [1 # 10; 41 # 10; 1 # 10];
                   [1 # 10; 1 # 10; 41 # 10]]%Q;
          indices := [0; 1; 2];
          selected := [3] |} /\
  greedy_run pm example_matrix 3 (ExpStr "min") (1 # 10)%Q
  = Ok {| counts := [53 # 10; 53 # 10; 13 # 10]%Q;
          data := [[1 # 10; 1 # 10; 41 # 10]]%Q;
          indices := [2];
          selected := [3; 0; 1] |} /\
  greedy_power_mean_sample_final pm example_matrix 3 (ExpStr "min") (1 # 10)%Q
  = Ok [3; 0; 1] /\
  (41 # 10 <= 53 # 10)%Q /\ (13 # 10 < 41 # 10)%Q.
Proof.
  split; [vm_compute; reflexivity|].
  split; [apply example_scenario_run|].
  split; [unfold greedy_power_mean_sample_final; now rewrite example_scenario_run|].
  split; [discriminate | reflexivity].
Qed.

(** The example scenario as the specification states it fails: the run does
    not end with all per-genome totals at 4.1 or more. *)
Lemma example_scenario_totals_counterexample :
  ~ (exists st,
       greedy_run Qmean_of_powers example_matrix 3 (ExpStr "min") (1 # 10)%Q = Ok st /\
       head (selected st) = Some 3 /\
       Forall (fun total => (41 # 10 <= total)%Q) (counts st)).
Proof.
  intros (st & Hrun & _ & Hall).
  rewrite example_scenario_run in Hrun. injection Hrun as <-. simpl in Hall.
  apply Forall_lookup_1 with (i := 2) (x := (13 # 10)%Q) in Hall; [|reflexivity].
  revert Hall. apply Qlt_not_le. reflexivity.
Qed.

(** ** CoverageFilter *)

Lemma take_rows_Ok (rows : list (list Z)) (markers_index : list nat) :
  Forall (fun i => i < length rows) markers_index ->
  exists rs, take_rows rows markers_index = Ok rs /\
             Forall2 (fun i r => rows !! i = Some r) markers_index rs.
Proof.
  induction markers_index as [|i rest IH]; intros Hall; simpl.
  - exists []. split; [reflexivity | constructor].
  - apply Forall_cons in Hall as [Hi Hrest].
    destruct (IH Hrest) as (rs & -> & Hrs).
    destruct (lookup_lt_is_Some_2 rows i Hi) as [r Hr].
    unfold index. rewrite Hr. simpl. exists (r :: rs). split; [reflexivity|].
    now constructor.
Qed.

Lemma take_rows_error (rows : list (list Z)) (markers_index : list nat) (e : exn) :
  take_rows rows markers_index = Raise e -> e = IndexError.
Proof.
  induction markers_index as [|i rest IH]; simpl; [discriminate|]. intros E.
  apply bind_Raise_inv in E as [E | (r & _ & E)]; [now apply index_Raise in E|].
  apply bind_Raise_inv in E as [E | (rs & _ & E)]; [auto | discriminate].
Qed.

Lemma sum_axis0_lookup (m : nat) (rs : list (list Z)) (j : nat) :
  Forall (fun r => length r = m) rs -> j < m ->
  sum_axis0 m rs !! j = Some (foldr Z.add 0%Z ((fun r => default 0%Z (r !! j)) <$> rs)).
Proof.
  intros Hrs Hj. induction Hrs as [|r rs Hr Hrs IH]; simpl.
  - now apply lookup_replicate_2.
  - change (sum_axis0 m (r :: rs)) with (zip_with Z.add r (sum_axis0 m rs)).
    rewrite lookup_zip_with.
    destruct (lookup_lt_is_Some_2 r j) as [x ->]; [lia|]. simpl.
    rewrite IH. reflexivity.
Qed.

Lemma sum_axis0_length (m : nat) (rs : list (list Z)) :
  Forall (fun r => length r = m) rs -> length (sum_axis0 m rs) = m.
Proof.
  intros Hrs. induction Hrs as [|r rs Hr Hrs IH]; simpl.
  - apply length_replicate.
  - change (sum_axis0 m (r :: rs)) with (zip_with Z.add r (sum_axis0 m rs)).
    rewrite length_zip_with, IH. lia.
Qed.

Lemma taken_rows_column (rows : list (list Z)) (markers_index : list nat)
    (rs : list (list Z)) (j : nat) :
  Forall2 (fun i r => rows !! i = Some r) markers_index rs ->
  (fun r => default 0%Z (r !! j)) <$> rs
  = (fun i => default 0%Z (entry rows i j)) <$> markers_index.
Proof.
  intros Hrs. induction Hrs as [|i r is' rs' Hi Hrs IH]; [reflexivity|].
  rewrite !fmap_cons, IH. unfold entry at 2. now rewrite Hi.
Qed.

Lemma marker_totals_Ok (adj : matrix Z) (markers_index : list nat) :
  matrix_wf adj ->
  Forall (fun i => i < nrows adj) markers_index ->
  exists totals,
    marker_totals adj markers_index = Ok totals /\
    length totals = ncols adj /\
    forall j, j < ncols adj -> totals !! j = Some (column_total adj markers_index j).
Proof.
  intros Hwf Hidx. unfold marker_totals.
  destruct (take_rows_Ok (mrows adj) markers_index Hidx) as (rs & -> & Hrs). simpl.
  assert (Hlen : Forall (fun r => length r = ncols adj) rs).
  { apply Forall_lookup. intros n r Hr.
    destruct (Forall2_lookup_r _ _ _ _ _ Hrs Hr) as (i & _ & Hi).
    exact (Forall_lookup_1 _ _ _ _ Hwf Hi). }
  eexists. split; [reflexivity|]. split; [now apply sum_axis0_length|].
  intros j Hj. rewrite sum_axis0_lookup by assumption.
  unfold column_total. now rewrite (taken_rows_column _ _ _ j Hrs).
Qed.

Lemma mask_index_Ok {A : Type} (xs : list A) (mask : list bool) :
  length xs = length mask -> mask_index xs mask = Ok (select_mask xs mask).
Proof. intros Hlen. unfold mask_index. now rewrite Hlen, Nat.eqb_refl. Qed.

Lemma mask_index_error {A : Type} (xs : list A) (mask : list bool) (e : exn) :
  mask_index xs mask = Raise e -> e = IndexError.
Proof.
  unfold mask_index. destruct (length xs =? length mask); [discriminate|].
  now intros [= <-].
Qed.

Lemma elem_of_select_mask {A : Type} (xs : list A) (mask : list bool) (x : A) :
  x ∈ select_mask xs mask <->
  exists j, xs !! j = Some x /\ mask !! j = Some true.
Proof.
  revert mask. induction xs as [|y xs IH]; intros [|b mask]; simpl.
  - split; [intros Hin; inversion Hin | intros (j & Hj & _); discriminate].
  - split; [intros Hin; inversion Hin | intros (j & Hj & _); discriminate].
  - split; [intros Hin; inversion Hin | intros (j & _ & Hj); discriminate].
  - assert (Hrest : x ∈ select_mask xs mask <->
                    exists j, (y :: xs) !! S j = Some x /\ (b :: mask) !! S j = Some true)
      by apply IH.
    destruct b.
    + rewrite elem_of_cons, Hrest. split.
      * intros [-> | (j & Hj)]; [exists 0; now split | exists (S j); exact Hj].
      * intros ([|j] & Hx & Hm); [left; now injection Hx | right; eauto].
    + rewrite Hrest. split.
      * intros (j & Hj). exists (S j). exact Hj.
      * intros ([|j] & Hx & Hm); [discriminate | eauto].
Qed.

(** The comparison with the threshold is the comparison with its value. *)
Lemma ge_threshold_value (total : Z) (threshold : pynumber) :
  ge_threshold total threshold = Qle_bool (pynumber_value threshold) (inject_Z total).
Proof.
  destruct threshold as [z|q]; simpl; [|reflexivity].
  apply eq_true_iff_eq. rewrite Qle_bool_iff, <- Zle_Qle. apply Z.leb_le.
Qed.

Lemma select_mask_ext {A : Type} (xs : list A) (m1 m2 : list bool) :
  length m1 = length xs -> length m2 = length xs ->
  (forall j, j < length xs -> m1 !! j = m2 !! j) ->
  select_mask xs m1 = select_mask xs m2.
Proof.
  intros H1 H2 Hext. f_equal. apply list_eq. intros j.
  destruct (Nat.lt_ge_cases j (length xs)) as [Hlt | Hge]; [auto|].
  rewrite !lookup_ge_None_2 by lia. reflexivity.
Qed.

(** On well-formed arrays the filter returns the genomes whose total reaches
    the value of the threshold computed by the source. *)
Lemma get_genomes_to_keep_Ok (adj : matrix Z) (k : Z) (markers_index : list nat)
    (min_markers : pynumber) (genomes : list string) :
  matrix_wf adj ->
  Forall (fun i => i < nrows adj) markers_index ->
  length genomes = ncols adj ->
  get_genomes_to_keep adj k markers_index min_markers genomes
  = Ok (genomes_reaching adj markers_index
          (pynumber_value (coverage_threshold min_markers k)) genomes).
Proof.
  intros Hwf Hidx Hlen. unfold get_genomes_to_keep.
  destruct (marker_totals_Ok adj markers_index Hwf Hidx) as (totals & -> & Hl & Htot).
  simpl. rewrite mask_index_Ok by (rewrite length_fmap; lia). f_equal.
  unfold genomes_reaching. apply select_mask_ext.
  - rewrite length_fmap. lia.
  - now rewrite length_fmap, length_seq.
  - intros j Hj. rewrite !list_lookup_fmap, Htot by lia.
    rewrite lookup_seq_lt by lia. simpl. now rewrite ge_threshold_value.
Qed.

Lemma elem_of_genomes_reaching (adj : matrix Z) (markers_index : list nat)
    (tau : Q) (genomes : list string) (g : string) :
  g ∈ genomes_reaching adj markers_index tau genomes <->
  exists j, genomes !! j = Some g /\
            (tau <= inject_Z (column_total adj markers_index j))%Q.
Proof.
  unfold genomes_reaching. rewrite elem_of_select_mask. split.
  - intros (j & Hg & Hm). exists j. split; [assumption|].
    rewrite list_lookup_fmap in Hm.
    rewrite lookup_seq_lt in Hm by (eapply lookup_lt_Some; eassumption).
    simpl in Hm. injection Hm as Hm. now apply Qle_bool_iff.
  - intros (j & Hg & Hle). exists j. split; [assumption|].
    rewrite list_lookup_fmap, lookup_seq_lt by (eapply lookup_lt_Some; eassumption).
    simpl. f_equal. now apply Qle_bool_iff.
Qed.

Lemma coverage_threshold_in_domain (min_markers : pynumber) (k : Z) :
  fraction_or_count min_markers = true ->
  pynumber_value (coverage_threshold min_markers k) = spec_tau min_markers k.
Proof.
  destruct min_markers as [z|q]; simpl; [reflexivity|]. now intros ->.
Qed.

(** C5.  [get_genomes_to_keep] returns exactly the genomes whose per-genome
    sum of the selected rows' raw matrix values is at least [tau], in the
    order of the genome array, where [tau = min_markers * k], the product
    of floats, when [min_markers] is a fraction in [0, 1] and
    [tau = min_markers] when it is an integer count; with per-genome totals
    [5, 3, 1], [k = 3] and [min_markers = 0.5] it retains exactly the
    genomes with totals 5 and 3. *)
Theorem get_genomes_to_keep_spec (adj : matrix Z) (k : Z) (markers_index : list nat)
    (min_markers : pynumber) (genomes : list string) :
  matrix_wf adj ->
  Forall (fun i => i < nrows adj) markers_index ->
  length genomes = ncols adj ->
  fraction_or_count min_markers = true ->
  (exists kept,
     get_genomes_to_keep adj k markers_index min_markers genomes = Ok kept /\
     kept = genomes_reaching adj markers_index (spec_tau min_markers k) genomes /\
     forall g, g ∈ kept <->
       exists j, genomes !! j = Some g /\
         (spec_tau min_markers k <= inject_Z (column_total adj markers_index j))%Q) /\
  (forall g1 g2 g3 : string,
     marker_totals adj markers_index = Ok [5; 3; 1]%Z ->
     get_genomes_to_keep adj 3 markers_index (PyFloat (1 # 2)) [g1; g2; g3]
     = Ok [g1; g2]).
Proof.
  intros Hwf Hidx Hlen Hdom. split.
  - eexists. split; [now apply get_genomes_to_keep_Ok|].
    rewrite coverage_threshold_in_domain by assumption.
    split; [reflexivity|]. intros g. apply elem_of_genomes_reaching.
  - intros g1 g2 g3 Htot. unfold get_genomes_to_keep. rewrite Htot. reflexivity.
Qed.

Lemma get_genomes_to_keep_error (adj : matrix Z) (k : Z) (markers_index : list nat)
    (min_markers : pynumber) (genomes : list string) (e : exn) :
  get_genomes_to_keep adj k markers_index min_markers genomes = Raise e ->
  e = IndexError.
Proof.
  unfold get_genomes_to_keep, marker_totals. intros E.
  apply bind_Raise_inv in E as [E | (totals & _ & E)].
  - apply bind_Raise_inv in E as [E | (rs & _ & E)]; [|discriminate].
    now apply take_rows_error in E.
  - now apply mask_index_error in E.
Qed.

(** C6, as the code behaves.  [get_genomes_to_keep] never raises an
    invalid-parameter error.  A [min_markers] that is negative, or a float
    greater than 1, is used unchanged as the absolute threshold [tau]: on
    well-formed arrays the call returns the genomes whose total is at least
    [min_markers]; the only error the function can raise is the index error
    of the array indexing. *)
Theorem get_genomes_to_keep_out_of_domain (adj : matrix Z) (k : Z)
    (markers_index : list nat) (min_markers : pynumber) (genomes : list string) :
  min_markers_in_domain min_markers = false ->
  coverage_threshold min_markers k = min_markers /\
  (forall e, get_genomes_to_keep adj k markers_index min_markers genomes = Raise e ->
             e = IndexError) /\
  (matrix_wf adj -> Forall (fun i => i < nrows adj) markers_index ->
   length genomes = ncols adj ->
   exists kept,
     get_genomes_to_keep adj k markers_index min_markers genomes = Ok kept /\
     forall g, g ∈ kept <->
       exists j, genomes !! j = Some g /\
         (pynumber_value min_markers <= inject_Z (column_total adj markers_index j))%Q).
Proof.
  intros Hdom.
  assert (Hthr : coverage_threshold min_markers k = min_markers).
  { destruct min_markers as [z|q]; simpl in *; [reflexivity | now rewrite Hdom]. }
  split; [assumption|]. split; [apply get_genomes_to_keep_error|].
  intros Hwf Hidx Hlen. eexists. split; [now apply get_genomes_to_keep_Ok|].
  rewrite Hthr. intros g. apply elem_of_genomes_reaching.
Qed.

(** ** CopyFilter *)

Lemma group_max_lookup (df : list annotation) (key : string * string) :
  match group_max df !! key with
  | None => forall r, r ∈ df -> group_key r <> key
  | Some m =>
      (exists r, r ∈ df /\ group_key r = key /\ bit_score r = m) /\
      (forall r, r ∈ df -> group_key r = key -> (bit_score r <= m)%Q)
  end.
Proof.
  induction df as [|x df IH] using rev_ind.
  - unfold group_max. simpl. rewrite lookup_empty. intros r Hin. inversion Hin.
  - unfold group_max. rewrite foldl_snoc. fold (group_max df). unfold group_max_step.
    destruct (decide (group_key x = key)) as [Hk | Hk].
    + rewrite Hk, lookup_insert_eq.
      destruct (group_max df !! key) as [s|] eqn:E.
      * destruct IH as [(r0 & Hr0 & Hk0 & Hs0) Hle]. unfold Qmax_b.
        destruct (Qle_bool s (bit_score x)) eqn:Hcmp.
        -- apply Qle_bool_iff in Hcmp. split.
           ++ exists x. split; [apply elem_of_app; right; apply list_elem_of_singleton; reflexivity|].
              now split.
           ++ intros r Hr Hkr. apply elem_of_app in Hr as [Hr | Hr].
              ** exact (Qle_trans _ _ _ (Hle r Hr Hkr) Hcmp).
              ** apply list_elem_of_singleton in Hr as ->. apply Qle_refl.
        -- assert (Hlt : (bit_score x < s)%Q).
           { apply Qnot_le_lt. intros Hc. apply Qle_bool_iff in Hc. congruence. }
           split.
           ++ exists r0. split; [apply elem_of_app; now left | now split].
           ++ intros r Hr Hkr. apply elem_of_app in Hr as [Hr | Hr]; [auto|].
              apply list_elem_of_singleton in Hr as ->. now apply Qlt_le_weak.
      * split.
        -- exists x. split; [apply elem_of_app; right; apply list_elem_of_singleton; reflexivity|].
           now split.
        -- intros r Hr Hkr. apply elem_of_app in Hr as [Hr | Hr].
           ++ exfalso. exact (IH r Hr Hkr).
           ++ apply list_elem_of_singleton in Hr as ->. apply Qle_refl.
    + rewrite lookup_insert_ne by assumption.
      destruct (group_max df !! key) as [s|] eqn:E.
      * destruct IH as [(r0 & Hr0 & Hk0 & Hs0) Hle]. split.
        -- exists r0. split; [apply elem_of_app; now left | now split].
        -- intros r Hr Hkr. apply elem_of_app in Hr as [Hr | Hr]; [auto|].
           apply list_elem_of_singleton in Hr as ->. contradiction.
      * intros r Hr. apply elem_of_app in Hr as [Hr | Hr]; [auto|].
        now apply list_elem_of_singleton in Hr as ->.
Qed.

Lemma row_max_score_is_group_max (df : list annotation) (r : annotation) :
  r ∈ df -> is_group_max df r (row_max_score df r).
Proof.
  intros Hr. unfold row_max_score, is_group_max.
  pose proof (group_max_lookup df (group_key r)) as Hl.
  destruct (group_max df !! group_key r) as [m|]; simpl.
  - exact Hl.
  - exfalso. exact (Hl r Hr eq_refl).
Qed.

Lemma is_group_max_unique (df : list annotation) (r : annotation) (m1 m2 : Q) :
  is_group_max df r m1 -> is_group_max df r m2 -> (m1 == m2)%Q.
Proof.
  intros [(r1 & Hr1 & Hk1 & <-) Hle1] [(r2 & Hr2 & Hk2 & <-) Hle2].
  apply Qle_antisym; auto.
Qed.

Lemma select_mask_zip_with {A B : Type} (f : A -> B -> bool) (g : A -> B) (xs : list A) :
  select_mask xs (zip_with f xs (g <$> xs)) = List.filter (fun x => f x (g x)) xs.
Proof.
  induction xs as [|x xs IH]; [reflexivity|].
  rewrite fmap_cons. simpl. now rewrite IH.
Qed.

Lemma threshold_check (t : Q) :
  Qle_bool 0 t && Qle_bool t 1 = true <-> (0 <= t <= 1)%Q.
Proof. now rewrite andb_true_iff, !Qle_bool_iff. Qed.

Lemma filter_copies_Ok (df : list annotation) (t : Q) :
  (0 <= t <= 1)%Q ->
  filter_copies df t
  = Ok (List.filter (fun r => Qle_bool (float_mul (row_max_score df r) t) (bit_score r)) df).
Proof.
  intros Ht. apply threshold_check in Ht. unfold filter_copies. rewrite Ht. simpl.
  unfold transform_max. rewrite mask_index_Ok.
  - f_equal.
    exact (select_mask_zip_with (fun r mx => Qle_bool (float_mul mx t) (bit_score r))
             (row_max_score df) df).
  - rewrite length_zip_with, length_fmap. lia.
Qed.

Lemma filter_all {A : Type} (f : A -> bool) (xs : list A) :
  (forall x, x ∈ xs -> f x = true) -> List.filter f xs = xs.
Proof.
  induction xs as [|x xs IH]; intros Hall; [reflexivity|]. simpl.
  rewrite (Hall x) by apply list_elem_of_here. f_equal. apply IH.
  intros y Hy. apply Hall. now apply list_elem_of_further.
Qed.

(** C7.  [filter_copies] raises (the error of its threshold check) exactly
    when the threshold [t] is outside [0, 1]; for [t] in [0, 1] it returns,
    in their order, exactly the records whose score is at least [t] times
    the maximum score of their (genome, gene family) group, the product
    being the product of floats.  Hence [t = 0] retains the records whose
    score is at least 0, that is all records, scores being non-negative by
    the annotation contract; [t = 1] retains all and only the records tied
    with the maximum of their group, the scores being floats, and on a
    group scoring 10, 10, 7 the threshold 1 retains the two records scoring
    10, the threshold 0 all three. *)
Theorem filter_copies_spec (df : list annotation) (t : Q) :
  ((exists e, filter_copies df t = Raise e) <-> ~ (0 <= t <= 1)%Q) /\
  (forall e, filter_copies df t = Raise e -> e = InvalidThreshold) /\
  ((0 <= t <= 1)%Q ->
     exists kept gmax,
       filter_copies df t = Ok kept /\
       (forall r, r ∈ df -> is_group_max df r (gmax r)) /\
       kept = List.filter (fun r => Qle_bool (float_mul (gmax r) t) (bit_score r)) df /\
       (forall r, r ∈ kept <-> r ∈ df /\ (float_mul (gmax r) t <= bit_score r)%Q)) /\
  ((t == 0)%Q ->
     (exists kept,
        filter_copies df t = Ok kept /\
        forall r, r ∈ kept <-> r ∈ df /\ (0 <= bit_score r)%Q) /\
     ((forall r, r ∈ df -> (0 <= bit_score r)%Q) -> filter_copies df t = Ok df)) /\
  ((t == 1)%Q ->
     (forall r, r ∈ df -> is_float (bit_score r)) ->
     exists kept,
       filter_copies df t = Ok kept /\
       forall r, r ∈ kept <->
         r ∈ df /\ forall m, is_group_max df r m -> (bit_score r == m)%Q) /\
  (filter_copies example_group 1 = Ok (take 2 example_group) /\
   filter_copies example_group 0 = Ok example_group).
Proof.
  assert (Hmem : forall r,
            r ∈ List.filter
                  (fun r => Qle_bool (float_mul (row_max_score df r) t) (bit_score r)) df
            <-> r ∈ df /\ (float_mul (row_max_score df r) t <= bit_score r)%Q).
  { intros r.
    now rewrite list_elem_of_In, List.filter_In, <- list_elem_of_In, Qle_bool_iff. }
  split; [|split; [|split; [|split; [|split]]]].
  - split.
    + intros [e E] Ht. rewrite (filter_copies_Ok df t Ht) in E. discriminate.
    + intros Ht. exists InvalidThreshold. unfold filter_copies.
      destruct (Qle_bool 0 t && Qle_bool t 1) eqn:Hc; [|reflexivity].
      apply threshold_check in Hc. contradiction.
  - intros e. unfold filter_copies.
    destruct (Qle_bool 0 t && Qle_bool t 1) eqn:Hc; simpl; [|now intros [= <-]].
    apply threshold_check in Hc. fold (filter_copies df t).
    assert (E := filter_copies_Ok df t Hc). unfold filter_copies in E.
    apply threshold_check in Hc. rewrite Hc in E. simpl in E. rewrite E. discriminate.
  - intros Ht. eexists. exists (row_max_score df).
    split; [now apply filter_copies_Ok|].
    split; [apply row_max_score_is_group_max|]. split; [reflexivity | exact Hmem].
  - intros Ht.
    assert (Hin : (0 <= t <= 1)%Q) by (rewrite Ht; split; [apply Qle_refl | discriminate]).
    split.
    + eexists. split; [now apply filter_copies_Ok|].
      intros r. rewrite Hmem. now rewrite (float_mul_0_r (row_max_score df r) t Ht).
    + intros Hnn. rewrite filter_copies_Ok by assumption.
      f_equal. apply filter_all. intros r Hr. apply Qle_bool_iff.
      rewrite (float_mul_0_r (row_max_score df r) t Ht). now apply Hnn.
  - intros Ht Hfl. eexists.
    split; [apply filter_copies_Ok; rewrite Ht; split; [discriminate | apply Qle_refl]|].
    assert (Hone : forall r, r ∈ df ->
              (float_mul (row_max_score df r) t == row_max_score df r)%Q).
    { intros r Hr. apply float_mul_1_r; [exact Ht|].
      destruct (row_max_score_is_group_max df r Hr) as [(r' & Hr' & _ & Hs) _].
      rewrite <- Hs. now apply Hfl. }
    intros r. rewrite Hmem. split.
    + intros [Hr Hle]. split; [assumption|]. intros m Hm.
      pose proof (row_max_score_is_group_max df r Hr) as Hrm.
      rewrite <- (is_group_max_unique df r _ _ Hrm Hm).
      rewrite (Hone r Hr) in Hle. apply Qle_antisym; [|assumption].
      destruct Hrm as [_ Hmax]. now apply Hmax.
    + intros [Hr Heq]. split; [assumption|].
      rewrite (Hone r Hr).
      rewrite (Heq _ (row_max_score_is_group_max df r Hr)). apply Qle_refl.
  - split; vm_compute; reflexivity.
Qed.

(** ** MatrixBuilder *)

Lemma label_lt_irrefl (x : string) : ~ label_lt x x.
Proof. apply (StrictOrder_Irreflexive (R := label_lt)). Qed.

Lemma label_lt_trans (x y z : string) : label_lt x y -> label_lt y z -> label_lt x z.
Proof. apply (StrictOrder_Transitive (R := label_lt)). Qed.

(** *** [np.unique] *)

Lemma elem_of_insert_label (x y : string) (l : list string) :
  y ∈ insert_label x l <-> y = x \/ y ∈ l.
Proof.
  induction l as [|a l IH]; simpl.
  - rewrite list_elem_of_singleton. split; [now left | intros [E | E]; [assumption | inversion E]].
  - destruct (String_as_OT.compare_spec x a) as [-> | Hlt | Hgt].
    + rewrite elem_of_cons. split; [now right | intros [-> | E]; [now left | assumption]].
    + now rewrite elem_of_cons.
    + rewrite !elem_of_cons, IH. tauto.
Qed.

Lemma insert_label_sorted (x : string) (l : list string) :
  StronglySorted label_lt l -> StronglySorted label_lt (insert_label x l).
Proof.
  induction 1 as [|a l Hs IH Hall]; simpl.
  - repeat constructor.
  - destruct (String_as_OT.compare_spec x a) as [-> | Hlt | Hgt].
    + now constructor.
    + constructor; [now constructor|]. constructor; [assumption|].
      apply Forall_forall. intros y Hy. rewrite Forall_forall in Hall.
      apply (label_lt_trans x a y Hlt). apply Hall. assumption.
    + constructor; [assumption|]. apply Forall_forall. intros y Hy.
      apply elem_of_insert_label in Hy as [-> | Hy]; [assumption|].
      rewrite Forall_forall in Hall. now apply Hall.
Qed.

Lemma np_unique_sorted (xs : list string) : StronglySorted label_lt (np_unique xs).
Proof.
  induction xs as [|x xs IH]; simpl; [constructor | now apply insert_label_sorted].
Qed.

Lemma elem_of_np_unique (xs : list string) (y : string) :
  y ∈ np_unique xs <-> y ∈ xs.
Proof.
  induction xs as [|x xs IH]; simpl; [reflexivity|].
  now rewrite elem_of_insert_label, elem_of_cons, IH.
Qed.

Lemma sorted_labels_NoDup (l : list string) : StronglySorted label_lt l -> NoDup l.
Proof.
  induction 1 as [|a l Hs IH Hall]; constructor; [|assumption].
  intros Hin. rewrite Forall_forall in Hall.
  exact (label_lt_irrefl a (Hall a Hin)).
Qed.

(** *** [return_inverse] *)

Lemma label_index_lookup (x : string) (labels : list string) :
  x ∈ labels -> labels !! label_index x labels = Some x.
Proof.
  induction labels as [|y labels IH]; intros Hin; [inversion Hin|]. simpl.
  destruct (String.eqb_spec x y) as [-> | Hne]; [reflexivity|]. simpl.
  apply IH. apply elem_of_cons in Hin as [E | Hin]; [contradiction | assumption].
Qed.

Lemma label_index_of_lookup (labels : list string) (i : nat) (x : string) :
  NoDup labels -> labels !! i = Some x -> label_index x labels = i.
Proof.
  intros Hnd Hi.
  assert (Hin : x ∈ labels) by (eapply list_elem_of_lookup_2; eassumption).
  exact (NoDup_lookup labels _ i x Hnd (label_index_lookup x labels Hin) Hi).
Qed.

(** *** [np.bincount] *)

Lemma bincount_fold_lookup (xs : list nat) (out : list Z) (v : nat) :
  foldl (fun out x => alter Z.succ x out) out xs !! v
  = (fun c => (c + Z.of_nat (occurrences v xs))%Z) <$> out !! v.
Proof.
  revert out. induction xs as [|x xs IH]; intros out; simpl.
  - unfold occurrences. simpl. destruct (out !! v); simpl; [|reflexivity].
    f_equal. lia.
  - rewrite IH. unfold occurrences. destruct (decide (x = v)) as [-> | Hne].
    + rewrite list_lookup_alter_eq, filter_cons_True by reflexivity.
      destruct (out !! v); simpl; [|reflexivity]. f_equal. lia.
    + rewrite list_lookup_alter_ne, filter_cons_False by assumption. reflexivity.
Qed.

Lemma bincount_fold_length (xs : list nat) (out : list Z) :
  length (foldl (fun out x => alter Z.succ x out) out xs) = length out.
Proof.
  revert out. induction xs as [|x xs IH]; intros out; simpl; [reflexivity|].
  now rewrite IH, length_alter.
Qed.

Lemma bincount_size (xs : list nat) (minlength : nat) :
  Forall (fun x => x < minlength) xs ->
  Nat.max minlength (match xs with [] => 0 | _ => S (max_list xs) end) = minlength.
Proof.
  intros Hall. destruct xs as [|x xs]; [lia|].
  assert (Hin : max_list (x :: xs) ∈ x :: xs) by now apply max_list_elem_of.
  rewrite Forall_forall in Hall. specialize (Hall _ Hin). lia.
Qed.

Lemma bincount_spec (xs : list nat) (minlength : nat) :
  Forall (fun x => x < minlength) xs ->
  length (bincount xs minlength) = minlength /\
  forall v, v < minlength ->
    bincount xs minlength !! v = Some (Z.of_nat (occurrences v xs)).
Proof.
  intros Hall. unfold bincount. rewrite (bincount_size xs minlength Hall). split.
  - now rewrite bincount_fold_length, length_replicate.
  - intros v Hv. rewrite bincount_fold_lookup, lookup_replicate_2 by assumption.
    reflexivity.
Qed.

(** *** [reshape] *)

Lemma chunks_length (n m : nat) (flat : list Z) : length (chunks n m flat) = n.
Proof. revert flat. induction n as [|n IH]; intros flat; simpl; [reflexivity | now rewrite IH]. Qed.

Lemma chunks_lookup (n m : nat) (flat : list Z) (i : nat) :
  i < n -> chunks n m flat !! i = Some (take m (drop (i * m) flat)).
Proof.
  revert flat i. induction n as [|n IH]; intros flat i Hi; [lia|].
  destruct i as [|i]; simpl; [reflexivity|].
  rewrite IH by lia. now rewrite drop_drop.
Qed.

Lemma chunks_entry (n m : nat) (flat : list Z) (i j : nat) :
  i < n -> j < m -> entry (chunks n m flat) i j = flat !! (i * m + j).
Proof.
  intros Hi Hj. unfold entry. rewrite chunks_lookup by assumption.
  now rewrite lookup_take_lt, lookup_drop by assumption.
Qed.

Lemma chunks_wf (n m : nat) (flat : list Z) :
  length flat = n * m -> Forall (fun r => length r = m) (chunks n m flat).
Proof.
  intros Hlen. apply Forall_lookup. intros i r Hr.
  assert (Hi : i < n).
  { rewrite <- (chunks_length n m flat). eapply lookup_lt_Some; eassumption. }
  rewrite chunks_lookup in Hr by assumption. injection Hr as <-.
  rewrite length_take, length_drop.
  assert (i * m + m <= n * m) by nia. lia.
Qed.

(** *** Counting the edges *)

Lemma flat_index_inj (m i j i' j' : nat) :
  j < m -> j' < m -> i * m + j = i' * m + j' -> i = i' /\ j = j'.
Proof.
  intros Hj Hj' E.
  assert (Hi : i = i').
  { destruct (Nat.lt_trichotomy i i') as [Hlt | [Heq | Hgt]]; [exfalso | assumption | exfalso].
    - assert (i * m + m <= i' * m) by nia. lia.
    - assert (i' * m + m <= i * m) by nia. lia. }
  subst i'. split; [reflexivity | lia].
Qed.

Lemma occurrences_fmap {A : Type} (f : A -> nat) (P : A -> Prop)
    `{!forall a, Decision (P a)} (v : nat) (l : list A) :
  (forall a, a ∈ l -> f a = v <-> P a) ->
  occurrences v (f <$> l) = length (filter P l).
Proof.
  unfold occurrences. induction l as [|a l IH]; intros Hiff; [reflexivity|].
  rewrite fmap_cons.
  assert (Ha : f a = v <-> P a) by (apply Hiff, list_elem_of_here).
  assert (IH' : length (filter (fun x => x = v) (f <$> l)) = length (filter P l)).
  { apply IH. intros b Hb. apply Hiff. now apply list_elem_of_further. }
  destruct (decide (P a)) as [HP | HP].
  - rewrite (filter_cons_True (fun x => x = v)) by now apply Ha.
    rewrite (filter_cons_True P) by assumption. simpl. now rewrite IH'.
  - rewrite (filter_cons_False (fun x => x = v)) by (intros E; now apply HP, Ha).
    rewrite (filter_cons_False P) by assumption. assumption.
Qed.

(** C8.  For every edge list (the gene-family labels and the genome labels
    of its positions), [build_copy_number_matrix] returns gene labels and
    genome labels that are the sorted distinct values of the input, and a
    matrix with one row per gene label and one column per genome label whose
    entry [(i, j)] is the number of positions of the edge list carrying the
    pair [(gene_labels[i], genome_labels[j])]; the empty edge list gives the
    0-by-0 matrix and empty label arrays. *)
Theorem build_copy_number_matrix_spec (edges_genes edges_genomes : list string) :
  length edges_genes = length edges_genomes ->
  (exists adj genomes genes,
     build_copy_number_matrix edges_genes edges_genomes = Ok (adj, genomes, genes) /\
     StronglySorted label_lt genes /\
     (forall x, x ∈ genes <-> x ∈ edges_genes) /\
     StronglySorted label_lt genomes /\
     (forall x, x ∈ genomes <-> x ∈ edges_genomes) /\
     matrix_wf adj /\
     nrows adj = length genes /\
     ncols adj = length genomes /\
     forall i j g s,
       genes !! i = Some g -> genomes !! j = Some s ->
       entry (mrows adj) i j
       = Some (Z.of_nat (edge_count g s (zip edges_genes edges_genomes)))) /\
  build_copy_number_matrix [] [] = Ok ({| ncols := 0; mrows := [] |}, [], []).
Proof.
  intros Hlen. split; [|reflexivity].
  unfold build_copy_number_matrix.
  set (genes := np_unique edges_genes). set (genomes := np_unique edges_genomes).
  set (n := length genes). set (m := length genomes).
  pose proof (np_unique_sorted edges_genes) as Hsg.
  pose proof (np_unique_sorted edges_genomes) as Hss.
  pose proof (sorted_labels_NoDup _ Hsg) as Hndg.
  pose proof (sorted_labels_NoDup _ Hss) as Hnds.
  fold genes in Hsg, Hndg. fold genomes in Hss, Hnds.
  set (code := fun e : string * string =>
                 label_index e.1 genes * m + label_index e.2 genomes).
  assert (Hflat : flat_indices (unique_inverse edges_genes) m (unique_inverse edges_genomes)
                  = Ok (code <$> zip edges_genes edges_genomes)).
  { unfold flat_indices, unique_inverse. rewrite !length_fmap, Hlen, Nat.eqb_refl.
    f_equal. fold genes genomes.
    rewrite zip_with_fmap_l, zip_with_fmap_r, zip_with_zip.
    apply list_fmap_ext. now intros k [g s] _. }
  rewrite Hflat. simpl.
  assert (Hidx : forall g s, (g, s) ∈ zip edges_genes edges_genomes ->
            label_index g genes < n /\ label_index s genomes < m /\
            genes !! label_index g genes = Some g /\
            genomes !! label_index s genomes = Some s).
  { intros g s Hin.
    assert (Hg : genes !! label_index g genes = Some g).
    { apply label_index_lookup, elem_of_np_unique. eapply elem_of_zip_l; eassumption. }
    assert (Hs : genomes !! label_index s genomes = Some s).
    { apply label_index_lookup, elem_of_np_unique. eapply elem_of_zip_r; eassumption. }
    repeat split; try assumption; eapply lookup_lt_Some; eassumption. }
  assert (Hbound : Forall (fun x => x < n * m) (code <$> zip edges_genes edges_genomes)).
  { apply Forall_fmap, Forall_forall. intros [g s] Hin. simpl.
    destruct (Hidx g s Hin) as (Hg & Hs & _). unfold code. simpl. nia. }
  destruct (bincount_spec _ _ Hbound) as [Hblen Hbcount].
  unfold reshape. fold n m. rewrite Hblen, Nat.eqb_refl. simpl.
  eexists _, genomes, genes. split; [reflexivity|].
  split; [assumption|]. split; [apply elem_of_np_unique|].
  split; [assumption|]. split; [apply elem_of_np_unique|].
  split; [now apply chunks_wf|]. split; [apply chunks_length|]. split; [reflexivity|].
  intros i j g s Hg Hs. simpl.
  pose proof (lookup_lt_Some _ _ _ Hg) as Hi. pose proof (lookup_lt_Some _ _ _ Hs) as Hj.
  fold n in Hi. fold m in Hj.
  rewrite chunks_entry by assumption. rewrite Hbcount by nia.
  f_equal. f_equal. unfold edge_count. apply occurrences_fmap.
  intros [g' s'] Hin. destruct (Hidx g' s' Hin) as (Hg'n & Hs'm & Hg' & Hs').
  unfold code. simpl. split.
  - intros E. apply flat_index_inj in E as [Ei Ej]; [|assumption..].
    rewrite Ei, Hg in Hg'. rewrite Ej, Hs in Hs'. congruence.
  - intros [= -> ->].
    now rewrite (label_index_of_lookup genes i g Hndg Hg),
                (label_index_of_lookup genomes j s Hnds Hs).
Qed.

(** ** The theorems at the examples of the specification *)

Lemma greedy_returns_k_distinct_rows_witness :
  exists sel,
    greedy_power_mean_sample_final Qmean_of_powers example_matrix 3 (ExpStr "min")
      (1 # 10)%Q = Ok sel /\
    Z.of_nat (length sel) = 3%Z /\
    NoDup sel /\
    Forall (fun g => g < nrows example_matrix) sel.
Proof.
  apply (greedy_returns_k_distinct_rows Qmean_of_powers example_matrix 3
           (ExpStr "min") (1 # 10)%Q).
  - vm_compute. lia.
  - vm_compute. lia.
  - reflexivity.
  - vm_compute. split; [discriminate | reflexivity].
  - reflexivity.
Defined.

Lemma greedy_tie_break_smallest_index_witness :
  select_loop Qmean_of_powers (ExpStr "min") 1 (initial_state example_matrix (1 # 10)%Q)
  = Ok example_state_1 /\
  select_step Qmean_of_powers (ExpStr "min") example_state_1 = Ok example_state_2 /\
  exists f g,
    objective Qmean_of_powers (ExpStr "min") = Ok f /\
    selected example_state_2 = selected example_state_1 ++ [g] /\
    g ∈ indices example_state_1 /\
    increasing (indices example_state_1) /\
    (forall g', g' ∈ indices example_state_1 <->
                g' < nrows example_matrix /\ g' ∉ selected example_state_1) /\
    (forall g', g' ∈ indices example_state_1 ->
       let score := fun r => f (trial example_matrix (1 # 10)%Q (counts example_state_1) r) in
       ~ num_lt (score g) (score g') /\
       (g' < g -> num_lt (score g') (score g)) /\
       (~ num_lt (score g') (score g) -> g <= g')).
Proof.
  assert (H1 : select_loop Qmean_of_powers (ExpStr "min") 1
                 (initial_state example_matrix (1 # 10)%Q) = Ok example_state_1)
    by (vm_compute; reflexivity).
  assert (H2 : select_step Qmean_of_powers (ExpStr "min") example_state_1
               = Ok example_state_2)
    by (vm_compute; reflexivity).
  split; [exact H1|]. split; [exact H2|].
  exact (greedy_tie_break_smallest_index Qmean_of_powers example_matrix (ExpStr "min")
           (1 # 10)%Q 1 example_state_1 example_state_2 H1 H2).
Defined.

Lemma counts_nondecreasing_witness :
  length (counts example_state_1) = ncols example_matrix /\
  length (counts example_state_2) = ncols example_matrix /\
  Forall2 num_le (counts example_state_1) (counts example_state_2).
Proof.
  apply (counts_nondecreasing Qmean_of_powers example_matrix (ExpStr "min")
           (1 # 10)%Q 1 example_state_1 example_state_2).
  - repeat constructor.
  - repeat constructor.
  - reflexivity.
  - vm_compute. reflexivity.
  - vm_compute. reflexivity.
Defined.

Lemma greedy_nonpositive_k_returns_empty_witness :
  entry_checks example_matrix 0 = Ok tt /\
  greedy_run Qmean_of_powers example_matrix 0 ExpOther (1 # 10)%Q
  = Ok (initial_state example_matrix (1 # 10)%Q) /\
  greedy_power_mean_sample_final Qmean_of_powers example_matrix 0 ExpOther (1 # 10)%Q
  = Ok [].
Proof.
  apply (greedy_nonpositive_k_returns_empty Qmean_of_powers example_matrix 0
           ExpOther (1 # 10)%Q).
  - vm_compute. lia.
  - vm_compute. lia.
  - reflexivity.
  - lia.
Defined.

Lemma get_genomes_to_keep_spec_witness :
  marker_totals example_adj [0; 1; 2] = Ok [5; 3; 1]%Z /\
  get_genomes_to_keep example_adj 3 [0; 1; 2] (PyFloat (1 # 2)) example_genomes
  = Ok ["G1"; "G2"].
Proof.
  assert (Htot : marker_totals example_adj [0; 1; 2] = Ok [5; 3; 1]%Z) by reflexivity.
  split; [exact Htot|].
  assert (Hwf : matrix_wf example_adj) by (repeat constructor).
  assert (Hidx : Forall (fun i => i < nrows example_adj) [0; 1; 2])
    by (repeat constructor; vm_compute; lia).
  destruct (get_genomes_to_keep_spec example_adj 3 [0; 1; 2] (PyFloat (1 # 2))
              example_genomes Hwf Hidx eq_refl eq_refl) as [_ Hex].
  exact (Hex "G1" "G2" "G3" Htot).
Defined.

Lemma get_genomes_to_keep_out_of_domain_witness :
  coverage_threshold (PyInt (-1)) 3 = PyInt (-1) /\
  (forall e,
     get_genomes_to_keep example_adj 3 [0; 1; 2] (PyInt (-1)) example_genomes = Raise e ->
     e = IndexError) /\
  (matrix_wf example_adj -> Forall (fun i => i < nrows example_adj) [0; 1; 2] ->
   length example_genomes = ncols example_adj ->
   exists kept,
     get_genomes_to_keep example_adj 3 [0; 1; 2] (PyInt (-1)) example_genomes = Ok kept /\
     forall g, g ∈ kept <->
       exists j, example_genomes !! j = Some g /\
         Qle (pynumber_value (PyInt (-1)))
             (inject_Z (column_total example_adj [0; 1; 2] j))).
Proof.
  apply (get_genomes_to_keep_out_of_domain example_adj 3 [0; 1; 2] (PyInt (-1))
           example_genomes).
  reflexivity.
Defined.

(** C6, as the specification states it, fails: with [min_markers = -1] and
    with [min_markers = 1.5] the call returns a genome set. *)
Lemma get_genomes_to_keep_raises_counterexample :
  get_genomes_to_keep example_adj 3 [0; 1; 2] (PyInt (-1)) example_genomes
  = Ok ["G1"; "G2"; "G3"] /\
  get_genomes_to_keep example_adj 3 [0; 1; 2] (PyFloat (3 # 2)) example_genomes
  = Ok ["G1"; "G2"] /\
  ~ (forall min_markers,
       min_markers_in_domain min_markers = false ->
       exists e,
         get_genomes_to_keep example_adj 3 [0; 1; 2] min_markers example_genomes
         = Raise e).
Proof.
  split; [reflexivity|]. split; [reflexivity|].
  intros Hall. destruct (Hall (PyInt (-1)) eq_refl) as [e He]. discriminate.
Qed.

Lemma filter_copies_spec_witness :
  (forall r, r ∈ example_group -> (0 <= bit_score r)%Q) /\
  (forall r, r ∈ example_group -> is_float (bit_score r)) /\
  filter_copies example_group 0 = Ok example_group /\
  exists kept,
    filter_copies example_group 1 = Ok kept /\
    forall r, r ∈ kept <->
      r ∈ example_group /\
      forall m, is_group_max example_group r m -> (bit_score r == m)%Q.
Proof.
  assert (Hnn : forall r, r ∈ example_group -> (0 <= bit_score r)%Q).
  { intros r Hr. unfold example_group in Hr.
    repeat (apply elem_of_cons in Hr as [-> | Hr]; [discriminate|]).
    inversion Hr. }
  assert (Hfl : forall r, r ∈ example_group -> is_float (bit_score r)).
  { intros r Hr. unfold example_group in Hr.
    repeat (apply elem_of_cons in Hr as [-> | Hr]; [vm_compute; reflexivity|]).
    inversion Hr. }
  split; [exact Hnn|]. split; [exact Hfl|].
  destruct (filter_copies_spec example_group 0) as (_ & _ & _ & H0 & _).
  destruct (filter_copies_spec example_group 1) as (_ & _ & _ & _ & H1 & _).
  destruct (H0 (Qeq_refl 0)) as [_ Hall].
  split; [exact (Hall Hnn) | exact (H1 (Qeq_refl 1) Hfl)].
Defined.

Lemma build_copy_number_matrix_spec_witness :
  length example_edges_genes = length example_edges_genomes /\
  build_copy_number_matrix example_edges_genes example_edges_genomes
  = Ok ({| ncols := 3; mrows := [[0; 1; 0]; [2; 0; 1]; [1; 0; 0]]%Z |},
        ["G1"; "G2"; "G3"], ["K1"; "K2"; "K3"]) /\
  exists adj genomes genes,
    build_copy_number_matrix example_edges_genes example_edges_genomes
    = Ok (adj, genomes, genes) /\
    entry (mrows adj) 1 0
    = Some (Z.of_nat (edge_count "K2" "G1" (zip example_edges_genes example_edges_genomes))).
Proof.
  split; [reflexivity|]. split; [vm_compute; reflexivity|].
  destruct (build_copy_number_matrix_spec example_edges_genes example_edges_genomes eq_refl)
    as [(adj & genomes & genes & Hb & _ & _ & _ & _ & _ & _ & _ & Hentry) _].
  exists adj, genomes, genes. split; [exact Hb|].
  apply Hentry.
  - assert (E : build_copy_number_matrix example_edges_genes example_edges_genomes
                = Ok ({| ncols := 3; mrows := [[0; 1; 0]; [2; 0; 1]; [1; 0; 0]]%Z |},
                      ["G1"; "G2"; "G3"], ["K1"; "K2"; "K3"]))
      by (vm_compute; reflexivity).
    rewrite E in Hb. injection Hb as _ _ <-. reflexivity.
  - assert (E : build_copy_number_matrix example_edges_genes example_edges_genomes
                = Ok ({| ncols := 3; mrows := [[0; 1; 0]; [2; 0; 1]; [1; 0; 0]]%Z |},
                      ["G1"; "G2"; "G3"], ["K1"; "K2"; "K3"]))
      by (vm_compute; reflexivity).
    rewrite E in Hb. injection Hb as _ <- _. reflexivity.
Defined.

(** ** More on the greedy selector *)

Section GreedyMore.
Context {num : Type} `{Numeric num}.
Variable pmean : Z -> list num -> num.

(** The loop, split after [i] iterations. *)
Lemma select_loop_add (p : exponent) (i j : nat) (st : loop_state num) :
  select_loop pmean p (i + j) st
  = bind (select_loop pmean p i st) (select_loop pmean p j).
Proof.
  revert st. induction i as [|i IH]; intros st; [reflexivity|]. simpl.
  destruct (select_step pmean p st) as [st1|e]; simpl; [apply IH | reflexivity].
Qed.

(** Iterations only append to the selection, one index each. *)
Lemma select_loop_selected (p : exponent) (j : nat) (st st' : loop_state num) :
  select_loop pmean p j st = Ok st' ->
  exists more, selected st' = selected st ++ more /\ length more = j.
Proof.
  revert st. induction j as [|j IH]; intros st E.
  - injection E as <-. exists []. split; [now rewrite app_nil_r | reflexivity].
  - simpl in E. apply bind_Ok_inv in E as (st1 & E1 & E).
    destruct (IH st1 E) as (more & Hsel & Hlen).
    apply select_step_inv in E1 as (f & choice & g & row & _ & _ & _ & _ & ->).
    simpl in Hsel. exists (g :: more). split.
    + now rewrite Hsel, <- app_assoc.
    + simpl. now rewrite Hlen.
Qed.

Lemma greedy_run_Ok_inv (d : matrix num) (k : Z) (p : exponent) (c : num)
    (st : loop_state num) :
  greedy_run pmean d k p c = Ok st ->
  entry_checks d k = Ok tt /\
  select_loop pmean p (Z.to_nat k) (initial_state d c) = Ok st.
Proof.
  unfold greedy_run. intros E. apply bind_Ok_inv in E as ([] & Hchk & E). now split.
Qed.

Lemma greedy_Ok_inv (d : matrix num) (k : Z) (p : exponent) (c : num)
    (sel : list nat) :
  greedy_power_mean_sample_final pmean d k p c = Ok sel ->
  exists st, greedy_run pmean d k p c = Ok st /\ selected st = sel.
Proof.
  unfold greedy_power_mean_sample_final. intros E.
  apply bind_Ok_inv in E as (st & Hrun & [= <-]). eauto.
Qed.

(** X1.  The selection grows with [k]: a successful run with a smaller target
    returns the first indices of the run with the larger target. *)
Theorem greedy_selection_prefix
    (d : matrix num) (k k' : Z) (p : exponent) (pseudocount : num)
    (sel' : list nat) :
  (k <= k')%Z ->
  greedy_power_mean_sample_final pmean d k' p pseudocount = Ok sel' ->
  greedy_power_mean_sample_final pmean d k p pseudocount
  = Ok (take (Z.to_nat k) sel').
Proof.
  intros Hk E'. apply greedy_Ok_inv in E' as (st' & Hrun' & <-).
  apply greedy_run_Ok_inv in Hrun' as [Hchk' Hloop'].
  apply entry_checks_Ok in Hchk' as (Hn & Hm & Hz & Hk').
  assert (Hchk : entry_checks d k = Ok tt).
  { apply entry_checks_Ok. repeat split; [assumption.. | lia]. }
  replace (Z.to_nat k') with (Z.to_nat k + (Z.to_nat k' - Z.to_nat k)) in Hloop' by lia.
  rewrite select_loop_add in Hloop'.
  apply bind_Ok_inv in Hloop' as (st & Hloop & Hrest).
  destruct (select_loop_selected _ _ _ _ Hloop) as (sel & Hsel & Hlen).
  destruct (select_loop_selected _ _ _ _ Hrest) as (more & Hsel' & _).
  simpl in Hsel.
  unfold greedy_power_mean_sample_final, greedy_run. rewrite Hchk. simpl.
  rewrite Hloop. simpl. f_equal.
  rewrite Hsel', Hsel, take_app_length'; [reflexivity | now symmetry].
Qed.

Lemma greedy_run_invariants (d : matrix num) (k : Z) (p : exponent) (c : num)
    (st : loop_state num) :
  greedy_run pmean d k p c = Ok st ->
  loop_inv (nrows d) st /\ rows_inv d c st /\
  counts st = counts_of_selection d c (selected st).
Proof.
  intros E. apply greedy_run_Ok_inv in E as [_ Hloop].
  apply (select_loop_invariant pmean
           (fun s => loop_inv (nrows d) s /\ rows_inv d c s /\
                     counts s = counts_of_selection d c (selected s))
           p (Z.to_nat k) (initial_state d c) st); [| |assumption].
  - split; [apply initial_state_inv|]. split; [apply initial_state_rows_inv|].
    reflexivity.
  - intros s s' (H1 & H2 & H3) Hstep. split; [|split].
    + now apply (select_step_preserves pmean p (nrows d) s s' H1).
    + now apply (select_step_rows_inv pmean d c p s s').
    + destruct H2 as [Hrows _].
      apply select_step_inv in Hstep as (f & choice & g & row & _ & _ & Hg & Hrow & ->).
      simpl. unfold counts_of_selection. rewrite foldl_snoc.
      fold (counts_of_selection d c (selected s)). rewrite <- H3.
      destruct (Forall2_lookup_l _ _ _ _ _ Hrows Hg) as (row' & Hrow' & Haug).
      rewrite Hrow in Hrow'. injection Hrow' as <-.
      unfold trial. now rewrite Haug.
Qed.

(** X2.  The cumulative counts at the end of a run are the selected rows of the
    pseudocount-augmented matrix added up, in selection order, from zero;
    every selected index names a row of the input. *)
Theorem greedy_counts_are_selected_sums
    (d : matrix num) (k : Z) (p : exponent) (pseudocount : num)
    (st : loop_state num) :
  greedy_run pmean d k p pseudocount = Ok st ->
  counts st = counts_of_selection d pseudocount (selected st) /\
  Forall (fun g => is_Some (mrows d !! g)) (selected st).
Proof.
  intros E. destruct (greedy_run_invariants d k p pseudocount st E) as (Hinv & _ & Hc).
  split; [assumption|].
  destruct (loop_inv_selected _ _ Hinv) as [_ Hall].
  eapply Forall_impl; [exact Hall|]. intros g Hg.
  now apply lookup_lt_is_Some_2.
Qed.

(** X3.  The candidates left at the end of a run are the rows of the input that
    were not selected, in increasing order of their index, each with its row
    of the pseudocount-augmented matrix; every iteration removed exactly
    one. *)
Theorem greedy_remaining_candidates
    (d : matrix num) (k : Z) (p : exponent) (pseudocount : num)
    (st : loop_state num) :
  greedy_run pmean d k p pseudocount = Ok st ->
  length (selected st) = Z.to_nat k /\
  length (indices st) = nrows d - Z.to_nat k /\
  increasing (indices st) /\
  (forall g, g ∈ indices st <-> g < nrows d /\ g ∉ selected st) /\
  Forall2 (fun g row => add_pseudocount pseudocount (mrows d) !! g = Some row)
          (indices st) (data st).
Proof.
  intros E.
  destruct (greedy_run_invariants d k p pseudocount st E) as ([_ Hperm] & [Hrows Hinc] & _).
  apply greedy_run_Ok_inv in E as [_ Hloop].
  destruct (select_loop_selected _ _ _ _ Hloop) as (sel & Hsel & Hlen).
  simpl in Hsel.
  assert (Hls : length (selected st) = Z.to_nat k) by now rewrite Hsel.
  assert (Hsum : length (selected st) + length (indices st) = nrows d).
  { rewrite <- length_app, Hperm. apply length_seq. }
  split; [assumption|]. split; [lia|]. split; [assumption|]. split; [|assumption].
  intros g.
  assert (Hnd : NoDup (selected st ++ indices st)) by (rewrite Hperm; apply NoDup_seq).
  apply NoDup_app in Hnd as (_ & Hdisj & _). split.
  - intros Hin. split.
    + assert (Hs : g ∈ seq 0 (nrows d)).
      { rewrite <- Hperm. apply elem_of_app. now right. }
      apply elem_of_seq in Hs. lia.
    + intros Hs. exact (Hdisj g Hs Hin).
  - intros [Hlt Hnot].
    assert (Hs : g ∈ selected st ++ indices st).
    { rewrite Hperm. apply elem_of_seq. lia. }
    apply elem_of_app in Hs as [Hs | Hs]; [contradiction | assumption].
Qed.

(** X4.  An exponent the source does not accept is reported by the first
    iteration: on an input that passes the entry checks, with [k >= 1], the
    call raises 'Invalid p' and selects nothing. *)
Theorem greedy_invalid_exponent
    (d : matrix num) (k : Z) (p : exponent) (pseudocount : num) :
  degenerate d k = false -> (1 <= k)%Z -> valid_exponent p = false ->
  greedy_run pmean d k p pseudocount = Raise InvalidP /\
  greedy_power_mean_sample_final pmean d k p pseudocount = Raise InvalidP.
Proof.
  intros Hd Hk Hp. apply entry_checks_cases in Hd.
  assert (Hrun : greedy_run pmean d k p pseudocount = Raise InvalidP).
  { unfold greedy_run. rewrite Hd. simpl.
    destruct (Z.to_nat k) as [|j] eqn:Ej; [lia|]. simpl.
    unfold select_step, row_scores. now rewrite (objective_invalid pmean p Hp). }
  split; [assumption|].
  unfold greedy_power_mean_sample_final. now rewrite Hrun.
Qed.

End GreedyMore.

(** ** SparsityFilter *)

Lemma elem_of_np_where_from (mask : list bool) (i j : nat) :
  j ∈ np_where_from i mask <-> exists o, j = i + o /\ mask !! o = Some true.
Proof.
  revert i. induction mask as [|b mask IH]; intros i; simpl.
  - split; [intros Hin; inversion Hin | intros (o & _ & Ho); discriminate].
  - assert (Hrest : j ∈ np_where_from (S i) mask <->
                    exists o, j = i + S o /\ (b :: mask) !! S o = Some true).
    { rewrite IH. split; intros (o & -> & Ho); exists o; (split; [lia | exact Ho]). }
    destruct b.
    + rewrite elem_of_cons, Hrest. split.
      * intros [-> | (o & Ho)]; [exists 0; split; [lia | reflexivity] | eauto].
      * intros ([|o] & Hj & Ho); [left; lia | right; eauto].
    + rewrite Hrest. split.
      * intros (o & Ho); eauto.
      * intros ([|o] & Hj & Ho); [discriminate | eauto].
Qed.

Lemma np_where_from_sorted (mask : list bool) (i : nat) :
  StronglySorted lt (np_where_from i mask).
Proof.
  revert i. induction mask as [|b mask IH]; intros i; simpl; [constructor|].
  destruct b; [|apply IH]. constructor; [apply IH|].
  apply Forall_forall. intros j Hj.
  apply elem_of_np_where_from in Hj as (o & -> & _). lia.
Qed.

Lemma delete_from_ext {A : Type} (l : list A) (i : nat) (obj obj' : list nat) :
  (forall j, i <= j -> j ∈ obj <-> j ∈ obj') ->
  delete_from i obj l = delete_from i obj' l.
Proof.
  revert i. induction l as [|x l IH]; intros i Hext; [reflexivity|]. simpl.
  rewrite (IH (S i)) by (intros j Hj; apply Hext; lia).
  rewrite (bool_decide_ext _ _ (Hext i (Nat.le_refl i))). reflexivity.
Qed.

(** Deleting the positions where a mask holds keeps the positions where it
    does not. *)
Lemma delete_where {A : Type} (l : list A) (mask : list bool) (i : nat) :
  length l = length mask ->
  delete_from i (np_where_from i mask) l = select_mask l (negb <$> mask).
Proof.
  revert mask i. induction l as [|x l IH]; intros [|b mask] i Hlen;
    try discriminate; [reflexivity|].
  injection Hlen as Hlen. rewrite fmap_cons.
  destruct b; cbn [np_where_from delete_from select_mask negb].
  - rewrite bool_decide_eq_true_2 by apply list_elem_of_here.
    rewrite <- (IH mask (S i) Hlen). apply delete_from_ext.
    intros j Hj. rewrite elem_of_cons. split; [intros [-> | Hin]; [lia | assumption] | now right].
  - rewrite bool_decide_eq_false_2.
    + now rewrite (IH mask (S i) Hlen).
    + intros Hin. apply elem_of_np_where_from in Hin as (o & Ho & _). lia.
Qed.

Lemma np_where_bound (mask : list bool) (j : nat) :
  j ∈ np_where mask -> j < length mask.
Proof.
  intros Hin. apply elem_of_np_where_from in Hin as (o & -> & Ho).
  simpl. eapply lookup_lt_Some; eassumption.
Qed.

Lemma np_delete_where {A : Type} (l : list A) (mask : list bool) :
  length l = length mask ->
  np_delete l (np_where mask) = Ok (select_mask l (negb <$> mask)).
Proof.
  intros Hlen. unfold np_delete.
  assert (Hall : forallb (fun i => i <? length l) (np_where mask) = true).
  { apply forallb_forall. intros j Hj. apply Nat.ltb_lt. rewrite Hlen.
    apply np_where_bound. now apply list_elem_of_In. }
  rewrite Hall. f_equal. now apply delete_where.
Qed.

Lemma select_mask_fmap_filter {A : Type} (f : A -> bool) (l : list A) :
  select_mask l (f <$> l) = List.filter f l.
Proof.
  induction l as [|x l IH]; [reflexivity|]. rewrite fmap_cons. simpl. now rewrite IH.
Qed.

Lemma sparse_mask_negb (rows : list (list Z)) :
  negb <$> ((fun row => count_nonzero row <? 4) <$> rows) = dense <$> rows.
Proof.
  rewrite <- list_fmap_compose. apply list_fmap_ext. intros i row _. simpl.
  unfold dense. destruct (Nat.ltb_spec (count_nonzero row) 4);
    destruct (Nat.leb_spec 4 (count_nonzero row)); (reflexivity || lia).
Qed.

Lemma remove_genes_delete {A : Type} (adj : matrix Z) (l : list A) :
  length l = nrows adj ->
  np_delete l (remove_genes adj) = Ok (select_mask l (dense <$> mrows adj)).
Proof.
  intros Hlen. unfold remove_genes. rewrite np_delete_where.
  - now rewrite sparse_mask_negb.
  - now rewrite length_fmap.
Qed.

Lemma select_mask_zip {A B : Type} (f : B -> bool) (xs : list A) (ys : list B) :
  length xs = length ys ->
  zip (select_mask xs (f <$> ys)) (List.filter f ys)
  = List.filter (fun xy => f xy.2) (zip xs ys).
Proof.
  revert ys. induction xs as [|x xs IH]; intros [|y ys] Hlen; try discriminate;
    [reflexivity|].
  injection Hlen as Hlen. rewrite fmap_cons.
  cbn [select_mask List.filter zip zip_with snd]. destruct (f y); simpl; now rewrite IH.
Qed.

Lemma count_nonzero_le (row : list Z) : count_nonzero row <= length row.
Proof. apply length_filter. Qed.

Lemma dense_has_nonzero (row : list Z) :
  dense row = true -> exists x, x ∈ row /\ x <> 0%Z.
Proof.
  unfold dense, count_nonzero. intros Hd. apply Nat.leb_le in Hd.
  destruct (filter (fun x => x <> 0%Z) row) as [|x l] eqn:E; [simpl in Hd; lia|].
  assert (Hx : x ∈ filter (fun x => x <> 0%Z) row) by (rewrite E; apply list_elem_of_here).
  apply list_elem_of_filter in Hx as [Hx0 Hx]. eauto.
Qed.

(** X5.  The rows the sparsity filter leaves are the rows with at least four
    non-zero entries, in their order; the deletion never fails; the gene
    labels deleted by the same indices stay aligned with the rows; the
    indices are increasing and within the matrix. *)
Theorem sparse_genes_removed (adj : matrix Z) (genes : list string) :
  length genes = nrows adj ->
  exists rows_mod genes_mod,
    np_delete (mrows adj) (remove_genes adj) = Ok rows_mod /\
    np_delete genes (remove_genes adj) = Ok genes_mod /\
    rows_mod = List.filter dense (mrows adj) /\
    zip genes_mod rows_mod = List.filter (fun gr => dense gr.2) (zip genes (mrows adj)) /\
    length genes_mod = length rows_mod /\
    StronglySorted lt (remove_genes adj) /\
    Forall (fun i => i < nrows adj) (remove_genes adj).
Proof.
  intros Hlen. exists (List.filter dense (mrows adj)), (select_mask genes (dense <$> mrows adj)).
  assert (Hzip : zip (select_mask genes (dense <$> mrows adj)) (List.filter dense (mrows adj))
                 = List.filter (fun gr => dense gr.2) (zip genes (mrows adj)))
    by now apply select_mask_zip.
  split.
  { rewrite (remove_genes_delete adj (mrows adj) eq_refl). f_equal.
    apply select_mask_fmap_filter. }
  split; [now apply remove_genes_delete|]. split; [reflexivity|].
  split; [assumption|]. split.
  { clear Hzip. unfold nrows in Hlen. revert genes Hlen.
    induction (mrows adj) as [|r rows IH]; intros [|g genes] Hlen; try discriminate;
      [reflexivity|].
    injection Hlen as Hlen. rewrite fmap_cons. cbn [select_mask List.filter].
    destruct (dense r); simpl; now rewrite (IH genes Hlen). }
  split; [apply np_where_from_sorted|].
  apply Forall_forall. intros i Hi. apply np_where_bound in Hi.
  now rewrite length_fmap in Hi.
Qed.

Lemma np_where_none (mask : list bool) (i : nat) :
  Forall (fun b => b = false) mask -> np_where_from i mask = [].
Proof.
  intros Hall. revert i. induction Hall as [|b mask -> Hall IH]; intros i; simpl; auto.
Qed.

(** X6.  The sparsity filter is idempotent: the matrix it leaves has no row left
    to remove. *)
Theorem remove_genes_idempotent (adj : matrix Z) (rows_mod : list (list Z)) :
  np_delete (mrows adj) (remove_genes adj) = Ok rows_mod ->
  remove_genes {| ncols := ncols adj; mrows := rows_mod |} = [].
Proof.
  rewrite (remove_genes_delete adj (mrows adj) eq_refl), select_mask_fmap_filter.
  intros [= <-]. unfold remove_genes. simpl. apply np_where_none.
  apply Forall_fmap, Forall_forall. intros row Hrow. simpl.
  apply list_elem_of_In, List.filter_In in Hrow as [_ Hd]. unfold dense in Hd.
  apply Nat.leb_le in Hd. apply Nat.ltb_ge. exact Hd.
Qed.

Section SparseSelection.
Context {num : Type} `{Numeric num}.
Variable pmean : Z -> list num -> num.
Variable of_int : Z -> num.
Hypothesis of_int_eq0 : forall z : Z, num_eq0 (of_int z) = (z =? 0)%Z.

Lemma greedy_degenerate_error (d : matrix num) (k : Z) (p : exponent) (c : num) (e : exn) :
  is_degenerate_error e = true ->
  greedy_power_mean_sample_final pmean d k p c = Raise e ->
  entry_checks d k = Raise e.
Proof.
  intros He. unfold greedy_power_mean_sample_final, greedy_run.
  destruct (entry_checks d k) as [[]|e0]; simpl; [|now intros [= ->]].
  destruct (select_loop _ _ _ _) as [st|e1] eqn:E; simpl; [discriminate|].
  intros [= ->]. apply select_loop_error in E. congruence.
Qed.

Lemma entry_checks_EmptyMatrix (d : matrix num) (k : Z) :
  entry_checks d k = Raise EmptyMatrix <-> nrows d = 0 \/ ncols d = 0.
Proof.
  unfold entry_checks.
  destruct (Nat.eqb_spec (nrows d) 0); simpl; [split; auto|].
  destruct (Nat.eqb_spec (ncols d) 0); simpl; [split; auto|].
  destruct (all_zero d); [split; [discriminate | lia]|].
  destruct (Z.of_nat (nrows d) <=? k)%Z; (split; [discriminate | lia]).
Qed.

Lemma entry_checks_OnlyZeros (d : matrix num) (k : Z) :
  entry_checks d k = Raise OnlyZeros -> nrows d <> 0 /\ all_zero d = true.
Proof.
  unfold entry_checks.
  destruct (Nat.eqb_spec (nrows d) 0); simpl; [discriminate|].
  destruct (ncols d =? 0); simpl; [discriminate|].
  destruct (all_zero d); [now split|].
  destruct (Z.of_nat (nrows d) <=? k)%Z; discriminate.
Qed.

(** X7.  On the matrix the sparsity filter leaves, the selector never reports
    "Matrix only contains 0's", and it reports 'Matrix is empty!' exactly
    when no gene family is present in four genomes. *)
Theorem sparse_filtered_matrix_errors
    (adj : matrix Z) (rows_mod : list (list Z)) (k : Z) (p : exponent)
    (pseudocount : num) :
  matrix_wf adj ->
  np_delete (mrows adj) (remove_genes adj) = Ok rows_mod ->
  greedy_power_mean_sample_final pmean
    (as_array of_int {| ncols := ncols adj; mrows := rows_mod |}) k p pseudocount
  <> Raise OnlyZeros /\
  (greedy_power_mean_sample_final pmean
     (as_array of_int {| ncols := ncols adj; mrows := rows_mod |}) k p pseudocount
   = Raise EmptyMatrix <->
   Forall (fun row => count_nonzero row < 4) (mrows adj)).
Proof.
  intros Hwf. rewrite (remove_genes_delete adj (mrows adj) eq_refl), select_mask_fmap_filter.
  intros [= <-].
  set (d := as_array of_int {| ncols := ncols adj; mrows := List.filter dense (mrows adj) |}).
  assert (Hnrows : nrows d = length (List.filter dense (mrows adj))).
  { unfold d, as_array, nrows. simpl. apply length_fmap. }
  assert (Hsparse : List.filter dense (mrows adj) = [] <->
                    Forall (fun row => count_nonzero row < 4) (mrows adj)).
  { rewrite Forall_forall. split.
    - intros Hnil row Hrow.
      destruct (Nat.lt_ge_cases (count_nonzero row) 4) as [Hlt | Hge]; [assumption|].
      assert (Hin : List.In row (List.filter dense (mrows adj))).
      { apply List.filter_In. split; [now apply list_elem_of_In|]. now apply Nat.leb_le. }
      rewrite Hnil in Hin. destruct Hin.
    - intros Hall. destruct (List.filter dense (mrows adj)) as [|row l] eqn:E; [reflexivity|].
      assert (Hin : List.In row (List.filter dense (mrows adj))) by (rewrite E; now left).
      apply List.filter_In in Hin as [Hin Hd]. apply list_elem_of_In in Hin.
      specialize (Hall row Hin). apply Nat.leb_le in Hd. lia. }
  split.
  - intros E. apply greedy_degenerate_error in E; [|reflexivity].
    apply entry_checks_OnlyZeros in E as [Hn Hz].
    destruct (List.filter dense (mrows adj)) as [|row l] eqn:Ef; [simpl in Hnrows; lia|].
    assert (Hin : List.In row (List.filter dense (mrows adj))) by (rewrite Ef; now left).
    apply List.filter_In in Hin as [_ Hd].
    apply dense_has_nonzero in Hd as (x & Hx & Hx0).
    unfold all_zero, d, as_array in Hz. simpl in Hz. try rewrite Ef in Hz.
    try rewrite fmap_cons in Hz. simpl in Hz. apply andb_true_iff in Hz as [Hrow _].
    rewrite forallb_forall in Hrow.
    assert (Hox : List.In (of_int x) (of_int <$> row)).
    { apply list_elem_of_In, list_elem_of_fmap_2. assumption. }
    specialize (Hrow _ Hox). rewrite of_int_eq0 in Hrow.
    apply Z.eqb_eq in Hrow. contradiction.
  - rewrite <- Hsparse. split.
    + intros E. apply greedy_degenerate_error in E; [|reflexivity].
      apply entry_checks_EmptyMatrix in E as [Hn | Hm].
      * rewrite Hnrows in Hn. now apply length_zero_iff_nil in Hn.
      * apply Hsparse. eapply Forall_impl; [exact Hwf|]. intros row Hrow. simpl in Hrow.
        pose proof (count_nonzero_le row). unfold d, as_array in Hm. simpl in Hm. lia.
    + intros Hnil.
      assert (Hchk : entry_checks d k = Raise EmptyMatrix).
      { apply entry_checks_EmptyMatrix. left. rewrite Hnrows, Hnil. reflexivity. }
      unfold greedy_power_mean_sample_final, greedy_run. now rewrite Hchk.
Qed.

(** X8.  With fewer than four genome columns every gene family is removed, and
    the selector reports 'Matrix is empty!' whatever [k] and [p]. *)
Theorem fewer_than_four_genomes
    (adj : matrix Z) (k : Z) (p : exponent) (pseudocount : num) :
  matrix_wf adj -> ncols adj < 4 ->
  np_delete (mrows adj) (remove_genes adj) = Ok [] /\
  greedy_power_mean_sample_final pmean
    (as_array of_int {| ncols := ncols adj; mrows := [] |}) k p pseudocount
  = Raise EmptyMatrix.
Proof.
  intros Hwf Hm. split; [|reflexivity].
  rewrite (remove_genes_delete adj (mrows adj) eq_refl), select_mask_fmap_filter. f_equal.
  induction Hwf as [|row rows Hrow Hwf IH]; [reflexivity|]. simpl.
  pose proof (count_nonzero_le row) as Hle. unfold dense.
  destruct (Nat.leb_spec 4 (count_nonzero row)); [lia | exact IH].
Qed.

End SparseSelection.

(** ** More on the matrix builder *)

Lemma np_unique_determined (xs ys : list string) :
  (forall x, x ∈ xs <-> x ∈ ys) -> np_unique xs = np_unique ys.
Proof.
  intros Hmem.
  apply (StronglySorted_unique_strong label_lt);
    [| apply np_unique_sorted | apply np_unique_sorted |].
  - intros x1 x2 _ _ H12 H21. exfalso.
    exact (label_lt_irrefl x1 (label_lt_trans x1 x2 x1 H12 H21)).
  - apply NoDup_Permutation; try (apply sorted_labels_NoDup, np_unique_sorted).
    intros x. now rewrite !elem_of_np_unique.
Qed.

(** What the builder returns on two label arrays of equal length. *)
Lemma build_copy_number_matrix_Ok (edges_genes edges_genomes : list string) :
  length edges_genes = length edges_genomes ->
  let genes := np_unique edges_genes in
  let genomes := np_unique edges_genomes in
  let codes := edge_code genes genomes <$> zip edges_genes edges_genomes in
  build_copy_number_matrix edges_genes edges_genomes
  = Ok ({| ncols := length genomes;
           mrows := chunks (length genes) (length genomes)
                      (bincount codes (length genes * length genomes)) |},
        genomes, genes) /\
  Forall (fun x => x < length genes * length genomes) codes.
Proof.
  intros Hlen genes genomes codes.
  assert (Hbound : Forall (fun x => x < length genes * length genomes) codes).
  { apply Forall_fmap, Forall_forall. intros [g s] Hin. simpl. unfold edge_code. simpl.
    assert (Hg : genes !! label_index g genes = Some g).
    { apply label_index_lookup, elem_of_np_unique. eapply elem_of_zip_l; eassumption. }
    assert (Hs : genomes !! label_index s genomes = Some s).
    { apply label_index_lookup, elem_of_np_unique. eapply elem_of_zip_r; eassumption. }
    apply lookup_lt_Some in Hg, Hs. nia. }
  split; [|assumption]. unfold build_copy_number_matrix.
  assert (Hflat : flat_indices (unique_inverse edges_genes) (length genomes)
                    (unique_inverse edges_genomes) = Ok codes).
  { unfold flat_indices, unique_inverse. rewrite !length_fmap, Hlen, Nat.eqb_refl.
    f_equal. fold genes genomes.
    rewrite zip_with_fmap_l, zip_with_fmap_r, zip_with_zip.
    apply list_fmap_ext. now intros k [g s] _. }
  fold genes genomes. rewrite Hflat. simpl.
  destruct (bincount_spec _ _ Hbound) as [Hblen _].
  unfold reshape. rewrite Hblen, Nat.eqb_refl. reflexivity.
Qed.

Lemma edge_code_count (edges_genes edges_genomes : list string) (i j : nat) (g s : string) :
  np_unique edges_genes !! i = Some g ->
  np_unique edges_genomes !! j = Some s ->
  occurrences (i * length (np_unique edges_genomes) + j)
    (edge_code (np_unique edges_genes) (np_unique edges_genomes)
       <$> zip edges_genes edges_genomes)
  = edge_count g s (zip edges_genes edges_genomes).
Proof.
  intros Hg Hs. unfold edge_count. apply occurrences_fmap.
  intros [g' s'] Hin. unfold edge_code. simpl.
  assert (Hg' : np_unique edges_genes !! label_index g' (np_unique edges_genes) = Some g').
  { apply label_index_lookup, elem_of_np_unique. eapply elem_of_zip_l; eassumption. }
  assert (Hs' : np_unique edges_genomes !! label_index s' (np_unique edges_genomes) = Some s').
  { apply label_index_lookup, elem_of_np_unique. eapply elem_of_zip_r; eassumption. }
  pose proof (lookup_lt_Some _ _ _ Hs) as Hj. pose proof (lookup_lt_Some _ _ _ Hs') as Hj'.
  split.
  - intros E. apply flat_index_inj in E as [Ei Ej]; [|assumption..].
    rewrite Ei, Hg in Hg'. rewrite Ej, Hs in Hs'. congruence.
  - intros [= -> ->].
    now rewrite (label_index_of_lookup _ i g (sorted_labels_NoDup _ (np_unique_sorted _)) Hg),
                (label_index_of_lookup _ j s (sorted_labels_NoDup _ (np_unique_sorted _)) Hs).
Qed.

(** The entries of the matrix the builder returns. *)
Lemma build_entry (edges_genes edges_genomes : list string) (i j : nat) (g s : string) :
  length edges_genes = length edges_genomes ->
  np_unique edges_genes !! i = Some g ->
  np_unique edges_genomes !! j = Some s ->
  entry (chunks (length (np_unique edges_genes)) (length (np_unique edges_genomes))
           (bincount (edge_code (np_unique edges_genes) (np_unique edges_genomes)
                        <$> zip edges_genes edges_genomes)
                     (length (np_unique edges_genes) * length (np_unique edges_genomes))))
        i j
  = Some (Z.of_nat (edge_count g s (zip edges_genes edges_genomes))).
Proof.
  intros Hlen Hg Hs.
  destruct (build_copy_number_matrix_Ok edges_genes edges_genomes Hlen) as [_ Hbound].
  destruct (bincount_spec _ _ Hbound) as [_ Hcount].
  pose proof (lookup_lt_Some _ _ _ Hg) as Hi. pose proof (lookup_lt_Some _ _ _ Hs) as Hj.
  rewrite chunks_entry by assumption. rewrite Hcount by nia.
  now rewrite (edge_code_count edges_genes edges_genomes i j g s Hg Hs).
Qed.

(** *** Every edge is counted once *)

Lemma list_sum_cons (x : Z) (l : list Z) : list_sum (x :: l) = (x + list_sum l)%Z.
Proof. reflexivity. Qed.

Lemma list_sum_app (l k : list Z) : list_sum (l ++ k) = (list_sum l + list_sum k)%Z.
Proof.
  induction l as [|x l IH]; [reflexivity|].
  rewrite <- app_comm_cons, !list_sum_cons, IH. lia.
Qed.

Lemma list_sum_alter_succ (out : list Z) (i : nat) :
  i < length out -> list_sum (alter Z.succ i out) = (list_sum out + 1)%Z.
Proof.
  revert i. induction out as [|x out IH]; intros i Hi; simpl in Hi; [lia|].
  destruct i as [|i].
  - change (alter Z.succ 0 (x :: out)) with (Z.succ x :: out).
    rewrite !list_sum_cons. lia.
  - change (alter Z.succ (S i) (x :: out)) with (x :: alter Z.succ i out).
    rewrite !list_sum_cons, IH by lia. lia.
Qed.

Lemma list_sum_replicate_0 (n : nat) : list_sum (replicate n 0%Z) = 0%Z.
Proof.
  induction n as [|n IH]; [reflexivity|].
  change (replicate (S n) 0%Z) with (0%Z :: replicate n 0%Z).
  now rewrite list_sum_cons, IH.
Qed.

Lemma bincount_fold_sum (xs : list nat) (out : list Z) :
  Forall (fun x => x < length out) xs ->
  list_sum (foldl (fun out x => alter Z.succ x out) out xs)
  = (list_sum out + Z.of_nat (length xs))%Z.
Proof.
  intros Hall. revert out Hall. induction xs as [|x xs IH]; intros out Hall; simpl; [lia|].
  apply Forall_cons in Hall as [Hx Hall].
  rewrite IH by (now rewrite length_alter).
  rewrite list_sum_alter_succ by assumption. lia.
Qed.

Lemma bincount_sum (xs : list nat) (minlength : nat) :
  Forall (fun x => x < minlength) xs ->
  list_sum (bincount xs minlength) = Z.of_nat (length xs).
Proof.
  intros Hall. unfold bincount. rewrite (bincount_size xs minlength Hall).
  rewrite bincount_fold_sum by now rewrite length_replicate.
  now rewrite list_sum_replicate_0.
Qed.

Lemma matrix_sum_chunks (n m : nat) (flat : list Z) :
  matrix_sum (chunks n m flat) = list_sum (take (n * m) flat).
Proof.
  revert flat. induction n as [|n IH]; intros flat; [reflexivity|].
  change (matrix_sum (chunks (S n) m flat))
    with (list_sum (take m flat) + matrix_sum (chunks n m (drop m flat)))%Z.
  rewrite IH, <- list_sum_app, take_take_drop. reflexivity.
Qed.

Lemma bincount_nonneg (xs : list nat) (minlength : nat) :
  Forall (fun x => x < minlength) xs ->
  Forall (fun c => (0 <= c)%Z) (bincount xs minlength).
Proof.
  intros Hall. destruct (bincount_spec xs minlength Hall) as [Hlen Hcount].
  apply Forall_lookup. intros v c Hc.
  rewrite Hcount in Hc by (rewrite <- Hlen; eapply lookup_lt_Some; eassumption).
  injection Hc as <-. lia.
Qed.

Lemma chunks_Forall (P : Z -> Prop) (n m : nat) (flat : list Z) :
  Forall P flat -> Forall (Forall P) (chunks n m flat).
Proof.
  revert flat. induction n as [|n IH]; intros flat Hall; simpl; constructor.
  - now apply Forall_take.
  - apply IH. now apply Forall_drop.
Qed.

(** X9.  The matrix counts every edge exactly once: its entries are non-negative
    and add up to the number of edges. *)
Theorem build_matrix_counts_every_edge (edges_genes edges_genomes : list string)
    (adj : matrix Z) (genomes genes : list string) :
  length edges_genes = length edges_genomes ->
  build_copy_number_matrix edges_genes edges_genomes = Ok (adj, genomes, genes) ->
  matrix_sum (mrows adj) = Z.of_nat (length edges_genes) /\
  Forall (Forall (fun c => (0 <= c)%Z)) (mrows adj).
Proof.
  intros Hlen E.
  destruct (build_copy_number_matrix_Ok edges_genes edges_genomes Hlen) as [E' Hbound].
  rewrite E' in E. injection E as <- <- <-. simpl.
  destruct (bincount_spec _ _ Hbound) as [Hblen _]. split.
  - rewrite matrix_sum_chunks, take_ge by lia.
    rewrite bincount_sum by assumption.
    now rewrite length_fmap, length_zip_with, <- Hlen, Nat.min_id.
  - apply chunks_Forall. now apply bincount_nonneg.
Qed.

(** *** No empty row, no empty column *)

Lemma zip_partner_l (edges_genes edges_genomes : list string) (g : string) :
  length edges_genes = length edges_genomes -> g ∈ edges_genes ->
  exists s, (g, s) ∈ zip edges_genes edges_genomes.
Proof.
  intros Hlen Hg. apply list_elem_of_lookup_1 in Hg as [i Hi].
  destruct (lookup_lt_is_Some_2 edges_genomes i) as [s Hs].
  { rewrite <- Hlen. eapply lookup_lt_Some; eassumption. }
  exists s. exact (elem_of_lookup_zip_with_2 pair _ _ g s (g, s) i Hi Hs).
Qed.

Lemma zip_partner_r (edges_genes edges_genomes : list string) (s : string) :
  length edges_genes = length edges_genomes -> s ∈ edges_genomes ->
  exists g, (g, s) ∈ zip edges_genes edges_genomes.
Proof.
  intros Hlen Hs. apply list_elem_of_lookup_1 in Hs as [i Hi].
  destruct (lookup_lt_is_Some_2 edges_genes i) as [g Hg].
  { rewrite Hlen. eapply lookup_lt_Some; eassumption. }
  exists g. exact (elem_of_lookup_zip_with_2 pair _ _ g s (g, s) i Hg Hi).
Qed.

Lemma edge_count_pos (g s : string) (edges : list (string * string)) :
  (g, s) ∈ edges -> 0 < edge_count g s edges.
Proof.
  intros Hin. unfold edge_count.
  assert (Hf : (g, s) ∈ filter (fun e => e = (g, s)) edges)
    by (apply list_elem_of_filter; now split).
  destruct (filter (fun e => e = (g, s)) edges); [inversion Hf | simpl; lia].
Qed.

Lemma count_nonzero_pos (row : list Z) (j : nat) (x : Z) :
  row !! j = Some x -> x <> 0%Z -> 0 < count_nonzero row.
Proof.
  intros Hj Hx. unfold count_nonzero.
  assert (Hf : x ∈ filter (fun x => x <> 0%Z) row).
  { apply list_elem_of_filter. split; [assumption|].
    eapply list_elem_of_lookup_2; eassumption. }
  destruct (filter (fun x => x <> 0%Z) row); [inversion Hf | simpl; lia].
Qed.

(** X10.  Every gene family labelling a row occurs in some genome and every genome
    labelling a column holds some gene family: no row and no column of the
    matrix is all zero. *)
Theorem build_matrix_no_empty_row_or_column
    (edges_genes edges_genomes : list string)
    (adj : matrix Z) (genomes genes : list string) :
  length edges_genes = length edges_genomes ->
  build_copy_number_matrix edges_genes edges_genomes = Ok (adj, genomes, genes) ->
  Forall (fun row => 0 < count_nonzero row) (mrows adj) /\
  (forall j, j < ncols adj ->
     exists i x, entry (mrows adj) i j = Some x /\ (0 < x)%Z).
Proof.
  intros Hlen E.
  destruct (build_copy_number_matrix_Ok edges_genes edges_genomes Hlen) as [E' _].
  rewrite E' in E. injection E as <- <- <-. simpl. split.
  - apply Forall_lookup. intros i row Hrow.
    assert (Hi : i < length (np_unique edges_genes)).
    { rewrite <- (chunks_length (length (np_unique edges_genes))
                    (length (np_unique edges_genomes))
                    (bincount (edge_code (np_unique edges_genes) (np_unique edges_genomes)
                                 <$> zip edges_genes edges_genomes)
                       (length (np_unique edges_genes) * length (np_unique edges_genomes)))).
      eapply lookup_lt_Some; eassumption. }
    destruct (lookup_lt_is_Some_2 _ _ Hi) as [g Hg].
    assert (Hgin : g ∈ edges_genes).
    { apply elem_of_np_unique. eapply list_elem_of_lookup_2; eassumption. }
    destruct (zip_partner_l _ _ g Hlen Hgin) as [s Hgs].
    assert (Hsin : s ∈ np_unique edges_genomes).
    { apply elem_of_np_unique. eapply elem_of_zip_r; eassumption. }
    apply list_elem_of_lookup_1 in Hsin as [j Hs].
    pose proof (build_entry edges_genes edges_genomes i j g s Hlen Hg Hs) as Hentry.
    unfold entry in Hentry. rewrite Hrow in Hentry.
    apply (count_nonzero_pos row j _ Hentry).
    pose proof (edge_count_pos g s _ Hgs). lia.
  - intros j Hj. destruct (lookup_lt_is_Some_2 _ _ Hj) as [s Hs].
    assert (Hsin : s ∈ edges_genomes).
    { apply elem_of_np_unique. eapply list_elem_of_lookup_2; eassumption. }
    destruct (zip_partner_r _ _ s Hlen Hsin) as [g Hgs].
    assert (Hgin : g ∈ np_unique edges_genes).
    { apply elem_of_np_unique. eapply elem_of_zip_l; eassumption. }
    apply list_elem_of_lookup_1 in Hgin as [i Hg].
    exists i, (Z.of_nat (edge_count g s (zip edges_genes edges_genomes))).
    split; [now apply build_entry|].
    pose proof (edge_count_pos g s _ Hgs). lia.
Qed.

(** *** The order of the edges does not matter *)

Lemma occurrences_Permutation (v : nat) (xs ys : list nat) :
  xs ≡ₚ ys -> occurrences v xs = occurrences v ys.
Proof. intros Hp. unfold occurrences. now rewrite Hp. Qed.

Lemma bincount_Permutation (xs ys : list nat) (minlength : nat) :
  xs ≡ₚ ys -> Forall (fun x => x < minlength) xs ->
  bincount xs minlength = bincount ys minlength.
Proof.
  intros Hp Hxs.
  assert (Hys : Forall (fun x => x < minlength) ys) by now rewrite <- Hp.
  destruct (bincount_spec xs minlength Hxs) as [Hlx Hcx].
  destruct (bincount_spec ys minlength Hys) as [Hly Hcy].
  apply list_eq. intros v.
  destruct (Nat.lt_ge_cases v minlength) as [Hlt | Hge].
  - rewrite Hcx, Hcy by assumption. now rewrite (occurrences_Permutation v xs ys Hp).
  - rewrite !lookup_ge_None_2 by lia. reflexivity.
Qed.

(** X11.  The builder returns the same labels and the same matrix for every order
    of the edges. *)
Theorem build_matrix_order_independent
    (edges_genes edges_genomes edges_genes' edges_genomes' : list string) :
  length edges_genes = length edges_genomes ->
  length edges_genes' = length edges_genomes' ->
  zip edges_genes edges_genomes ≡ₚ zip edges_genes' edges_genomes' ->
  build_copy_number_matrix edges_genes edges_genomes
  = build_copy_number_matrix edges_genes' edges_genomes'.
Proof.
  intros Hlen Hlen' Hperm.
  destruct (build_copy_number_matrix_Ok edges_genes edges_genomes Hlen) as [E Hbound].
  destruct (build_copy_number_matrix_Ok edges_genes' edges_genomes' Hlen') as [E' _].
  rewrite E, E'. clear E E'.
  assert (Hg : edges_genes ≡ₚ edges_genes').
  { rewrite <- (fst_zip edges_genes edges_genomes) by lia.
    rewrite <- (fst_zip edges_genes' edges_genomes') by lia. now rewrite Hperm. }
  assert (Hs : edges_genomes ≡ₚ edges_genomes').
  { rewrite <- (snd_zip edges_genes edges_genomes) by lia.
    rewrite <- (snd_zip edges_genes' edges_genomes') by lia. now rewrite Hperm. }
  assert (Hug : np_unique edges_genes = np_unique edges_genes').
  { apply np_unique_determined. intros x. now rewrite Hg. }
  assert (Hus : np_unique edges_genomes = np_unique edges_genomes').
  { apply np_unique_determined. intros x. now rewrite Hs. }
  rewrite <- Hug, <- Hus.
  rewrite (bincount_Permutation _
             (edge_code (np_unique edges_genes) (np_unique edges_genomes)
                <$> zip edges_genes' edges_genomes') _); [reflexivity | | assumption].
  now rewrite Hperm.
Qed.

(** ** More on the coverage filter *)

Lemma select_mask_sublist {A : Type} (xs : list A) (mask : list bool) :
  select_mask xs mask `sublist_of` xs.
Proof.
  revert mask. induction xs as [|x xs IH]; intros [|b mask]; simpl;
    try apply sublist_nil_l.
  destruct b; [apply sublist_skip | apply sublist_cons]; apply IH.
Qed.

Lemma select_mask_mono {A : Type} (xs : list A) (m1 m2 : list bool) :
  Forall2 (fun b2 b1 => b2 = true -> b1 = true) m2 m1 ->
  select_mask xs m2 `sublist_of` select_mask xs m1.
Proof.
  intros Hm. revert xs. induction Hm as [|b2 b1 m2 m1 Hb Hm IH]; intros [|x xs]; simpl;
    try apply sublist_nil_l.
  destruct b2.
  - rewrite (Hb eq_refl). apply sublist_skip, IH.
  - destruct b1; [apply sublist_cons|]; apply IH.
Qed.

Lemma select_mask_all {A : Type} (xs : list A) (mask : list bool) :
  length mask = length xs -> Forall (fun b => b = true) mask ->
  select_mask xs mask = xs.
Proof.
  intros Hlen Hall. revert xs Hlen.
  induction Hall as [|b mask -> Hall IH]; intros [|x xs] Hlen; try discriminate;
    [reflexivity|].
  simpl. f_equal. apply IH. now injection Hlen.
Qed.


(** X12.  Whatever it keeps, the coverage filter keeps genomes of its input, in
    their order, each at most once per position. *)
Theorem genomes_to_keep_sublist (adj : matrix Z) (k : Z) (markers_index : list nat)
    (min_markers : pynumber) (genomes kept : list string) :
  get_genomes_to_keep adj k markers_index min_markers genomes = Ok kept ->
  kept `sublist_of` genomes.
Proof.
  unfold get_genomes_to_keep. intros E.
  apply bind_Ok_inv in E as (totals & _ & E). unfold mask_index in E.
  destruct (length genomes =? length _); [|discriminate].
  injection E as <-. apply select_mask_sublist.
Qed.


(** X14.  Raising the threshold never adds a genome: the genomes kept under the
    larger threshold are among the genomes kept under the smaller one. *)
Theorem genomes_to_keep_antitone (adj : matrix Z) (k : Z) (markers_index : list nat)
    (min_markers min_markers' : pynumber) (genomes kept kept' : list string) :
  (pynumber_value (coverage_threshold min_markers k)
   <= pynumber_value (coverage_threshold min_markers' k))%Q ->
  get_genomes_to_keep adj k markers_index min_markers genomes = Ok kept ->
  get_genomes_to_keep adj k markers_index min_markers' genomes = Ok kept' ->
  kept' `sublist_of` kept.
Proof.
  unfold get_genomes_to_keep. intros Hle E E'.
  apply bind_Ok_inv in E as (totals & Htot & E). rewrite Htot in E'. simpl in E'.
  unfold mask_index in E, E'. rewrite length_fmap in E, E'.
  destruct (length genomes =? length totals); [|discriminate].
  injection E as <-. injection E' as <-.
  apply select_mask_mono. apply Forall2_fmap, Forall_Forall2_diag, Forall_forall.
  intros total _. rewrite !ge_threshold_value, !Qle_bool_iff. intros H'.
  exact (Qle_trans _ _ _ Hle H').
Qed.

Lemma sum_axis0_nonneg (m : nat) (rs : list (list Z)) :
  Forall (Forall (fun x => (0 <= x)%Z)) rs ->
  Forall (fun x => (0 <= x)%Z) (sum_axis0 m rs).
Proof.
  intros Hrs. induction Hrs as [|r rs Hr Hrs IH].
  - apply Forall_replicate. lia.
  - change (sum_axis0 m (r :: rs)) with (zip_with Z.add r (sum_axis0 m rs)).
    apply Forall_lookup. intros j x Hx.
    apply lookup_zip_with_Some in Hx as (a & b & -> & Ha & Hb).
    pose proof (Forall_lookup_1 _ _ _ _ Hr Ha). pose proof (Forall_lookup_1 _ _ _ _ IH Hb).
    simpl in *. lia.
Qed.

(** X15.  On a matrix of non-negative counts, a threshold of zero or less keeps
    every genome. *)
Theorem genomes_to_keep_all (adj : matrix Z) (k : Z) (markers_index : list nat)
    (min_markers : pynumber) (genomes : list string) :
  matrix_wf adj ->
  Forall (Forall (fun x => (0 <= x)%Z)) (mrows adj) ->
  Forall (fun i => i < nrows adj) markers_index ->
  length genomes = ncols adj ->
  (pynumber_value (coverage_threshold min_markers k) <= 0)%Q ->
  get_genomes_to_keep adj k markers_index min_markers genomes = Ok genomes.
Proof.
  intros Hwf Hnn Hidx Hlen Hle. unfold get_genomes_to_keep.
  destruct (marker_totals_Ok adj markers_index Hwf Hidx) as (totals & Htot & Hl & _).
  rewrite Htot. simpl. rewrite mask_index_Ok by (rewrite length_fmap; lia).
  f_equal. apply select_mask_all; [rewrite length_fmap; lia|].
  apply Forall_fmap, Forall_lookup. intros j total Hj. simpl.
  rewrite ge_threshold_value. apply Qle_bool_iff.
  apply (Qle_trans _ 0); [assumption|].
  unfold marker_totals in Htot. apply bind_Ok_inv in Htot as (rs & Hrs & [= <-]).
  assert (Hrsnn : Forall (Forall (fun x => (0 <= x)%Z)) rs).
  { destruct (take_rows_Ok (mrows adj) markers_index Hidx) as (rs' & Hrs' & Hall).
    rewrite Hrs in Hrs'. injection Hrs' as <-.
    apply Forall_lookup. intros n r Hr.
    destruct (Forall2_lookup_r _ _ _ _ _ Hall Hr) as (i & _ & Hi).
    exact (Forall_lookup_1 _ _ _ _ Hnn Hi). }
  pose proof (Forall_lookup_1 _ _ _ _ (sum_axis0_nonneg (ncols adj) rs Hrsnn) Hj) as H0.
  simpl in H0. change 0%Q with (inject_Z 0). now rewrite <- Zle_Qle.
Qed.

(** ** More on the copy filter *)

Lemma filter_sublist_of {A : Type} (f : A -> bool) (l : list A) :
  List.filter f l `sublist_of` l.
Proof.
  induction l as [|x l IH]; simpl; [constructor|].
  destruct (f x); [now apply sublist_skip | now apply sublist_cons].
Qed.

Lemma filter_sublist_mono {A : Type} (f f' : A -> bool) (l : list A) :
  (forall x, x ∈ l -> f' x = true -> f x = true) ->
  List.filter f' l `sublist_of` List.filter f l.
Proof.
  induction l as [|x l IH]; intros Himp; simpl; [constructor|].
  assert (IH' : List.filter f' l `sublist_of` List.filter f l).
  { apply IH. intros y Hy. apply Himp. now apply list_elem_of_further. }
  destruct (f' x) eqn:E'.
  - rewrite (Himp x (list_elem_of_here x l) E'). now apply sublist_skip.
  - destruct (f x); [now apply sublist_cons | assumption].
Qed.

Lemma row_max_score_same_group (df : list annotation) (r r' : annotation) :
  r ∈ df -> group_key r' = group_key r ->
  row_max_score df r' = row_max_score df r.
Proof.
  intros Hr Hk. unfold row_max_score. rewrite Hk.
  pose proof (group_max_lookup df (group_key r)) as Hl.
  destruct (group_max df !! group_key r); [reflexivity|].
  exfalso. exact (Hl r Hr eq_refl).
Qed.

(** The record holding the maximum of the group of [r]. *)
Lemma group_max_record (df : list annotation) (r : annotation) :
  r ∈ df ->
  exists r', r' ∈ df /\ group_key r' = group_key r /\
             bit_score r' = row_max_score df r /\
             row_max_score df r' = row_max_score df r.
Proof.
  intros Hr. destruct (row_max_score_is_group_max df r Hr) as [(r' & Hr' & Hk & Hs) _].
  exists r'. repeat split; try assumption. now apply row_max_score_same_group.
Qed.

Lemma kept_iff (df : list annotation) (t : Q) (r : annotation) :
  r ∈ List.filter (fun r => Qle_bool (float_mul (row_max_score df r) t) (bit_score r)) df <->
  r ∈ df /\ (float_mul (row_max_score df r) t <= bit_score r)%Q.
Proof.
  now rewrite list_elem_of_In, List.filter_In, <- list_elem_of_In, Qle_bool_iff.
Qed.

(** X16.  The copy filter only removes records: it returns records of its input,
    in their order. *)
Theorem filter_copies_sublist (df kept : list annotation) (t : Q) :
  filter_copies df t = Ok kept -> kept `sublist_of` df.
Proof.
  unfold filter_copies. destruct (negb _); [discriminate|].
  unfold mask_index. destruct (length df =? _); [|discriminate].
  intros [= <-]. apply select_mask_sublist.
Qed.

Lemma filter_copies_keeps_every_group_aux (df kept : list annotation) (t : Q) :
  (forall r, r ∈ df -> is_float (bit_score r)) ->
  (forall r, r ∈ df -> (0 <= bit_score r)%Q) ->
  filter_copies df t = Ok kept ->
  (forall r, r ∈ df ->
     exists r', r' ∈ kept /\ group_key r' = group_key r /\
                forall r'', r'' ∈ df -> group_key r'' = group_key r ->
                            (bit_score r'' <= bit_score r')%Q) /\
  (forall r, r ∈ kept -> r ∈ df) /\
  np_unique (gene_family <$> kept) = np_unique (gene_family <$> df) /\
  np_unique (genome <$> kept) = np_unique (genome <$> df).
Proof.
  intros Hfl Hnn E.
  assert (Ht : (0 <= t <= 1)%Q).
  { unfold filter_copies in E.
    destruct (Qle_bool 0 t && Qle_bool t 1) eqn:Hc; [|discriminate].
    now apply threshold_check. }
  rewrite (filter_copies_Ok df t Ht) in E. injection E as <-.
  assert (Hgroup : forall r, r ∈ df ->
            exists r', r' ∈ List.filter
                         (fun r => Qle_bool (float_mul (row_max_score df r) t)
                                     (bit_score r)) df /\
                       group_key r' = group_key r /\
                       forall r'', r'' ∈ df -> group_key r'' = group_key r ->
                                   (bit_score r'' <= bit_score r')%Q).
  { intros r Hr. destruct (group_max_record df r Hr) as (r' & Hr' & Hk & Hs & Hm).
    exists r'. split; [|split; [assumption|]].
    - apply kept_iff. split; [assumption|]. rewrite Hm, <- Hs.
      apply float_mul_le; [now apply Hfl | now apply Hnn | exact Ht].
    - intros r'' Hr'' Hk''. rewrite Hs.
      destruct (row_max_score_is_group_max df r Hr) as [_ Hmax]. now apply Hmax. }
  split; [exact Hgroup|].
  assert (Hsub : forall r, r ∈ List.filter
                   (fun r => Qle_bool (float_mul (row_max_score df r) t) (bit_score r)) df ->
                 r ∈ df).
  { intros r Hr. now apply kept_iff in Hr as [Hr _]. }
  split; [exact Hsub|].
  split; apply np_unique_determined; intros x; rewrite !list_elem_of_fmap; split.
  - intros (r & -> & Hr). exists r. split; [reflexivity | now apply Hsub].
  - intros (r & -> & Hr). destruct (Hgroup r Hr) as (r' & Hr' & Hk & _).
    exists r'. split; [|assumption]. unfold group_key in Hk. congruence.
  - intros (r & -> & Hr). exists r. split; [reflexivity | now apply Hsub].
  - intros (r & -> & Hr). destruct (Hgroup r Hr) as (r' & Hr' & Hk & _).
    exists r'. split; [|assumption]. unfold group_key in Hk. congruence.
Qed.

(** X17.  With non-negative scores (floats, as the scores are), no (genome,
    gene family) group is lost: a record holding the maximum score of the
    group is always retained, so the gene families and the genomes of the
    table are those of the filtered table. *)
Theorem filter_copies_keeps_every_group (df kept : list annotation) (t : Q) :
  (forall r, r ∈ df -> is_float (bit_score r)) ->
  (forall r, r ∈ df -> (0 <= bit_score r)%Q) ->
  filter_copies df t = Ok kept ->
  (forall r, r ∈ df ->
     exists r', r' ∈ kept /\ group_key r' = group_key r /\
                forall r'', r'' ∈ df -> group_key r'' = group_key r ->
                            (bit_score r'' <= bit_score r')%Q) /\
  np_unique (gene_family <$> kept) = np_unique (gene_family <$> df) /\
  np_unique (genome <$> kept) = np_unique (genome <$> df).
Proof.
  intros Hfl Hnn E.
  destruct (filter_copies_keeps_every_group_aux df kept t Hfl Hnn E) as (H1 & _ & H2 & H3).
  now repeat split.
Qed.

(** X18.  With non-negative scores, a higher threshold retains fewer records: the
    records retained at the higher threshold are among those retained at the
    lower one. *)
Theorem filter_copies_antitone (df kept kept' : list annotation) (t t' : Q) :
  (forall r, r ∈ df -> (0 <= bit_score r)%Q) ->
  (t <= t')%Q ->
  filter_copies df t = Ok kept ->
  filter_copies df t' = Ok kept' ->
  kept' `sublist_of` kept.
Proof.
  intros Hnn Hle E E'.
  assert (Ht : (0 <= t <= 1)%Q).
  { unfold filter_copies in E.
    destruct (Qle_bool 0 t && Qle_bool t 1) eqn:Hc; [|discriminate].
    now apply threshold_check. }
  assert (Ht' : (0 <= t' <= 1)%Q).
  { unfold filter_copies in E'.
    destruct (Qle_bool 0 t' && Qle_bool t' 1) eqn:Hc; [|discriminate].
    now apply threshold_check. }
  rewrite (filter_copies_Ok df t Ht) in E. rewrite (filter_copies_Ok df t' Ht') in E'.
  injection E as <-. injection E' as <-.
  apply filter_sublist_mono. intros r Hr. rewrite !Qle_bool_iff. intros H'.
  destruct (group_max_record df r Hr) as (r' & Hr' & _ & Hs & _).
  assert (Hm : (0 <= row_max_score df r)%Q) by (rewrite <- Hs; now apply Hnn).
  apply (Qle_trans _ (float_mul (row_max_score df r) t')); [|assumption].
  apply float_mul_mono_r; [exact Hm | apply Ht | exact Hle].
Qed.

(** X19.  With non-negative scores (floats, as the scores are) the copy filter
    is idempotent: filtering the filtered table again at the same threshold
    removes nothing. *)
Theorem filter_copies_idempotent (df kept : list annotation) (t : Q) :
  (forall r, r ∈ df -> is_float (bit_score r)) ->
  (forall r, r ∈ df -> (0 <= bit_score r)%Q) ->
  filter_copies df t = Ok kept ->
  filter_copies kept t = Ok kept.
Proof.
  intros Hfl Hnn E.
  assert (Ht : (0 <= t <= 1)%Q).
  { unfold filter_copies in E.
    destruct (Qle_bool 0 t && Qle_bool t 1) eqn:Hc; [|discriminate].
    now apply threshold_check. }
  rewrite (filter_copies_Ok df t Ht) in E. injection E as <-.
  set (kept := List.filter
                 (fun r => Qle_bool (float_mul (row_max_score df r) t) (bit_score r)) df).
  rewrite (filter_copies_Ok kept t Ht). f_equal. apply filter_all.
  intros r Hr. apply Qle_bool_iff.
  pose proof Hr as Hr0. apply kept_iff in Hr0 as [Hdf Hle].
  assert (Hmax : is_group_max kept r (row_max_score df r)).
  { destruct (group_max_record df r Hdf) as (r' & Hr' & Hk & Hs & Hm). split.
    - exists r'. split; [|now split]. apply kept_iff. split; [assumption|].
      rewrite Hm, <- Hs. apply float_mul_le; [now apply Hfl | now apply Hnn | exact Ht].
    - intros r'' Hr'' Hk''. apply kept_iff in Hr'' as [Hr'' _].
      destruct (row_max_score_is_group_max df r Hdf) as [_ Hall]. now apply Hall. }
  rewrite (float_mul_proper (row_max_score kept r) (row_max_score df r) t t);
    [assumption | | apply Qeq_refl].
  exact (is_group_max_unique kept r _ _ (row_max_score_is_group_max kept r Hr) Hmax).
Qed.

(** ** The matrix the selector receives *)

Lemma zip_fmap_fmap {A B C : Type} (f : A -> B) (g : A -> C) (l : list A) :
  zip (f <$> l) (g <$> l) = (fun x => (f x, g x)) <$> l.
Proof. induction l as [|x l IH]; [reflexivity|]. rewrite !fmap_cons. simpl. now rewrite IH. Qed.

Lemma edge_count_pos_iff (g s : string) (edges : list (string * string)) :
  0 < edge_count g s edges <-> (g, s) ∈ edges.
Proof.
  split; [|apply edge_count_pos]. unfold edge_count. intros Hpos.
  destruct (filter (fun e => e = (g, s)) edges) as [|e l] eqn:E; [simpl in Hpos; lia|].
  assert (He : e ∈ filter (fun e => e = (g, s)) edges) by (rewrite E; apply list_elem_of_here).
  apply list_elem_of_filter in He as [-> He]. assumption.
Qed.

Lemma count_nonzero_same_pattern (row row' : list Z) :
  Forall2 (fun x y => x <> 0%Z <-> y <> 0%Z) row row' ->
  count_nonzero row = count_nonzero row'.
Proof.
  unfold count_nonzero. induction 1 as [|x y row row' Hxy Hrows IH]; [reflexivity|].
  destruct (decide (x <> 0%Z)) as [Hx | Hx].
  - rewrite (filter_cons_True _ x) by assumption.
    rewrite (filter_cons_True _ y) by now apply Hxy. simpl. now rewrite IH.
  - rewrite (filter_cons_False _ x) by assumption.
    rewrite (filter_cons_False _ y) by (intros Hy; now apply Hx, Hxy). assumption.
Qed.

Lemma edges_of_table (l : list annotation) (g s : string) :
  (g, s) ∈ zip (gene_family <$> l) (genome <$> l) <->
  exists r, r ∈ l /\ gene_family r = g /\ genome r = s.
Proof.
  rewrite zip_fmap_fmap, list_elem_of_fmap. split.
  - intros (r & [= -> ->] & Hr). eauto.
  - intros (r & Hr & <- & <-). eauto.
Qed.

(** The rows of two built matrices with the same labels have the same
    non-zero pattern when the edge lists hold the same pairs. *)
Lemma same_presence_same_sparse_rows (eg es eg0 es0 : list string) :
  length eg = length es -> length eg0 = length es0 ->
  np_unique eg = np_unique eg0 -> np_unique es = np_unique es0 ->
  (forall g s, (g, s) ∈ zip eg es <-> (g, s) ∈ zip eg0 es0) ->
  let n := length (np_unique eg0) in
  let m := length (np_unique es0) in
  let rows := chunks n m (bincount (edge_code (np_unique eg0) (np_unique es0) <$> zip eg es)
                            (n * m)) in
  let rows0 := chunks n m (bincount (edge_code (np_unique eg0) (np_unique es0) <$> zip eg0 es0)
                             (n * m)) in
  (forall i j x x0, entry rows i j = Some x -> entry rows0 i j = Some x0 ->
                    (x <> 0%Z <-> x0 <> 0%Z)) /\
  (fun row => count_nonzero row <? 4) <$> rows = (fun row => count_nonzero row <? 4) <$> rows0.
Proof.
  intros Hlen Hlen0 Hug Hus Hiff n m rows rows0.
  destruct (build_copy_number_matrix_Ok eg es Hlen) as [_ Hb].
  destruct (build_copy_number_matrix_Ok eg0 es0 Hlen0) as [_ Hb0].
  rewrite Hug, Hus in Hb. fold n m in Hb, Hb0.
  destruct (bincount_spec _ _ Hb) as [Hl _]. destruct (bincount_spec _ _ Hb0) as [Hl0 _].
  assert (Hpattern : forall i j x x0, entry rows i j = Some x -> entry rows0 i j = Some x0 ->
                                      (x <> 0%Z <-> x0 <> 0%Z)).
  { intros i j x x0 Hx Hx0.
    assert (Hi : i < n).
    { unfold entry in Hx0. destruct (rows0 !! i) eqn:Hrow; [|discriminate].
      apply lookup_lt_Some in Hrow. unfold rows0 in Hrow. now rewrite chunks_length in Hrow. }
    assert (Hj : j < m).
    { unfold entry, rows0 in Hx0. rewrite chunks_lookup in Hx0 by assumption.
      apply lookup_lt_Some in Hx0. rewrite length_take in Hx0. lia. }
    destruct (lookup_lt_is_Some_2 (np_unique eg0) i Hi) as [g Hg].
    destruct (lookup_lt_is_Some_2 (np_unique es0) j Hj) as [s Hs].
    pose proof (build_entry eg0 es0 i j g s Hlen0 Hg Hs) as He0.
    assert (Hg' : np_unique eg !! i = Some g) by now rewrite Hug.
    assert (Hs' : np_unique es !! j = Some s) by now rewrite Hus.
    pose proof (build_entry eg es i j g s Hlen Hg' Hs') as He.
    rewrite Hug, Hus in He. fold n m in He, He0. fold rows in He. fold rows0 in He0.
    rewrite He in Hx. rewrite He0 in Hx0. injection Hx as <-. injection Hx0 as <-.
    specialize (Hiff g s). rewrite <- !edge_count_pos_iff in Hiff. lia. }
  split; [exact Hpattern|].
  apply list_eq. intros i. rewrite !list_lookup_fmap.
  destruct (Nat.lt_ge_cases i n) as [Hi | Hi].
  - unfold rows, rows0. rewrite !chunks_lookup by assumption. simpl. f_equal. f_equal.
    apply count_nonzero_same_pattern. apply Forall2_same_length_lookup_2.
    + rewrite !length_take, !length_drop, Hl, Hl0. reflexivity.
    + intros j x x0 Hx Hx0. apply (Hpattern i j x x0).
      * unfold entry, rows. rewrite chunks_lookup by assumption. exact Hx.
      * unfold entry, rows0. rewrite chunks_lookup by assumption. exact Hx0.
  - unfold rows, rows0. rewrite !lookup_ge_None_2 by (rewrite chunks_length; lia).
    reflexivity.
Qed.

(** X20.  With non-negative scores (floats, as the scores are), the copy
    threshold changes copy numbers but not presence: the matrix built from
    the filtered table has the labels of the matrix built from the whole
    table and is non-zero at the same entries, so the sparsity filter
    removes the same gene families whatever the threshold. *)
Theorem sparse_genes_independent_of_threshold
    (df kept : list annotation) (t : Q)
    (adj adj0 : matrix Z) (genomes genomes0 genes genes0 : list string) :
  (forall r, r ∈ df -> is_float (bit_score r)) ->
  (forall r, r ∈ df -> (0 <= bit_score r)%Q) ->
  filter_copies df t = Ok kept ->
  build_copy_number_matrix (get_edges kept).1 (get_edges kept).2 = Ok (adj, genomes, genes) ->
  build_copy_number_matrix (get_edges df).1 (get_edges df).2 = Ok (adj0, genomes0, genes0) ->
  genes = genes0 /\ genomes = genomes0 /\
  (forall i j x x0,
     entry (mrows adj) i j = Some x -> entry (mrows adj0) i j = Some x0 ->
     (x <> 0%Z <-> x0 <> 0%Z)) /\
  remove_genes adj = remove_genes adj0.
Proof.
  intros Hfl Hnn E B B0. cbn [get_edges fst snd] in B, B0.
  destruct (filter_copies_keeps_every_group_aux df kept t Hfl Hnn E)
    as (Hgroup & Hsub & Hug & Hus).
  assert (Hlen : length (gene_family <$> kept) = length (genome <$> kept))
    by now rewrite !length_fmap.
  assert (Hlen0 : length (gene_family <$> df) = length (genome <$> df))
    by now rewrite !length_fmap.
  destruct (build_copy_number_matrix_Ok _ _ Hlen) as [B' _].
  destruct (build_copy_number_matrix_Ok _ _ Hlen0) as [B0' _].
  rewrite B' in B. rewrite B0' in B0. clear B' B0'.
  rewrite Hug, Hus in B.
  injection B as <- <- <-. injection B0 as <- <- <-.
  split; [reflexivity|]. split; [reflexivity|].
  assert (Hiff : forall g s, (g, s) ∈ zip (gene_family <$> kept) (genome <$> kept) <->
                             (g, s) ∈ zip (gene_family <$> df) (genome <$> df)).
  { intros g s. rewrite !edges_of_table. split.
    - intros (r & Hr & Hrg & Hrs). exists r. split; [now apply Hsub | now split].
    - intros (r & Hr & Hrg & Hrs). destruct (Hgroup r Hr) as (r' & Hr' & Hk & _).
      exists r'. split; [assumption|]. unfold group_key in Hk. split; congruence. }
  destruct (same_presence_same_sparse_rows _ _ _ _ Hlen Hlen0 Hug Hus Hiff) as [Hpat Hmask].
  split; [exact Hpat|]. unfold remove_genes. cbn [mrows]. now rewrite Hmask.
Qed.

Lemma StronglySorted_sublist {A : Type} (R : A -> A -> Prop) (k l : list A) :
  k `sublist_of` l -> StronglySorted R l -> StronglySorted R k.
Proof.
  induction 1 as [|x k l Hsub IH|x k l Hsub IH]; intros Hs.
  - constructor.
  - apply StronglySorted_inv in Hs as [Hs Hall]. constructor; [now apply IH|].
    apply Forall_forall. intros y Hy. rewrite Forall_forall in Hall.
    apply Hall. eapply elem_of_sublist; eassumption.
  - apply StronglySorted_inv in Hs as [Hs _]. now apply IH.
Qed.

Lemma select_mask_length {A B : Type} (f : B -> bool) (xs : list A) (ys : list B) :
  length xs = length ys ->
  length (select_mask xs (f <$> ys)) = length (List.filter f ys).
Proof.
  revert ys. induction xs as [|x xs IH]; intros [|y ys] Hlen; try discriminate;
    [reflexivity|].
  injection Hlen as Hlen. rewrite fmap_cons. cbn [select_mask List.filter].
  destruct (f y); simpl; now rewrite (IH ys Hlen).
Qed.

Lemma filter_zip_lookup {A B : Type} (f : A * B -> bool) (xs : list A) (ys : list B)
    (i : nat) (x : A) (y : B) :
  List.filter f (zip xs ys) !! i = Some (x, y) ->
  f (x, y) = true /\ exists i0, xs !! i0 = Some x /\ ys !! i0 = Some y.
Proof.
  intros Hi. apply list_elem_of_lookup_2, list_elem_of_In, List.filter_In in Hi as [Hin Hf].
  split; [assumption|]. apply list_elem_of_In, elem_of_lookup_zip_with_1 in Hin.
  destruct Hin as (i0 & x' & y' & [= -> ->] & Hx & Hy). eauto.
Qed.

Lemma prepare_matrix_facts (df : list annotation) (t : Q) :
  ((exists e, prepare_matrix df t = Raise e) <-> ~ (0 <= t <= 1)%Q) /\
  (forall adj_mod genomes genes_mod,
     prepare_matrix df t = Ok (adj_mod, genomes, genes_mod) ->
     exists kept,
       filter_copies df t = Ok kept /\
       matrix_wf adj_mod /\
       length genes_mod = nrows adj_mod /\
       length genomes = ncols adj_mod /\
       StronglySorted label_lt genes_mod /\
       StronglySorted label_lt genomes /\
       Forall (fun row => 4 <= count_nonzero row) (mrows adj_mod) /\
       forall i j g s,
         genes_mod !! i = Some g -> genomes !! j = Some s ->
         entry (mrows adj_mod) i j
         = Some (Z.of_nat (edge_count g s (zip (gene_family <$> kept) (genome <$> kept))))).
Proof.
  assert (Hrun : forall kept, filter_copies df t = Ok kept ->
            exists adj genes,
              build_copy_number_matrix (gene_family <$> kept) (genome <$> kept)
              = Ok (adj, np_unique (genome <$> kept), genes) /\
              genes = np_unique (gene_family <$> kept) /\
              ncols adj = length (np_unique (genome <$> kept)) /\
              mrows adj = chunks (length genes) (ncols adj)
                            (bincount (edge_code genes (np_unique (genome <$> kept))
                                         <$> zip (gene_family <$> kept) (genome <$> kept))
                               (length genes * ncols adj)) /\
              prepare_matrix df t
              = Ok ({| ncols := ncols adj; mrows := List.filter dense (mrows adj) |},
                    np_unique (genome <$> kept),
                    select_mask genes (dense <$> mrows adj))).
  { intros kept E.
    assert (Hlen : length (gene_family <$> kept) = length (genome <$> kept))
      by now rewrite !length_fmap.
    destruct (build_copy_number_matrix_Ok _ _ Hlen) as [B _].
    eexists _, _. split; [exact B|]. split; [reflexivity|]. split; [reflexivity|].
    split; [reflexivity|].
    unfold prepare_matrix. rewrite E. cbn [bind get_edges fst snd]. rewrite B.
    cbn [bind fst snd].
    rewrite (remove_genes_delete _ (np_unique (gene_family <$> kept)))
      by (unfold nrows; cbn [mrows]; now rewrite chunks_length).
    cbn [bind]. rewrite (remove_genes_delete _ _ eq_refl). cbn [bind].
    now rewrite select_mask_fmap_filter. }
  split.
  - split.
    + intros [e He] Ht. destruct (filter_copies df t) as [kept|e'] eqn:E.
      * destruct (Hrun kept eq_refl) as (adj & genes & _ & _ & _ & _ & Hp).
        rewrite Hp in He. discriminate.
      * rewrite (filter_copies_Ok df t Ht) in E. discriminate.
    + intros Ht. exists InvalidThreshold. unfold prepare_matrix, filter_copies.
      destruct (Qle_bool 0 t && Qle_bool t 1) eqn:Hc; [|reflexivity].
      apply threshold_check in Hc. contradiction.
  - intros adj_mod genomes genes_mod Hp.
    destruct (filter_copies df t) as [kept|e'] eqn:E.
    2:{ unfold prepare_matrix in Hp. rewrite E in Hp. discriminate. }
    exists kept. split; [reflexivity|].
    destruct (Hrun kept eq_refl) as (adj & genes & B & -> & Hm & Hrows & Hp').
    rewrite Hp' in Hp. injection Hp as <- <- <-.
    assert (Hlen : length (gene_family <$> kept) = length (genome <$> kept))
      by now rewrite !length_fmap.
    destruct (build_copy_number_matrix_Ok _ _ Hlen) as [_ Hb].
    destruct (bincount_spec _ _ Hb) as [Hbl _].
    assert (Hwf : Forall (fun r => length r = ncols adj) (mrows adj)).
    { rewrite Hrows. apply chunks_wf. now rewrite Hm. }
    assert (Hn : length (np_unique (gene_family <$> kept)) = length (mrows adj)).
    { now rewrite Hrows, chunks_length. }
    assert (Hzip : zip (select_mask (np_unique (gene_family <$> kept)) (dense <$> mrows adj))
                       (List.filter dense (mrows adj))
                   = List.filter (fun gr => dense gr.2)
                       (zip (np_unique (gene_family <$> kept)) (mrows adj)))
      by now apply select_mask_zip.
    assert (Hlen' : length (select_mask (np_unique (gene_family <$> kept))
                              (dense <$> mrows adj))
                    = length (List.filter dense (mrows adj)))
      by now apply select_mask_length.
    split.
    { unfold matrix_wf. cbn [mrows ncols]. apply Forall_forall. intros r Hr.
      apply list_elem_of_In, List.filter_In in Hr as [Hr _].
      rewrite Forall_forall in Hwf. apply Hwf. now apply list_elem_of_In. }
    split; [exact Hlen'|]. split; [cbn [ncols]; now rewrite Hm|].
    split.
    { eapply StronglySorted_sublist; [apply select_mask_sublist | apply np_unique_sorted]. }
    split; [apply np_unique_sorted|]. split.
    { cbn [mrows]. apply Forall_forall. intros r Hr.
      apply list_elem_of_In, List.filter_In in Hr as [_ Hd]. now apply Nat.leb_le. }
    intros i j g s Hg Hs. cbn [mrows].
    assert (Hi : i < length (List.filter dense (mrows adj))).
    { rewrite <- Hlen'. eapply lookup_lt_Some; eassumption. }
    destruct (lookup_lt_is_Some_2 _ _ Hi) as [row Hrow].
    assert (Hpair : List.filter (fun gr => dense gr.2)
                      (zip (np_unique (gene_family <$> kept)) (mrows adj)) !! i
                    = Some (g, row)).
    { rewrite <- Hzip. apply lookup_zip_with_Some. eauto. }
    apply filter_zip_lookup in Hpair as (_ & i0 & Hg0 & Hrow0).
    unfold entry. rewrite Hrow.
    pose proof (build_entry _ _ i0 j g s Hlen Hg0 Hs) as He.
    unfold entry in He. rewrite <- Hm, <- Hrows, Hrow0 in He. exact He.
Qed.

(** X21.  From the annotation table to the matrix given to the selector: the
    steps fail only on a threshold outside [0, 1]; the matrix they produce is
    rectangular, its rows (labelled by the remaining gene families, in
    sorted order) all have at least four non-zero entries, and its entry for
    a gene family and a genome is the number of retained records of that
    family in that genome. *)
Theorem prepare_matrix_spec (df : list annotation) (t : Q) :
  ((exists e, prepare_matrix df t = Raise e) <-> ~ (0 <= t <= 1)%Q) /\
  (forall adj_mod genomes genes_mod,
     prepare_matrix df t = Ok (adj_mod, genomes, genes_mod) ->
     exists kept,
       filter_copies df t = Ok kept /\
       matrix_wf adj_mod /\
       length genes_mod = nrows adj_mod /\
       length genomes = ncols adj_mod /\
       StronglySorted label_lt genes_mod /\
       StronglySorted label_lt genomes /\
       Forall (fun row => 4 <= count_nonzero row) (mrows adj_mod) /\
       forall i j g s,
         genes_mod !! i = Some g -> genomes !! j = Some s ->
         entry (mrows adj_mod) i j
         = Some (Z.of_nat (edge_count g s (zip (gene_family <$> kept) (genome <$> kept))))).
Proof. exact (prepare_matrix_facts df t). Qed.

(** ** From the selection to the coverage filter *)

Lemma lookup_names_NoDup {A : Type} (labels : list A) (sel : list nat) (names : list A) :
  NoDup labels -> NoDup sel ->
  Forall2 (fun g name => labels !! g = Some name) sel names ->
  NoDup names.
Proof.
  intros Hl Hs Hn. induction Hn as [|g name sel names Hg Hn IH]; [constructor|].
  apply NoDup_cons in Hs as [Hnotin Hs]. constructor; [|now apply IH].
  intros Hin. apply list_elem_of_lookup_1 in Hin as [i Hi].
  destruct (Forall2_lookup_r _ _ _ _ _ Hn Hi) as (g' & Hg' & Hlg').
  assert (g = g') by exact (NoDup_lookup labels g g' name Hl Hg Hlg'). subst g'.
  apply Hnotin. eapply list_elem_of_lookup_2; eassumption.
Qed.

Section SelectionToCoverage.
Context {num : Type} `{Numeric num}.
Variable pmean : Z -> list num -> num.
Variable of_int : Z -> num.

Lemma greedy_Ok_selection (d : matrix num) (k : Z) (p : exponent) (c : num)
    (sel : list nat) :
  greedy_power_mean_sample_final pmean d k p c = Ok sel ->
  length sel = Z.to_nat k /\ NoDup sel /\ Forall (fun g => g < nrows d) sel.
Proof.
  intros E. apply greedy_Ok_inv in E as (st & Hrun & <-).
  destruct (greedy_run_invariants pmean d k p c st Hrun) as (Hinv & _ & _).
  apply greedy_run_Ok_inv in Hrun as [_ Hloop].
  destruct (select_loop_selected pmean _ _ _ _ Hloop) as (more & Hsel & Hlen).
  simpl in Hsel. split; [now rewrite Hsel|]. now apply loop_inv_selected.
Qed.

(** X22.  After a successful selection of [k >= 1] markers on the prepared matrix,
    the coverage filter cannot fail, the genomes it keeps are genomes of the
    matrix, and the selected rows name [k] distinct gene families. *)
Theorem selection_then_coverage
    (df : list annotation) (t : Q) (adj_mod : matrix Z) (genomes genes_mod : list string)
    (k : Z) (p : exponent) (pseudocount : num) (markers_index : list nat)
    (min_markers : pynumber) :
  prepare_matrix df t = Ok (adj_mod, genomes, genes_mod) ->
  (1 <= k)%Z ->
  greedy_power_mean_sample_final pmean (as_array of_int adj_mod) k p pseudocount
  = Ok markers_index ->
  (exists genomes_to_keep,
     get_genomes_to_keep adj_mod k markers_index min_markers genomes = Ok genomes_to_keep /\
     genomes_to_keep `sublist_of` genomes) /\
  (exists markers_names,
     Forall2 (fun g name => genes_mod !! g = Some name) markers_index markers_names /\
     NoDup markers_names /\
     Z.of_nat (length markers_names) = k).
Proof.
  intros Hprep Hk Hsel.
  destruct (prepare_matrix_facts df t) as [_ Hfacts].
  destruct (Hfacts _ _ _ Hprep) as (kept & _ & Hwf & Hlg & Hls & Hsg & _ & _ & _).
  destruct (greedy_Ok_selection _ _ _ _ _ Hsel) as (Hlen & Hnd & Hrange).
  assert (Hn : nrows (as_array of_int adj_mod) = nrows adj_mod).
  { unfold nrows, as_array. simpl. apply length_fmap. }
  rewrite Hn in Hrange. split.
  - eexists. split; [now apply get_genomes_to_keep_Ok|].
    unfold genomes_reaching. apply select_mask_sublist.
  - assert (Hnames : exists names,
              Forall2 (fun g name => genes_mod !! g = Some name) markers_index names).
    { clear Hlen Hnd Hsel. induction Hrange as [|g sel Hg Hrange IH].
      - exists []. constructor.
      - destruct IH as [names Hnames].
        destruct (lookup_lt_is_Some_2 genes_mod g) as [name Hname]; [lia|].
        exists (name :: names). now constructor. }
    destruct Hnames as [names Hnames]. exists names. split; [assumption|]. split.
    + eapply lookup_names_NoDup; [|exact Hnd|exact Hnames].
      now apply sorted_labels_NoDup.
    + rewrite <- (Forall2_length _ _ _ Hnames), Hlen. lia.
Qed.

End SelectionToCoverage.

(** ** The annotation loaders *)

Lemma str_split_nonempty (sep : ascii) (s : string) : str_split sep s <> [].
Proof.
  induction s as [|c s IH]; simpl; [discriminate|].
  destruct (Ascii.eqb c sep); [discriminate|].
  destruct (str_split sep s); discriminate.
Qed.

Lemma split_head_cons (sep c : ascii) (s : string) :
  split_head sep (String c s)
  = if Ascii.eqb c sep then EmptyString else String c (split_head sep s).
Proof.
  unfold split_head. simpl. destruct (Ascii.eqb c sep); [reflexivity|].
  pose proof (str_split_nonempty sep s). destruct (str_split sep s); [contradiction|].
  reflexivity.
Qed.

Lemma split_head_prefix (sep : ascii) (s : string) :
  exists rest, s = (split_head sep s ++ rest)%string.
Proof.
  induction s as [|c s [rest IH]]; [exists EmptyString; reflexivity|].
  rewrite split_head_cons. destruct (Ascii.eqb c sep).
  - exists (String c s). reflexivity.
  - exists rest. change (String c s = String c (split_head sep s ++ rest)%string).
    now rewrite <- IH.
Qed.

Lemma split_head_no_sep (sep : ascii) (s : string) : ~ occurs sep (split_head sep s).
Proof.
  induction s as [|c s IH]; [simpl; tauto|].
  rewrite split_head_cons. destruct (Ascii.eqb_spec c sep) as [-> | Hne]; [simpl; tauto|].
  simpl. intros [E | Hocc]; [contradiction | now apply IH].
Qed.

Lemma split_head_id (sep : ascii) (s : string) :
  ~ occurs sep s -> split_head sep s = s.
Proof.
  induction s as [|c s IH]; intros Hno; [reflexivity|].
  rewrite split_head_cons. simpl in Hno.
  destruct (Ascii.eqb_spec c sep) as [-> | Hne]; [tauto|].
  rewrite IH; [reflexivity | tauto].
Qed.

Lemma occurs_prefix (c : ascii) (s rest : string) :
  occurs c s -> occurs c (s ++ rest)%string.
Proof.
  induction s as [|c' s IH]; [simpl; tauto|].
  change (occurs c (String c' s) -> occurs c (String c' (s ++ rest)%string)).
  simpl. intros [E | Ho]; auto.
Qed.

Lemma string_app_assoc (a b c : string) : ((a ++ b) ++ c = a ++ (b ++ c))%string.
Proof.
  induction a as [|x a IH]; [reflexivity|].
  change (String x ((a ++ b) ++ c) = String x (a ++ (b ++ c)))%string.
  now rewrite IH.
Qed.

Lemma str_split_length (sep : ascii) (s : string) :
  length (str_split sep s) = S (count_char sep s).
Proof.
  induction s as [|c s IH]; [reflexivity|]. simpl.
  destruct (Ascii.eqb c sep); simpl; [now rewrite IH|].
  pose proof (str_split_nonempty sep s) as Hne.
  destruct (str_split sep s); [contradiction|]. simpl in *. lia.
Qed.

Lemma field_Loaded (row : list string) (i : nat) (x : string) :
  field row i = Loaded x <-> row !! i = Some x.
Proof. unfold field. destruct (row !! i); split; intros E; inversion E; reflexivity. Qed.

Lemma load_bind_Loaded {A B : Type} (r : loaded A) (k : A -> loaded B) (b : B) :
  load_bind r k = Loaded b -> exists a, r = Loaded a /\ k a = Loaded b.
Proof. destruct r; simpl; [eauto | discriminate]. Qed.

Lemma annotation_of_row_Loaded (float : string -> option Q)
    (database : option string) (raw_annotations : bool) (fname : string)
    (row : list string) (r : annotation) :
  annotation_of_row float database raw_annotations fname row = Loaded r ->
  exists orf score gene x,
    r = Annotation orf x gene (split_head "_"%char orf) fname /\
    float score = Some x /\
    row !! 0 = Some orf /\
    if raw_annotations then
      row !! 3 = Some score /\
      ((database = Some "eggnog"%string /\
        exists og, row !! 4 = Some og /\
                   gene = split_head "@"%char (split_head "|"%char og)) \/
       (database = Some "kegg"%string /\ row !! 1 = Some gene))
    else row !! 1 = Some score /\ row !! 2 = Some gene.
Proof.
  unfold annotation_of_row. intros E.
  apply load_bind_Loaded in E as ([[[orf score] gene] genome] & Hfields & E).
  destruct (float score) as [x|] eqn:Hx; [|discriminate]. injection E as <-.
  destruct raw_annotations.
  - apply load_bind_Loaded in Hfields as (orf' & H0 & Hfields).
    apply load_bind_Loaded in Hfields as (score' & H3 & Hfields).
    apply load_bind_Loaded in Hfields as (gene' & Hgene & [= <- <- <- <-]).
    apply field_Loaded in H0, H3.
    exists orf', score', gene', x. repeat split; try assumption.
    destruct database as [db|]; [|discriminate].
    destruct (String.eqb_spec db "eggnog") as [-> | Hne].
    + left. split; [reflexivity|].
      apply load_bind_Loaded in Hgene as (og & H4 & [= <-]).
      apply field_Loaded in H4. eauto.
    + destruct (String.eqb_spec db "kegg") as [-> | Hne']; [|discriminate].
      right. split; [reflexivity|]. now apply field_Loaded.
  - apply load_bind_Loaded in Hfields as (orf' & H0 & Hfields).
    apply load_bind_Loaded in Hfields as (score' & H1 & Hfields).
    apply load_bind_Loaded in Hfields as (gene' & H2 & [= <- <- <- <-]).
    apply field_Loaded in H0, H1, H2.
    exists orf', score', gene', x. repeat split; assumption.
Qed.

(** X23.  The genome of a loaded record is read off its ORF identifier: it is the
    part of the identifier before its first underscore (the whole identifier
    when it has none), hence a prefix of it without underscore; the
    identifier is the first field of the row and the file name is the one
    given. *)
Theorem loaded_genome_is_orf_prefix (float : string -> option Q)
    (database : option string) (raw_annotations : bool) (fname : string)
    (row : list string) (r : annotation) :
  annotation_of_row float database raw_annotations fname row = Loaded r ->
  row !! 0 = Some (orf r) /\
  genome r = split_head "_"%char (orf r) /\
  (exists rest, orf r = (genome r ++ rest)%string) /\
  ~ occurs "_"%char (genome r) /\
  (~ occurs "_"%char (orf r) -> genome r = orf r) /\
  file_name r = fname.
Proof.
  intros E. apply annotation_of_row_Loaded in E as (o & score & gene & x & -> & _ & H0 & _).
  simpl. split; [assumption|]. split; [reflexivity|].
  split; [apply split_head_prefix|]. split; [apply split_head_no_sep|].
  split; [apply split_head_id | reflexivity].
Qed.

(** X24.  In raw eggNOG mode the gene family of a loaded record is the fifth field
    cut at its first '|' and then at its first '@', that is
    [og.split('|')[0].split('@')[0]] for the fifth field [og]: it is a
    prefix of that field and contains neither character. *)
Theorem loaded_eggnog_gene_family (float : string -> option Q) (fname : string)
    (row : list string) (r : annotation) :
  annotation_of_row float (Some "eggnog"%string) true fname row = Loaded r ->
  exists og rest,
    row !! 4 = Some og /\
    gene_family r = split_head "@"%char (split_head "|"%char og) /\
    og = (gene_family r ++ rest)%string /\
    ~ occurs "|"%char (gene_family r) /\
    ~ occurs "@"%char (gene_family r).
Proof.
  intros E. apply annotation_of_row_Loaded in E as (o & score & gene & x & -> & _ & _ & Hraw).
  destruct Hraw as [_ [(_ & og & H4 & ->) | ([= ] & _)]].
  destruct (split_head_prefix "|"%char og) as [rest1 H1].
  destruct (split_head_prefix "@"%char (split_head "|"%char og)) as [rest2 H2].
  exists og, (rest2 ++ rest1)%string. simpl. split; [assumption|].
  split; [reflexivity|]. split.
  - rewrite H1 at 1. rewrite H2 at 1. now rewrite string_app_assoc.
  - split; [|apply split_head_no_sep].
    intros Hocc. apply (split_head_no_sep "|"%char og).
    rewrite H2. now apply occurs_prefix.
Qed.

(** X25.  Which rows load.  In [load_genome_annotations_single_file], without
    raw annotations the database is not consulted and a row loads when it
    has three fields and its second field is a number; with raw annotations
    the database must be 'eggnog' (five fields needed) or 'kegg' (four
    fields needed) and the fourth field a number; a short row fails with an
    index error, and a row too short for the score fails so before the
    database is looked at.  [load_genome_annotations_multiple_files] checks
    the database first, for each file and before it reads a row: with a
    database other than 'eggnog' and 'kegg' no row loads, with or without
    raw annotations and whatever the row; with one of the two, a row is
    read as by the other loader, under the name of the file with the suffix
    of the database. *)
Theorem annotation_of_row_errors (float : string -> option Q)
    (basename : string -> string)
    (database : option string) (fname : string) (row : list string) :
  (length row < 3 ->
     annotation_of_row float database false fname row = LoadError FieldIndexError) /\
  (forall orf score gene,
     row !! 0 = Some orf -> row !! 1 = Some score -> row !! 2 = Some gene ->
     annotation_of_row float database false fname row
     = match float score with
       | Some x => Loaded (Annotation orf x gene (split_head "_"%char orf) fname)
       | None => LoadError InvalidScore
       end) /\
  (length row < 4 ->
     annotation_of_row float database true fname row = LoadError FieldIndexError) /\
  (4 <= length row ->
     database <> Some "eggnog"%string -> database <> Some "kegg"%string ->
     annotation_of_row float database true fname row = LoadError InvalidDatabase) /\
  (length row = 4 ->
     annotation_of_row float (Some "eggnog"%string) true fname row
     = LoadError FieldIndexError) /\
  (database <> Some "eggnog"%string -> database <> Some "kegg"%string ->
     forall raw_annotations,
       annotation_of_row_multiple float basename database raw_annotations fname row
       = LoadError InvalidDatabase) /\
  (forall raw_annotations,
     annotation_of_row_multiple float basename (Some "eggnog"%string) raw_annotations
       fname row
     = annotation_of_row float (Some "eggnog"%string) raw_annotations
         (basename (fname ++ ".emapper.annotations")%string) row /\
     annotation_of_row_multiple float basename (Some "kegg"%string) raw_annotations
       fname row
     = annotation_of_row float (Some "kegg"%string) raw_annotations
         (basename (fname ++ ".tsv")%string) row).
Proof.
  assert (Hshort : forall i, length row <= i -> field row i = LoadError FieldIndexError).
  { intros i Hi. unfold field. now rewrite lookup_ge_None_2. }
  assert (Hfield : forall i, i < length row -> exists x, field row i = Loaded x).
  { intros i Hi. unfold field. destruct (lookup_lt_is_Some_2 row i Hi) as [x ->]. eauto. }
  split; [|split; [|split; [|split; [|split; [|split]]]]].
  - intros Hlen. unfold annotation_of_row.
    destruct (field row 0) as [o|e] eqn:E0; simpl.
    2:{ unfold field in E0. destruct (row !! 0); [discriminate | now injection E0 as <-]. }
    destruct (field row 1) as [s|e] eqn:E1; simpl.
    2:{ unfold field in E1. destruct (row !! 1); [discriminate | now injection E1 as <-]. }
    rewrite (Hshort 2) by lia. reflexivity.
  - intros o score gene H0 H1 H2. unfold annotation_of_row, field.
    rewrite H0, H1, H2. reflexivity.
  - intros Hlen. unfold annotation_of_row.
    destruct (field row 0) as [o|e] eqn:E0; simpl.
    2:{ unfold field in E0. destruct (row !! 0); [discriminate | now injection E0 as <-]. }
    rewrite (Hshort 3) by lia. reflexivity.
  - intros Hlen Hegg Hkegg. unfold annotation_of_row.
    destruct (Hfield 0) as [o ->]; [lia|]. destruct (Hfield 3) as [s ->]; [lia|]. simpl.
    destruct database as [db|]; [|reflexivity].
    destruct (String.eqb_spec db "eggnog") as [-> | _]; [congruence|].
    destruct (String.eqb_spec db "kegg") as [-> | _]; [congruence | reflexivity].
  - intros Hlen. unfold annotation_of_row.
    destruct (Hfield 0) as [o ->]; [lia|]. destruct (Hfield 3) as [s ->]; [lia|]. simpl.
    rewrite (Hshort 4) by lia. reflexivity.
  - intros Hegg Hkegg raw_annotations. unfold annotation_of_row_multiple, annotation_path.
    destruct database as [db|]; [|reflexivity].
    destruct (String.eqb_spec db "eggnog") as [-> | _]; [congruence|].
    destruct (String.eqb_spec db "kegg") as [-> | _]; [congruence | reflexivity].
  - intros raw_annotations. split; reflexivity.
Qed.

(** X26.  A line loads only if it has enough tab-separated fields: at least two
    tabs, and at least three with raw annotations (four for eggNOG); in
    particular an empty line makes the loaders fail. *)
Theorem loaded_line_has_tabs (float : string -> option Q)
    (database : option string) (raw_annotations : bool) (fname : string)
    (stripped : string) (r : annotation) :
  annotation_of_line float database raw_annotations fname stripped = Loaded r ->
  (if raw_annotations
   then if bool_decide (database = Some "eggnog"%string) then 4 else 3
   else 2) <= count_char "009"%char stripped.
Proof.
  unfold annotation_of_line. intros E.
  apply annotation_of_row_Loaded in E as (o & score & gene & x & _ & _ & _ & Hrow).
  pose proof (str_split_length "009"%char stripped) as Hlen.
  destruct raw_annotations.
  - destruct Hrow as [H3 Hdb]. apply lookup_lt_Some in H3.
    case_bool_decide as Hegg; [|lia].
    destruct Hdb as [(_ & og & H4 & _) | (Hk & _)]; [|congruence].
    apply lookup_lt_Some in H4. lia.
  - destruct Hrow as [_ H2]. apply lookup_lt_Some in H2. lia.
Qed.

(** ** The further properties at examples *)

Lemma example_table_nonneg : forall r, r ∈ example_table -> (0 <= bit_score r)%Q.
Proof.
  intros r Hr. unfold example_table in Hr.
  repeat (apply elem_of_cons in Hr as [-> | Hr]; [discriminate|]).
  inversion Hr.
Qed.

Lemma example_table_floats : forall r, r ∈ example_table -> is_float (bit_score r).
Proof.
  intros r Hr. unfold example_table in Hr.
  repeat (apply elem_of_cons in Hr as [-> | Hr]; [vm_compute; reflexivity|]).
  inversion Hr.
Qed.

(** The products of floats are rounded: [0.1 * 50] is [5.0], [0.14 * 50] is
    the float above [7.0], [10.0 * 0.9] is [9.0] and [0.5 * 3] is [1.5]. *)
Lemma float_mul_examples :
  float_mul (float_round (1 # 10)) (float_of_int 50) = 5%Q /\
  float_mul (float_round (14 # 100)) (float_of_int 50)
  = (7881299347898369 # 1125899906842624)%Q /\
  float_mul 10 (float_round (9 # 10)) = 9%Q /\
  float_mul (1 # 2) (float_of_int 3) = (3 # 2)%Q.
Proof. repeat split; vm_compute; reflexivity. Qed.

(** With [k = 50], the fraction 0.1 keeps a genome whose total is 5 and the
    fraction 0.14 does not keep a genome whose total is 7. *)
Lemma coverage_threshold_rounds :
  ge_threshold 5 (coverage_threshold (PyFloat (float_round (1 # 10))) 50) = true /\
  ge_threshold 7 (coverage_threshold (PyFloat (float_round (14 # 100))) 50) = false.
Proof. split; vm_compute; reflexivity. Qed.

(** In a group scoring 10 and 9 the threshold 0.9 keeps both records. *)
Lemma filter_copies_rounds :
  filter_copies [ Annotation "G1_1" 10 "K00001" "G1" "G1.tsv";
                  Annotation "G1_2" 9 "K00001" "G1" "G1.tsv" ] (float_round (9 # 10))
  = Ok [ Annotation "G1_1" 10 "K00001" "G1" "G1.tsv";
         Annotation "G1_2" 9 "K00001" "G1" "G1.tsv" ].
Proof. vm_compute. reflexivity. Qed.

Lemma inject_Z_eq0 (z : Z) : num_eq0 (inject_Z z) = (z =? 0)%Z.
Proof.
  simpl. apply eq_true_iff_eq. rewrite Qeq_bool_iff, Z.eqb_eq.
  unfold Qeq. simpl. lia.
Qed.

Lemma example_table_filter : filter_copies example_table 1 = Ok example_table_filtered.
Proof. vm_compute. reflexivity. Qed.

Lemma example_table_prepared :
  prepare_matrix example_table 1
  = Ok (example_counts_mod, ["G1"; "G2"; "G3"; "G4"], ["K1"; "K2"]).
Proof. vm_compute. reflexivity. Qed.

Lemma greedy_selection_prefix_witness :
  greedy_power_mean_sample_final Qmean_of_powers example_matrix 2 (ExpStr "min") (1 # 10)%Q
  = Ok (take (Z.to_nat 2) [3; 0; 1]).
Proof.
  apply (greedy_selection_prefix Qmean_of_powers example_matrix 2 3 (ExpStr "min")
           (1 # 10)%Q [3; 0; 1]).
  - lia.
  - vm_compute. reflexivity.
Defined.

Lemma greedy_counts_are_selected_sums_witness :
  counts example_final_state
  = counts_of_selection example_matrix (1 # 10)%Q (selected example_final_state) /\
  Forall (fun g => is_Some (mrows example_matrix !! g)) (selected example_final_state).
Proof.
  apply (greedy_counts_are_selected_sums Qmean_of_powers example_matrix 3 (ExpStr "min")
           (1 # 10)%Q example_final_state).
  vm_compute. reflexivity.
Defined.

Lemma greedy_remaining_candidates_witness :
  length (selected example_final_state) = Z.to_nat 3 /\
  length (indices example_final_state) = nrows example_matrix - Z.to_nat 3 /\
  increasing (indices example_final_state) /\
  (forall g, g ∈ indices example_final_state <->
             g < nrows example_matrix /\ g ∉ selected example_final_state) /\
  Forall2 (fun g row => add_pseudocount (1 # 10)%Q (mrows example_matrix) !! g = Some row)
          (indices example_final_state) (data example_final_state).
Proof.
  apply (greedy_remaining_candidates Qmean_of_powers example_matrix 3 (ExpStr "min")
           (1 # 10)%Q example_final_state).
  vm_compute. reflexivity.
Defined.

Lemma greedy_invalid_exponent_witness :
  greedy_run Qmean_of_powers example_matrix 1 (ExpStr "median") (1 # 10)%Q
  = Raise InvalidP /\
  greedy_power_mean_sample_final Qmean_of_powers example_matrix 1 (ExpStr "median")
    (1 # 10)%Q = Raise InvalidP.
Proof.
  apply (greedy_invalid_exponent Qmean_of_powers example_matrix 1 (ExpStr "median")
           (1 # 10)%Q).
  - reflexivity.
  - lia.
  - reflexivity.
Defined.

Lemma sparse_genes_removed_witness :
  exists rows_mod genes_mod,
    np_delete (mrows example_counts) (remove_genes example_counts) = Ok rows_mod /\
    np_delete ["K1"; "K2"; "K3"] (remove_genes example_counts) = Ok genes_mod /\
    rows_mod = List.filter dense (mrows example_counts) /\
    zip genes_mod rows_mod
    = List.filter (fun gr => dense gr.2) (zip ["K1"; "K2"; "K3"] (mrows example_counts)) /\
    length genes_mod = length rows_mod /\
    StronglySorted lt (remove_genes example_counts) /\
    Forall (fun i => i < nrows example_counts) (remove_genes example_counts).
Proof.
  apply (sparse_genes_removed example_counts ["K1"; "K2"; "K3"]). reflexivity.
Defined.

Lemma remove_genes_idempotent_witness :
  remove_genes {| ncols := ncols example_counts; mrows := mrows example_counts_mod |} = [].
Proof.
  apply (remove_genes_idempotent example_counts (mrows example_counts_mod)).
  reflexivity.
Defined.

Lemma sparse_filtered_matrix_errors_witness :
  greedy_power_mean_sample_final Qmean_of_powers
    (as_array inject_Z {| ncols := ncols example_counts; mrows := mrows example_counts_mod |})
    1 (ExpStr "min") (1 # 10)%Q
  <> Raise OnlyZeros /\
  (greedy_power_mean_sample_final Qmean_of_powers
     (as_array inject_Z {| ncols := ncols example_counts; mrows := mrows example_counts_mod |})
     1 (ExpStr "min") (1 # 10)%Q
   = Raise EmptyMatrix <->
   Forall (fun row => count_nonzero row < 4) (mrows example_counts)).
Proof.
  apply (sparse_filtered_matrix_errors Qmean_of_powers inject_Z inject_Z_eq0
           example_counts (mrows example_counts_mod) 1 (ExpStr "min") (1 # 10)%Q).
  - repeat constructor.
  - reflexivity.
Defined.

Lemma fewer_than_four_genomes_witness :
  np_delete (mrows example_adj) (remove_genes example_adj) = Ok [] /\
  greedy_power_mean_sample_final Qmean_of_powers
    (as_array inject_Z {| ncols := ncols example_adj; mrows := [] |})
    1 (ExpStr "min") (1 # 10)%Q
  = Raise EmptyMatrix.
Proof.
  apply (fewer_than_four_genomes Qmean_of_powers inject_Z example_adj 1 (ExpStr "min")
           (1 # 10)%Q).
  - repeat constructor.
  - vm_compute. lia.
Defined.

Lemma build_matrix_counts_every_edge_witness :
  matrix_sum [[0; 1; 0]; [2; 0; 1]; [1; 0; 0]]%Z
  = Z.of_nat (length example_edges_genes) /\
  Forall (Forall (fun c => (0 <= c)%Z)) [[0; 1; 0]; [2; 0; 1]; [1; 0; 0]]%Z.
Proof.
  apply (build_matrix_counts_every_edge example_edges_genes example_edges_genomes
           {| ncols := 3; mrows := [[0; 1; 0]; [2; 0; 1]; [1; 0; 0]]%Z |}
           ["G1"; "G2"; "G3"] ["K1"; "K2"; "K3"]).
  - reflexivity.
  - vm_compute. reflexivity.
Defined.

Lemma build_matrix_no_empty_row_or_column_witness :
  Forall (fun row => 0 < count_nonzero row) [[0; 1; 0]; [2; 0; 1]; [1; 0; 0]]%Z /\
  (forall j, j < 3 ->
     exists i x, entry [[0; 1; 0]; [2; 0; 1]; [1; 0; 0]]%Z i j = Some x /\ (0 < x)%Z).
Proof.
  apply (build_matrix_no_empty_row_or_column example_edges_genes example_edges_genomes
           {| ncols := 3; mrows := [[0; 1; 0]; [2; 0; 1]; [1; 0; 0]]%Z |}
           ["G1"; "G2"; "G3"] ["K1"; "K2"; "K3"]).
  - reflexivity.
  - vm_compute. reflexivity.
Defined.

Lemma build_matrix_order_independent_witness :
  build_copy_number_matrix example_edges_genes example_edges_genomes
  = build_copy_number_matrix ["K1"; "K2"; "K2"; "K3"; "K2"] ["G2"; "G1"; "G1"; "G1"; "G3"].
Proof.
  apply (build_matrix_order_independent example_edges_genes example_edges_genomes
           ["K1"; "K2"; "K2"; "K3"; "K2"] ["G2"; "G1"; "G1"; "G1"; "G3"]).
  - reflexivity.
  - reflexivity.
  - apply perm_swap.
Defined.

Lemma genomes_to_keep_sublist_witness :
  ["G1"; "G2"] `sublist_of` example_genomes.
Proof.
  apply (genomes_to_keep_sublist example_adj 3 [0; 1; 2] (PyFloat (1 # 2)) example_genomes
           ["G1"; "G2"]).
  reflexivity.
Defined.


Lemma genomes_to_keep_antitone_witness :
  ["G1"; "G2"] `sublist_of` ["G1"; "G2"; "G3"].
Proof.
  apply (genomes_to_keep_antitone example_adj 3 [0; 1; 2] (PyInt 1) (PyFloat (1 # 2))
           example_genomes ["G1"; "G2"; "G3"] ["G1"; "G2"]).
  - vm_compute. discriminate.
  - reflexivity.
  - reflexivity.
Defined.

Lemma genomes_to_keep_all_witness :
  get_genomes_to_keep example_adj 3 [0; 1; 2] (PyInt 0) example_genomes = Ok example_genomes.
Proof.
  apply (genomes_to_keep_all example_adj 3 [0; 1; 2] (PyInt 0) example_genomes).
  - repeat constructor.
  - repeat constructor; discriminate.
  - repeat constructor; vm_compute; lia.
  - reflexivity.
  - vm_compute. discriminate.
Defined.

Lemma filter_copies_sublist_witness :
  example_table_filtered `sublist_of` example_table.
Proof.
  apply (filter_copies_sublist example_table example_table_filtered 1).
  exact example_table_filter.
Defined.

Lemma filter_copies_keeps_every_group_witness :
  (forall r, r ∈ example_table ->
     exists r', r' ∈ example_table_filtered /\ group_key r' = group_key r /\
                forall r'', r'' ∈ example_table -> group_key r'' = group_key r ->
                            (bit_score r'' <= bit_score r')%Q) /\
  np_unique (gene_family <$> example_table_filtered)
  = np_unique (gene_family <$> example_table) /\
  np_unique (genome <$> example_table_filtered) = np_unique (genome <$> example_table).
Proof.
  apply (filter_copies_keeps_every_group example_table example_table_filtered 1).
  - exact example_table_floats.
  - exact example_table_nonneg.
  - exact example_table_filter.
Defined.

Lemma filter_copies_antitone_witness :
  example_table_filtered `sublist_of` example_table.
Proof.
  apply (filter_copies_antitone example_table example_table example_table_filtered
           (1 # 2) 1).
  - exact example_table_nonneg.
  - vm_compute. discriminate.
  - vm_compute. reflexivity.
  - exact example_table_filter.
Defined.

Lemma filter_copies_idempotent_witness :
  filter_copies example_table_filtered 1 = Ok example_table_filtered.
Proof.
  apply (filter_copies_idempotent example_table example_table_filtered 1).
  - exact example_table_floats.
  - exact example_table_nonneg.
  - exact example_table_filter.
Defined.

Lemma sparse_genes_independent_of_threshold_witness :
  ["K1"; "K2"; "K3"] = ["K1"; "K2"; "K3"] /\
  ["G1"; "G2"; "G3"; "G4"] = ["G1"; "G2"; "G3"; "G4"] /\
  (forall i j x x0,
     entry (mrows example_counts) i j = Some x ->
     entry [[1; 1; 1; 1]; [2; 1; 1; 1]; [1; 1; 0; 0]]%Z i j = Some x0 ->
     (x <> 0%Z <-> x0 <> 0%Z)) /\
  remove_genes example_counts
  = remove_genes {| ncols := 4; mrows := [[1; 1; 1; 1]; [2; 1; 1; 1]; [1; 1; 0; 0]]%Z |}.
Proof.
  apply (sparse_genes_independent_of_threshold example_table example_table_filtered 1
           example_counts
           {| ncols := 4; mrows := [[1; 1; 1; 1]; [2; 1; 1; 1]; [1; 1; 0; 0]]%Z |}
           ["G1"; "G2"; "G3"; "G4"] ["G1"; "G2"; "G3"; "G4"]
           ["K1"; "K2"; "K3"] ["K1"; "K2"; "K3"]).
  - exact example_table_floats.
  - exact example_table_nonneg.
  - exact example_table_filter.
  - vm_compute. reflexivity.
  - vm_compute. reflexivity.
Defined.

Lemma selection_then_coverage_witness :
  (exists genomes_to_keep,
     get_genomes_to_keep example_counts_mod 1 [0] (PyInt 1) ["G1"; "G2"; "G3"; "G4"]
     = Ok genomes_to_keep /\
     genomes_to_keep `sublist_of` ["G1"; "G2"; "G3"; "G4"]) /\
  (exists markers_names,
     Forall2 (fun g name => ["K1"; "K2"] !! g = Some name) [0] markers_names /\
     NoDup markers_names /\
     Z.of_nat (length markers_names) = 1%Z).
Proof.
  apply (selection_then_coverage Qmean_of_powers inject_Z example_table 1
           example_counts_mod ["G1"; "G2"; "G3"; "G4"] ["K1"; "K2"] 1 (ExpStr "min")
           (1 # 10)%Q [0] (PyInt 1)).
  - exact example_table_prepared.
  - lia.
  - vm_compute. reflexivity.
Defined.

Lemma loaded_genome_is_orf_prefix_witness :
  ["G1_1"; "52"; "K00001"] !! 0 = Some "G1_1" /\
  "G1" = split_head "_"%char "G1_1" /\
  (exists rest, "G1_1" = ("G1" ++ rest)%string) /\
  ~ occurs "_"%char "G1" /\
  (~ occurs "_"%char "G1_1" -> "G1" = "G1_1") /\
  "G1.tsv" = "G1.tsv".
Proof.
  apply (loaded_genome_is_orf_prefix example_float None false "G1.tsv"
           ["G1_1"; "52"; "K00001"] (Annotation "G1_1" 52 "K00001" "G1" "G1.tsv")).
  reflexivity.
Defined.

Lemma loaded_eggnog_gene_family_witness :
  exists og rest,
    ["G1_1"; "seed"; "1e-20"; "52"; "COG0001@1|root,COG0001@2|Bacteria"] !! 4 = Some og /\
    "COG0001" = split_head "@"%char (split_head "|"%char og) /\
    og = ("COG0001" ++ rest)%string /\
    ~ occurs "|"%char "COG0001" /\
    ~ occurs "@"%char "COG0001".
Proof.
  apply (loaded_eggnog_gene_family example_float "G1.tsv"
           ["G1_1"; "seed"; "1e-20"; "52"; "COG0001@1|root,COG0001@2|Bacteria"]
           (Annotation "G1_1" 52 "COG0001" "G1" "G1.tsv")).
  reflexivity.
Defined.

Lemma loaded_line_has_tabs_witness :
  2 <= count_char "009"%char
         ("G1_1" ++ String "009" ("52" ++ String "009" "K00001"))%string.
Proof.
  apply (loaded_line_has_tabs example_float None false "G1.tsv"
           ("G1_1" ++ String "009" ("52" ++ String "009" "K00001"))%string
           (Annotation "G1_1" 52 "K00001" "G1" "G1.tsv")).
  reflexivity.
Defined.
